(** * dulwich.walk -- walking commits and their contents

    A shallow embedding of [dulwich/walk.py] (classes [WalkEntry],
    [_CommitTimeQueue] and [Walker]) together with the properties the
    specification states about them.

    Conventions of the embedding:
    - Python exceptions are values of [exn]; a computation that may raise
      returns a [result].  The loops of the source ([while self._pq],
      [while True], [iter(self._next, None)]) are unbounded; they are
      written by recursion on a [fuel] argument and report [Diverge] when
      it runs out.  Section [Termination] shows that on a content-addressed
      store no loop ever needs more than [S (size store)] rounds.
    - [set] is [gset], the object store is a [gmap]; iterating a Python set
      visits its members in an unspecified order, for which [elements] is
      taken.
    - Objects that the source mutates in place are threaded through the
      functions and returned next to the value. *)

From stdpp Require Import gmap strings list.
From Stdlib Require Import ZArith Ascii Sorted.

#[local] Set Warnings "-clear-no-such-hyp".

Local Open Scope string_scope.
Local Open Scope Z_scope.

(** ** Exceptions and results *)

Inductive exn :=
  | MissingCommitError (commit_id : string)
  | KeyError (key : option string)
  | TypeError
  | IndexError
  | AttributeError
  | ValueError (order : string).

Inductive result (A : Type) :=
  | Ok (a : A)
  | Raise (e : exn)
  | Diverge.
Arguments Ok {A} a.
Arguments Raise {A} e.
Arguments Diverge {A}.

#[global] Instance result_ret : MRet result := λ A a, Ok a.
#[global] Instance result_bind : MBind result := λ A B f m,
  match m with
  | Ok a => f a
  | Raise e => Raise e
  | Diverge => Diverge
  end.
#[global] Instance result_fmap : FMap result := λ A B f m,
  match m with
  | Ok a => Ok (f a)
  | Raise e => Raise e
  | Diverge => Diverge
  end.

(** ** Commits and the object store (dulwich.objects, dulwich.object_store)

    A commit carries its own identifier; the store maps identifiers to
    commits.  [store_wf] is content addressing: the object found under a
    key has that key as its [id]. *)

Record Commit := {
  id : string;
  parents : list string;
  tree : string;
  commit_time : Z;
}.

Abbreviation Store := (gmap string Commit).

Definition store_wf (store : Store) : Prop :=
  map_Forall (λ k c, id c = k) store.

(** [store[key]]: raises [KeyError] for an unknown key. *)
Definition getitem (store : Store) (key : string) : result Commit :=
  match store !! key with
  | Some c => Ok c
  | None => Raise (KeyError (Some key))
  end.

(** ** The diff engine (dulwich.diff_tree) *)

(** Modelled from the spec: the change records of [dulwich.diff_tree]
    ([TreeChange], its change kinds and [RENAME_CHANGE_TYPES]) are not part
    of the walker's source.  A change record has a kind, an old side and a
    new side, each side optionally carrying a path; the rename kinds are
    rename and copy. *)
Inductive ChangeType :=
  | CHANGE_ADD
  | CHANGE_MODIFY
  | CHANGE_DELETE
  | CHANGE_RENAME
  | CHANGE_COPY
  | CHANGE_UNCHANGED.

#[global] Instance ChangeType_eq_dec : EqDecision ChangeType.
Proof. solve_decision. Defined.

Definition RENAME_CHANGE_TYPES : list ChangeType := [CHANGE_RENAME; CHANGE_COPY].

Record TreeEntry := {
  path : option string;
  mode : option Z;
  sha : option string;
}.

Record TreeChange := {
  type : ChangeType;
  old : TreeEntry;
  new : TreeEntry;
}.

(** The two-tree diff and the rename detector are external collaborators:
    [tree_changes store None t] diffs the empty tree against [t]. *)
Class DiffEngine := {
  RenameDetector : Type;
  RenameDetector_new : Store → RenameDetector;
  tree_changes :
    Store → option string → string → option RenameDetector → list TreeChange;
}.

(** Modelled from the spec: [tree_changes_for_merge] of [dulwich.diff_tree]
    is not part of the walker's source.  For a merge it diffs each parent's
    tree against the commit's tree independently and yields one
    change-record sequence per parent, in parent order. *)
Definition tree_changes_for_merge `{DiffEngine} (store : Store)
    (parent_trees : list string) (tree_id : string)
    (rename_detector : option RenameDetector) : list (list TreeChange) :=
  (λ p, tree_changes store (Some p) tree_id rename_detector) <$> parent_trees.

(** What [WalkEntry.changes] returns: a list of changes, or for a merge a
    list of lists. *)
Inductive Changes :=
  | Flat (l : list TreeChange)
  | Nested (l : list (list TreeChange)).

(** ** heapq

    The standard library's binary heap, by its contract: [heappush] adds an
    item and [heappop] removes and returns the least one.  The heap is kept
    as an ascending list.  Items are tuples [(-commit_time, commit)]; tuples
    compare on the first component and, when those are equal, on the
    commits, whose ordering ([commit_lt]) belongs to dulwich.objects. *)
Class CommitOrder := commit_lt : Commit → Commit → bool.

Module heapq.
Section heapq.
Context `{CommitOrder}.

Definition item_lt (a b : Z * Commit) : bool :=
  (a.1 <? b.1) || ((a.1 =? b.1) && commit_lt a.2 b.2).

Fixpoint heappush (heap : list (Z * Commit)) (item : Z * Commit) :
    list (Z * Commit) :=
  match heap with
  | [] => [item]
  | x :: heap' =>
      if item_lt item x then item :: x :: heap'
      else x :: heappush heap' item
  end.

Definition heappop (heap : list (Z * Commit)) :
    option ((Z * Commit) * list (Z * Commit)) :=
  match heap with
  | [] => None
  | x :: heap' => Some (x, heap')
  end.
End heapq.
End heapq.

(** Maximum number of commits to walk past a commit time boundary. *)
Definition _MAX_EXTRA_COMMITS : Z := 5.

Definition ORDER_DATE : string := "date".

(** ** class WalkEntry *)

Module WalkEntry.
Section WalkEntry.
Context `{DiffEngine}.

Record t := {
  commit : Commit;
  _store : Store;
  _changes : option Changes;
  _rename_detector : option RenameDetector;
}.

(** [WalkEntry(walker, commit)]; of the walker only [store] and
    [rename_detector] are read. *)
Definition __init__ (store : Store) (rename_detector : option RenameDetector)
    (commit : Commit) : t :=
  {| commit := commit; _store := store; _changes := None;
     _rename_detector := rename_detector |}.

(** [[self._store[p].tree for p in commit.parents]] *)
Fixpoint parent_trees (store : Store) (ps : list string) :
    result (list string) :=
  match ps with
  | [] => Ok []
  | p :: ps' =>
      c ← getitem store p;
      ts ← parent_trees store ps';
      Ok (tree c :: ts)
  end.

(** The entry is returned next to the changes: the first call fills the
    cache [_changes]. *)
Definition changes (self : t) : result (Changes * t) :=
  match _changes self with
  | Some ch => Ok (ch, self)
  | None =>
      let commit := commit self in
      ch ← match parents commit with
           | [] =>
               Ok (Flat (tree_changes (_store self) None (tree commit)
                           (_rename_detector self)))
           | [p] =>
               pc ← getitem (_store self) p;
               Ok (Flat (tree_changes (_store self) (Some (tree pc))
                           (tree commit) (_rename_detector self)))
           | ps =>
               parent ← parent_trees (_store self) ps;
               Ok (Nested (tree_changes_for_merge (_store self) parent
                             (tree commit) (_rename_detector self)))
           end;
      Ok (ch, {| commit := commit; _store := _store self;
                 _changes := Some ch;
                 _rename_detector := _rename_detector self |})
  end.
End WalkEntry.
End WalkEntry.

(** ** class _CommitTimeQueue *)

Module _CommitTimeQueue.
Section _CommitTimeQueue.
Context `{DiffEngine} `{CommitOrder}.

(** Of [self._walker] the queue reads [store] and [rename_detector] (to
    wrap a commit in a [WalkEntry]); [_excluded] is the walker's
    [excluded] set itself, not a copy. *)
Record t := {
  _store : Store;
  _rename_detector : option RenameDetector;
  _excluded : gset string;
  _pq : list (Z * Commit);
  _pq_set : gset string;
  _done : gset string;
  _min_time : option Z;
  _extra_commits_left : Z;
}.

Definition set_excluded (v : gset string) (self : t) : t :=
  {| _store := _store self; _rename_detector := _rename_detector self;
     _excluded := v; _pq := _pq self; _pq_set := _pq_set self;
     _done := _done self; _min_time := _min_time self;
     _extra_commits_left := _extra_commits_left self |}.
Definition set_pq (v : list (Z * Commit)) (self : t) : t :=
  {| _store := _store self; _rename_detector := _rename_detector self;
     _excluded := _excluded self; _pq := v; _pq_set := _pq_set self;
     _done := _done self; _min_time := _min_time self;
     _extra_commits_left := _extra_commits_left self |}.
Definition set_pq_set (v : gset string) (self : t) : t :=
  {| _store := _store self; _rename_detector := _rename_detector self;
     _excluded := _excluded self; _pq := _pq self; _pq_set := v;
     _done := _done self; _min_time := _min_time self;
     _extra_commits_left := _extra_commits_left self |}.
Definition set_done (v : gset string) (self : t) : t :=
  {| _store := _store self; _rename_detector := _rename_detector self;
     _excluded := _excluded self; _pq := _pq self; _pq_set := _pq_set self;
     _done := v; _min_time := _min_time self;
     _extra_commits_left := _extra_commits_left self |}.
Definition set_extra_commits_left (v : Z) (self : t) : t :=
  {| _store := _store self; _rename_detector := _rename_detector self;
     _excluded := _excluded self; _pq := _pq self; _pq_set := _pq_set self;
     _done := _done self; _min_time := _min_time self;
     _extra_commits_left := v |}.

Definition _push (self : t) (commit_id : string) : result t :=
  match _store self !! commit_id with
  | None => Raise (MissingCommitError commit_id)
  | Some commit =>
      if decide ((commit_id ∉ _pq_set self) ∧ (commit_id ∉ _done self)) then
        let self :=
          set_pq (heapq.heappush (_pq self) (- commit_time commit, commit))
                 self in
        Ok (set_pq_set ({[commit_id]} ∪ _pq_set self) self)
      else Ok self
  end.

(** [for commit_id in ids: self._push(commit_id)] *)
Fixpoint push_each (self : t) (ids : list string) : result t :=
  match ids with
  | [] => Ok self
  | commit_id :: ids' =>
      self ← _push self commit_id;
      push_each self ids'
  end.

(** [_CommitTimeQueue(walker)], reading [walker.store],
    [walker.rename_detector], [walker.include], [walker.excluded] and
    [walker.since]. *)
Definition __init__ (store : Store) (rename_detector : option RenameDetector)
    (include : list string) (excluded : gset string) (since : option Z) :
    result t :=
  push_each
    {| _store := store; _rename_detector := rename_detector;
       _excluded := excluded; _pq := []; _pq_set := ∅; _done := ∅;
       _min_time := since; _extra_commits_left := _MAX_EXTRA_COMMITS |}
    (include ++ elements excluded).

(** How one round of the [while self._pq] loop of [next] ends. *)
Inductive flow :=
  | Continue (self : t)
  | Break (self : t)
  | Return (entry : WalkEntry.t) (self : t).

(** The body of the loop, after [heappop] has taken [commit] off the
    heap. *)
Definition next_body (self : t) (commit : Commit) : result flow :=
  let sha := id commit in
  if decide (sha ∈ _pq_set self) then
    let self := set_pq_set (_pq_set self ∖ {[sha]}) self in
    if decide (sha ∈ _done self) then Ok (Continue self)
    else
      let is_excluded := bool_decide (sha ∈ _excluded self) in
      let self :=
        if is_excluded
        then set_excluded (_excluded self ∪ list_to_set (parents commit)) self
        else self in
      let self := set_done ({[id commit]} ∪ _done self) self in
      let '(self, stop) :=
        match _min_time self with
        | Some min_time =>
            if commit_time commit <? min_time then
              let self :=
                set_extra_commits_left (_extra_commits_left self - 1) self in
              (self, bool_decide (_extra_commits_left self = 0))
            else (set_extra_commits_left _MAX_EXTRA_COMMITS self, false)
        | None => (self, false)
        end in
      if stop then Ok (Break self)
      else
        self ← push_each self (parents commit);
        if is_excluded then Ok (Continue self)
        else Ok (Return (WalkEntry.__init__ (_store self)
                           (_rename_detector self) commit) self)
  else Raise (KeyError (Some sha)).

Fixpoint next (fuel : nat) (self : t) : result (option WalkEntry.t * t) :=
  match fuel with
  | O => Diverge
  | S fuel' =>
      match heapq.heappop (_pq self) with
      | None => Ok (None, self)
      | Some ((_, commit), pq') =>
          r ← next_body (set_pq pq' self) commit;
          match r with
          | Continue self' => next fuel' self'
          | Break self' => Ok (None, self')
          | Return entry self' => Ok (Some entry, self')
          end
      end
  end.
End _CommitTimeQueue.
End _CommitTimeQueue.

(** ** class Walker *)

Module Walker.
Section Walker.
Context `{DiffEngine} `{CommitOrder}.

(** [excluded] is shared with the queue (see [excluded] below); [paths]
    is [None] or a set; a set member is [None] only if a change record
    without an old path has been followed. *)
Record t := {
  store : Store;
  include : list string;
  order : string;
  reverse : bool;
  max_entries : option Z;
  paths : option (gset (option string));
  rename_detector : option RenameDetector;
  follow : bool;
  since : option Z;
  until : option Z;
  _num_entries : Z;
  _queue : _CommitTimeQueue.t;
}.

Definition excluded (self : t) : gset string :=
  _CommitTimeQueue._excluded (_queue self).

Definition set_paths (v : option (gset (option string))) (self : t) : t :=
  {| store := store self; include := include self; order := order self;
     reverse := reverse self; max_entries := max_entries self; paths := v;
     rename_detector := rename_detector self; follow := follow self;
     since := since self; until := until self;
     _num_entries := _num_entries self; _queue := _queue self |}.
Definition set_num_entries (v : Z) (self : t) : t :=
  {| store := store self; include := include self; order := order self;
     reverse := reverse self; max_entries := max_entries self;
     paths := paths self; rename_detector := rename_detector self;
     follow := follow self; since := since self; until := until self;
     _num_entries := v; _queue := _queue self |}.
Definition set_queue (v : _CommitTimeQueue.t) (self : t) : t :=
  {| store := store self; include := include self; order := order self;
     reverse := reverse self; max_entries := max_entries self;
     paths := paths self; rename_detector := rename_detector self;
     follow := follow self; since := since self; until := until self;
     _num_entries := _num_entries self; _queue := v |}.

(** [Walker(store, include, exclude, order, reverse, max_entries, paths,
    rename_detector, follow, since, until)], with the default
    [queue_cls]. *)
Definition __init__ (store : Store) (include : list string)
    (exclude : option (list string)) (order : string) (reverse : bool)
    (max_entries : option Z) (paths : option (list string))
    (rename_detector : option RenameDetector) (follow : bool)
    (since until : option Z) : result t :=
  if decide (order ∉ [ORDER_DATE]) then Raise (ValueError order)
  else
    let excluded : gset string := list_to_set (default [] exclude) in
    (* paths and set(paths) or None *)
    let paths : option (gset (option string)) :=
      match paths with
      | None | Some [] => None
      | Some l =>
          let s : gset (option string) := list_to_set (Some <$> l) in
          if decide (s = ∅) then None else Some s
      end in
    let rename_detector :=
      if follow && negb (bool_decide (is_Some rename_detector))
      then Some (RenameDetector_new store)
      else rename_detector in
    queue ← _CommitTimeQueue.__init__ store rename_detector include
              excluded since;
    Ok {| store := store; include := include; order := order;
          reverse := reverse; max_entries := max_entries; paths := paths;
          rename_detector := rename_detector; follow := follow;
          since := since; until := until; _num_entries := 0;
          _queue := queue |}.

(** [for followed_path in self.paths: ...] of [_path_matches] *)
Fixpoint path_matches_loop (changed_path : string)
    (followed : list (option string)) : result bool :=
  match followed with
  | [] => Ok false
  | followed_path :: followed' =>
      if decide (Some changed_path = followed_path) then Ok true
      else
        match followed_path with
        | None => Raise TypeError
        | Some followed_path =>
            if String.prefix followed_path changed_path then
              match String.get (String.length followed_path) changed_path with
              | None => Raise IndexError
              | Some c =>
                  if decide (c = "/"%char) then Ok true
                  else path_matches_loop changed_path followed'
              end
            else path_matches_loop changed_path followed'
        end
  end.

Definition _path_matches (self : t) (changed_path : option string) :
    result bool :=
  match changed_path with
  | None => Ok false
  | Some changed_path =>
      match paths self with
      | None => Raise TypeError
      | Some ps => path_matches_loop changed_path (elements ps)
      end
  end.

Definition _change_matches (self : t) (change : TreeChange) :
    result (bool * t) :=
  let old_path := path (old change) in
  let new_path := path (new change) in
  m ← _path_matches self new_path;
  if m : bool then
    if follow self && bool_decide (type change ∈ RENAME_CHANGE_TYPES) then
      match paths self with
      | None => Raise AttributeError
      | Some ps =>
          let ps := {[old_path]} ∪ ps in
          if decide (new_path ∈ ps)
          then Ok (true, set_paths (Some (ps ∖ {[new_path]})) self)
          else Raise (KeyError new_path)
      end
    else Ok (true, self)
  else
    m ← _path_matches self old_path;
    Ok (m, self).

(** [for change in changes: if self._change_matches(change): return True] *)
Fixpoint any_change_matches (self : t) (changes : list TreeChange) :
    result (bool * t) :=
  match changes with
  | [] => Ok (false, self)
  | change :: changes' =>
      '(m, self) ← _change_matches self change;
      if m : bool then Ok (true, self) else any_change_matches self changes'
  end.

Fixpoint any_path_changes_match (self : t)
    (changes : list (list TreeChange)) : result (bool * t) :=
  match changes with
  | [] => Ok (false, self)
  | path_changes :: changes' =>
      '(m, self) ← any_change_matches self path_changes;
      if m : bool then Ok (true, self)
      else any_path_changes_match self changes'
  end.

(** The source returns [True], [False] or [None]; the caller only tests
    the truth of the value, [None] is [false] here.  The entry comes back
    with its cache filled when its changes were consulted. *)
Definition _should_return (self : t) (entry : WalkEntry.t) :
    result (bool * WalkEntry.t * t) :=
  let commit := WalkEntry.commit entry in
  if match since self with
     | Some since => commit_time commit <? since
     | None => false
     end
  then Ok (false, entry, self)
  else if match until self with
          | Some until => commit_time commit >? until
          | None => false
          end
  then Ok (false, entry, self)
  else
    match paths self with
    | None => Ok (true, entry, self)
    | Some _ =>
        '(changes, entry) ← WalkEntry.changes entry;
        if (1 <? length (parents commit))%nat then
          match changes with
          | Nested changes =>
              '(m, self) ← any_path_changes_match self changes;
              Ok (m, entry, self)
          | Flat _ => Raise AttributeError
          end
        else
          match changes with
          | Flat changes =>
              '(m, self) ← any_change_matches self changes;
              Ok (m, entry, self)
          | Nested _ => Raise AttributeError
          end
    end.

Fixpoint _next (fuel : nat) (self : t) : result (option WalkEntry.t * t) :=
  match fuel with
  | O => Diverge
  | S fuel' =>
      if match max_entries self with
         | Some max_entries => _num_entries self >=? max_entries
         | None => false
         end
      then Ok (None, self)
      else
        '(entry, queue) ← _CommitTimeQueue.next fuel (_queue self);
        let self := set_queue queue self in
        match entry with
        | None => Ok (None, self)
        | Some entry =>
            '(accept, entry, self) ← _should_return self entry;
            if accept : bool
            then Ok (Some entry, set_num_entries (_num_entries self + 1) self)
            else _next fuel' self
        end
  end.

(** [iter(self._next, None)]: the entries it yields before it stops, and
    how it stops. *)
Fixpoint iter_next (fuel : nat) (self : t) : list WalkEntry.t * result t :=
  match fuel with
  | O => ([], Diverge)
  | S fuel' =>
      match _next fuel self with
      | Ok (Some entry, self) =>
          let '(entries, r) := iter_next fuel' self in (entry :: entries, r)
      | Ok (None, self) => ([], Ok self)
      | Raise e => ([], Raise e)
      | Diverge => ([], Diverge)
      end
  end.

(** What a consumer that drains the iterator receives, and how the
    iteration ends.  [reversed(list(results))] runs [results] to its end
    first: if that raises, nothing has been handed out. *)
Definition __iter__ (fuel : nat) (self : t) : list WalkEntry.t * result t :=
  let results := iter_next fuel self in
  if reverse self then
    match results with
    | (entries, Ok self) => (rev entries, Ok self)
    | (_, Raise e) => ([], Raise e)
    | (_, Diverge) => ([], Diverge)
    end
  else results.
End Walker.
End Walker.

(** ** A small repository to run the walker on

    A toy diff engine: a tree holds a single file and the tree identifier is
    that file's path.  With a rename detector a changed path is reported as
    a rename, without one as a delete and an add.  Commits are ordered by
    identifier when their times tie.

    The graph is a diamond with a side branch:
    [d] merges [b] and [c], both children of the root [a]; [x] is a child of
    [b]; [m] names the parent [gone], which the store does not have. *)

Module Fixture.
Definition entry_at (p : string) : TreeEntry :=
  {| path := Some p; mode := Some 33188; sha := Some p |}.
Definition no_entry : TreeEntry :=
  {| path := None; mode := None; sha := None |}.

#[global] Instance diff_engine : DiffEngine := {|
  RenameDetector := unit;
  RenameDetector_new := λ _, tt;
  tree_changes := λ _ old_tree new_tree rename_detector,
    match old_tree with
    | None =>
        [ {| type := CHANGE_ADD; old := no_entry; new := entry_at new_tree |} ]
    | Some old_tree =>
        if decide (old_tree = new_tree) then []
        else
          match rename_detector with
          | Some _ =>
              [ {| type := CHANGE_RENAME; old := entry_at old_tree;
                   new := entry_at new_tree |} ]
          | None =>
              [ {| type := CHANGE_DELETE; old := entry_at old_tree;
                   new := no_entry |};
                {| type := CHANGE_ADD; old := no_entry;
                   new := entry_at new_tree |} ]
          end
    end;
|}.

#[global] Instance commit_order : CommitOrder :=
  λ c1 c2, String.ltb (id c1) (id c2).

Definition mk (k : string) (ps : list string) (t : string) (time : Z) :
    Commit :=
  {| id := k; parents := ps; tree := t; commit_time := time |}.

Definition a := mk "a" [] "old.txt" 10.
Definition b := mk "b" ["a"] "old.txt" 20.
Definition c := mk "c" ["a"] "new.txt" 30.
Definition d := mk "d" ["b"; "c"] "new.txt" 40.
Definition x := mk "x" ["b"] "dir/file.txt" 50.
Definition m := mk "m" ["a"; "gone"] "old.txt" 60.

Definition repo : Store :=
  <["a" := a]> (<["b" := b]> (<["c" := c]> (<["d" := d]> (<["x" := x]>
    (<["m" := m]> ∅))))).

(** Rounds enough for any walk over [repo]. *)
Definition fuel : nat := S (size repo).

(** A linear history: [A] is the root, [D] the tip. *)
Definition chain : Store :=
  <["A" := mk "A" [] "f" 40]> (<["B" := mk "B" ["A"] "f" 30]>
    (<["C" := mk "C" ["B"] "f" 20]> (<["D" := mk "D" ["C"] "f" 10]> ∅))).

(** The walker a construction returns; [blank] stands in when it raises. *)
Definition blank : Walker.t :=
  {| Walker.store := ∅; Walker.include := []; Walker.order := ORDER_DATE;
     Walker.reverse := false; Walker.max_entries := None;
     Walker.paths := None; Walker.rename_detector := None;
     Walker.follow := false; Walker.since := None; Walker.until := None;
     Walker._num_entries := 0;
     Walker._queue :=
       {| _CommitTimeQueue._store := ∅;
          _CommitTimeQueue._rename_detector := None;
          _CommitTimeQueue._excluded := ∅; _CommitTimeQueue._pq := [];
          _CommitTimeQueue._pq_set := ∅; _CommitTimeQueue._done := ∅;
          _CommitTimeQueue._min_time := None;
          _CommitTimeQueue._extra_commits_left := _MAX_EXTRA_COMMITS |} |}.

Definition built (r : result Walker.t) : Walker.t :=
  match r with
  | Ok w => w
  | _ => blank
  end.
End Fixture.

(** * Vocabulary of the properties *)

Section QueueVocabulary.
Context `{DiffEngine} `{CommitOrder}.
Import _CommitTimeQueue.

(** The identifiers of the commits on the heap. *)
Definition heap_ids (pq : list (Z * Commit)) : list string :=
  (λ x, id x.2) <$> pq.

(** The frontier is consistent: no identifier is on the heap twice,
    [_pq_set] is the set of identifiers on the heap, every commit on the
    heap is the store's commit of that identifier, and nothing on the heap
    is done. *)
Record qinv (q : t) : Prop := {
  qinv_nodup : NoDup (heap_ids (_pq q));
  qinv_pq_set : ∀ k, k ∈ heap_ids (_pq q) ↔ k ∈ _pq_set q;
  qinv_store : ∀ x, x ∈ _pq q → _store q !! id x.2 = Some x.2;
  qinv_done : _pq_set q ## _done q;
}.

(** The commits of the store not yet done: it bounds the rounds left. *)
Definition remaining (q : t) : nat := size (dom (_store q) ∖ _done q).

(** The state of the queue a round ends in. *)
Definition flow_state (f : flow) : t :=
  match f with
  | Continue q | Break q | Return _ q => q
  end.

(** The round left the loop by [break]. *)
Definition is_break (f : flow) : bool :=
  match f with
  | Break _ => true
  | _ => false
  end.

(** One round of the loop of [next]: the commit popped and how the body
    ends; [None] when the heap is empty. *)
Definition round (q : t) : option (Commit * result flow) :=
  match heapq.heappop (_pq q) with
  | None => None
  | Some ((_, commit), pq') => Some (commit, next_body (set_pq pq' q) commit)
  end.

(** [rounds q cs q']: from [q] the loop pops the commits [cs], in this
    order, without stopping, and is then in [q']. *)
Inductive rounds (q : t) : list Commit → t → Prop :=
  | rounds_nil : rounds q [] q
  | rounds_snoc cs q1 c f :
      rounds q cs q1 →
      round q1 = Some (c, Ok f) →
      is_break f = false →
      rounds q (cs ++ [c]) (flow_state f).

(** The first [n] rounds of the loop from [q], as long as it goes on: the
    commits popped and the state reached. *)
Fixpoint run_rounds (n : nat) (q : t) : list Commit * t :=
  match n with
  | O => ([], q)
  | S n' =>
      match round q with
      | Some (c, Ok f) =>
          if is_break f then ([], q)
          else let '(cs, q') := run_rounds n' (flow_state f) in (c :: cs, q')
      | _ => ([], q)
      end
  end.

(** The number of commits at the start of [cs] that are all older than
    [min_time]. *)
Fixpoint leading_older (min_time : Z) (cs : list Commit) : nat :=
  match cs with
  | [] => 0
  | c :: cs' =>
      if commit_time c <? min_time then S (leading_older min_time cs') else 0
  end.

(** The number of commits at the end of [cs] that are all older than
    [min_time]: how far the walk has run past the boundary. *)
Definition overrun (min_time : Z) (cs : list Commit) : nat :=
  leading_older min_time (rev cs).

(** [clean store include exclude k]: [k] is reached from an include seed
    along parent edges without meeting an exclude seed, [k] included. *)
Inductive clean (store : Store) (include : list string)
    (exclude : gset string) : string → Prop :=
  | clean_seed k :
      k ∈ include → k ∉ exclude → clean store include exclude k
  | clean_parent p c k :
      clean store include exclude p →
      store !! p = Some c →
      k ∈ parents c → k ∉ exclude →
      clean store include exclude k.

(** What [_push] leaves alone. *)
Definition same_frame (q q' : t) : Prop :=
  _store q' = _store q ∧ _rename_detector q' = _rename_detector q ∧
  _excluded q' = _excluded q ∧ _done q' = _done q ∧
  _min_time q' = _min_time q ∧
  _extra_commits_left q' = _extra_commits_left q.

(** The state of the queue when the body has dealt with the popped commit
    and is about to enqueue its parents, and whether the body stops the
    walk there. *)
Definition visited (q : t) (c : Commit) : t * bool :=
  let is_excluded := bool_decide (id c ∈ _excluded q) in
  let '(extra, stop) :=
    match _min_time q with
    | Some min_time =>
        if commit_time c <? min_time
        then (_extra_commits_left q - 1,
              bool_decide (_extra_commits_left q - 1 = 0))
        else (_MAX_EXTRA_COMMITS, false)
    | None => (_extra_commits_left q, false)
    end in
  ({| _store := _store q; _rename_detector := _rename_detector q;
      _excluded := if is_excluded
                   then _excluded q ∪ list_to_set (parents c)
                   else _excluded q;
      _pq := _pq q; _pq_set := _pq_set q ∖ {[id c]};
      _done := {[id c]} ∪ _done q; _min_time := _min_time q;
      _extra_commits_left := extra |}, stop).

(** What the walk maintains about exclusion: the exclude seeds stay
    excluded, and an identifier that is enqueued and not excluded is
    [clean]. *)
Definition cinv (store : Store) (include : list string) (exclude : gset string)
    (q : t) : Prop :=
  store_wf store ∧ qinv q ∧ _store q = store ∧ exclude ⊆ _excluded q ∧
  ∀ k, k ∈ _pq_set q → k ∉ _excluded q → clean store include exclude k.
End QueueVocabulary.

Section WalkerVocabulary.
Context `{DiffEngine} `{CommitOrder}.
Import Walker.

(** [Walker._next] stops before it pulls: the cap is reached. *)
Definition capped (self : t) : bool :=
  match max_entries self with
  | Some max_entries => _num_entries self >=? max_entries
  | None => false
  end.

(** The identifiers of the commits of a sequence of entries. *)
Definition entry_ids (entries : list WalkEntry.t) : list string :=
  (λ e, id (WalkEntry.commit e)) <$> entries.

(** The walker's queue is consistent over a content-addressed store. *)
Definition winv (w : t) : Prop :=
  store_wf (_CommitTimeQueue._store (_queue w)) ∧ qinv (_queue w).

(** The walker with another [max_entries]. *)
Definition set_max_entries (v : option Z) (self : t) : t :=
  {| store := store self; include := include self; order := order self;
     reverse := reverse self; max_entries := v; paths := paths self;
     rename_detector := rename_detector self; follow := follow self;
     since := since self; until := until self;
     _num_entries := _num_entries self; _queue := _queue self |}.

(** The walker with another [reverse] flag. *)
Definition set_reverse (v : bool) (self : t) : t :=
  {| store := store self; include := include self; order := order self;
     reverse := v; max_entries := max_entries self; paths := paths self;
     rename_detector := rename_detector self; follow := follow self;
     since := since self; until := until self;
     _num_entries := _num_entries self; _queue := _queue self |}.

(** [p] is the followed path [f], or lies below it: [f], a [/], and more. *)
Definition path_under (f p : string) : Prop :=
  p = f ∨ ∃ rest, p = f +:+ "/" +:+ rest.

(** A side of a change matches when it has a path and that path is, or lies
    below, a followed path. *)
Definition side_matches (ps : gset (option string)) (p : option string) :
    Prop :=
  ∃ p' f, p = Some p' ∧ Some f ∈ ps ∧ path_under f p'.

(** The commit is within the walker's time bounds. *)
Definition within_bounds (w : Walker.t) (c : Commit) : Prop :=
  (∀ since, Walker.since w = Some since → since ≤ commit_time c) ∧
  (∀ until, Walker.until w = Some until → commit_time c ≤ until).
End WalkerVocabulary.

Section EntryVocabulary.
Context `{DiffEngine}.
Import WalkEntry.

(** The entry with its cache filled. *)
Definition cached (self : t) (ch : Changes) : t :=
  {| commit := commit self; _store := _store self; _changes := Some ch;
     _rename_detector := _rename_detector self |}.
End EntryVocabulary.

(** ** More vocabulary: entries, errors, order and reach *)

Section MoreWalkerVocabulary.
Context `{DiffEngine} `{CommitOrder}.

(** An entry as the queue returns it for a commit of [store]: fresh, with
    the walker's store and rename detector, all parents of the commit in
    the store. *)
Definition queue_entry (store : Store) (rd : option RenameDetector)
    (e : WalkEntry.t) : Prop :=
  e = WalkEntry.__init__ store rd (WalkEntry.commit e) ∧
  store !! id (WalkEntry.commit e) = Some (WalkEntry.commit e) ∧
  ∀ p, p ∈ parents (WalkEntry.commit e) → is_Some (store !! p).

(** A change hits the followed paths [ps]: its new side or its old side
    matches. *)
Definition change_hits (ps : gset (option string)) (c : TreeChange) : Prop :=
  side_matches ps (path (new c)) ∨ side_matches ps (path (old c)).

(** The change records of [changes], whatever their grouping. *)
Definition all_changes (ch : Changes) : list TreeChange :=
  match ch with
  | Flat l => l
  | Nested ll => concat ll
  end.

(** The error of a walk that meets a parent the store does not have. *)
Definition dangling (store : Store) (x : exn) : Prop :=
  ∃ k c p, store !! k = Some c ∧ p ∈ parents c ∧ store !! p = None ∧
           x = MissingCommitError p.

(** Every parent named by a commit of the store is in the store. *)
Definition closed (store : Store) : Prop :=
  ∀ k c p, store !! k = Some c → p ∈ parents c → is_Some (store !! p).

(** The walker's queue is consistent, over the content-addressed [store],
    and wraps commits with the rename detector [rd]. *)
Definition wframe (store : Store) (rd : option RenameDetector)
    (w : Walker.t) : Prop :=
  store_wf store ∧ qinv (Walker._queue w) ∧
  _CommitTimeQueue._store (Walker._queue w) = store ∧
  _CommitTimeQueue._rename_detector (Walker._queue w) = rd.

(** The entry is of a commit of [store], refers to [store] and [rd], and
    all parents of its commit are in [store]. *)
Definition store_entry (store : Store) (rd : option RenameDetector)
    (e : WalkEntry.t) : Prop :=
  store !! id (WalkEntry.commit e) = Some (WalkEntry.commit e) ∧
  WalkEntry._store e = store ∧ WalkEntry._rename_detector e = rd ∧
  ∀ p, p ∈ parents (WalkEntry.commit e) → is_Some (store !! p).

(** The heap is in order: ascending keys, and the key of a commit is its
    negated commit time. *)
Definition hinv (q : _CommitTimeQueue.t) : Prop :=
  StronglySorted (λ a b : Z * Commit, a.1 ≤ b.1) (_CommitTimeQueue._pq q) ∧
  ∀ x, x ∈ _CommitTimeQueue._pq q → x.1 = - commit_time x.2.

(** No commit on the heap is more recent than [bound]. *)
Definition hbound (q : _CommitTimeQueue.t) (bound : Z) : Prop :=
  ∀ x, x ∈ _CommitTimeQueue._pq q → commit_time x.2 ≤ bound.

(** No commit of the store is older than one of its parents. *)
Definition monotone (store : Store) : Prop :=
  ∀ k c p pc,
    store !! k = Some c → p ∈ parents c → store !! p = Some pc →
    commit_time pc ≤ commit_time c.

(** Entries in order of commit time, most recent first. *)
Definition newest_first (entries : list WalkEntry.t) : Prop :=
  StronglySorted
    (λ e1 e2, commit_time (WalkEntry.commit e2)
              ≤ commit_time (WalkEntry.commit e1)) entries.

(** The queue over the content-addressed [store], frontier consistent and
    heap in order. *)
Definition oinv (store : Store) (q : _CommitTimeQueue.t) : Prop :=
  store_wf store ∧ qinv q ∧ hinv q ∧ _CommitTimeQueue._store q = store.

(** The queue of a walk without exclusions and without a lower time bound:
    every include seed is enqueued or done, and so is every parent of a
    done commit. *)
Definition kinv (store : Store) (include : list string)
    (q : _CommitTimeQueue.t) : Prop :=
  store_wf store ∧ qinv q ∧ _CommitTimeQueue._store q = store ∧
  _CommitTimeQueue._excluded q = ∅ ∧ _CommitTimeQueue._min_time q = None ∧
  (∀ k, k ∈ include →
        k ∈ _CommitTimeQueue._pq_set q ∪ _CommitTimeQueue._done q) ∧
  (∀ k c p, k ∈ _CommitTimeQueue._done q → store !! k = Some c →
            p ∈ parents c →
            p ∈ _CommitTimeQueue._pq_set q ∪ _CommitTimeQueue._done q).

(** The walker accepts every entry and has no cap. *)
Definition unfiltered (w : Walker.t) : Prop :=
  Walker.max_entries w = None ∧ Walker.paths w = None ∧
  Walker.since w = None ∧ Walker.until w = None.

(** Why a walk is over: the cap is reached, the frontier is empty, or the
    counter of commits past the lower time bound is at zero. *)
Definition stopped (w : Walker.t) : Prop :=
  capped w = true ∨ _CommitTimeQueue._pq (Walker._queue w) = [] ∨
  (is_Some (_CommitTimeQueue._min_time (Walker._queue w)) ∧
   _CommitTimeQueue._extra_commits_left (Walker._queue w) = 0).

(** Two walkers with the same configuration: all but the followed paths,
    the count of accepted entries and the queue. *)
Definition same_config (w w' : Walker.t) : Prop :=
  Walker.store w' = Walker.store w ∧ Walker.include w' = Walker.include w ∧
  Walker.order w' = Walker.order w ∧ Walker.reverse w' = Walker.reverse w ∧
  Walker.max_entries w' = Walker.max_entries w ∧
  Walker.rename_detector w' = Walker.rename_detector w ∧
  Walker.follow w' = Walker.follow w ∧ Walker.since w' = Walker.since w ∧
  Walker.until w' = Walker.until w.
End MoreWalkerVocabulary.

(** Seven commits without parents, [r7] the newest. *)
Module Roots.
Definition store : Store :=
  <["r1" := Fixture.mk "r1" [] "f" 1]> (<["r2" := Fixture.mk "r2" [] "f" 2]>
    (<["r3" := Fixture.mk "r3" [] "f" 3]> (<["r4" := Fixture.mk "r4" [] "f" 4]>
      (<["r5" := Fixture.mk "r5" [] "f" 5]>
        (<["r6" := Fixture.mk "r6" [] "f" 6]>
          (<["r7" := Fixture.mk "r7" [] "f" 7]> ∅)))))).
Definition include : list string :=
  ["r1"; "r2"; "r3"; "r4"; "r5"; "r6"; "r7"].
End Roots.

(** ** Vocabulary of the loops: what one call goes through *)

Section LoopVocabulary.
Context `{DiffEngine} `{CommitOrder}.

(** [continues q cs q']: inside one call of [next], from [q] the loop pops
    the commits [cs], every round ending in [continue] (the commit was
    excluded), and is then in [q']. *)
Inductive continues :
    _CommitTimeQueue.t → list Commit → _CommitTimeQueue.t → Prop :=
  | continues_nil q : continues q [] q
  | continues_cons q c q1 cs q2 :
      round q = Some (c, Ok (_CommitTimeQueue.Continue q1)) →
      continues q1 cs q2 →
      continues q (c :: cs) q2.

(** One pull of [Walker._next] that the filter rejects: the cap is not
    reached, the queue returns an entry, [_should_return] says no. *)
Definition rejected (w w' : Walker.t) : Prop :=
  capped w = false ∧
  ∃ n e q e',
    _CommitTimeQueue.next n (Walker._queue w) = Ok (Some e, q) ∧
    Walker._should_return (Walker.set_queue q w) e = Ok (false, e', w').

(** A pull of [Walker._next] that fails with [x]: the queue raises it, or
    the filter does on the entry the queue returned. *)
Definition pull_raises (w : Walker.t) (x : exn) : Prop :=
  capped w = false ∧
  ((∃ n, _CommitTimeQueue.next n (Walker._queue w) = Raise x) ∨
   (∃ n e q,
      _CommitTimeQueue.next n (Walker._queue w) = Ok (Some e, q) ∧
      Walker._should_return (Walker.set_queue q w) e = Raise x)).

(** [yields w es w']: from [w] the calls of [Walker._next] return the
    entries [es], in this order, and the walker is then in [w']. *)
Inductive yields : Walker.t → list WalkEntry.t → Walker.t → Prop :=
  | yields_nil w : yields w [] w
  | yields_cons w n e w1 es w2 :
      Walker._next n w = Ok (Some e, w1) →
      yields w1 es w2 →
      yields w (e :: es) w2.

(** The entries that pass the acceptance filter, whatever the cap: every
    entry the queue returns is put to [_should_return], the accepted ones are
    kept.  Neither [max_entries] nor [_num_entries] is read. *)
Fixpoint passing (fuel : nat) (w : Walker.t) :
    list WalkEntry.t * result Walker.t :=
  match fuel with
  | O => ([], Diverge)
  | S fuel' =>
      match _CommitTimeQueue.next fuel (Walker._queue w) with
      | Ok (None, q) => ([], Ok (Walker.set_queue q w))
      | Ok (Some e, q) =>
          match Walker._should_return (Walker.set_queue q w) e with
          | Ok (true, e', w') =>
              let '(es, r) := passing fuel' w' in (e' :: es, r)
          | Ok (false, _, w') => passing fuel' w'
          | Raise x => ([], Raise x)
          | Diverge => ([], Diverge)
          end
      | Raise x => ([], Raise x)
      | Diverge => ([], Diverge)
      end
  end.

(** Two outcomes of a loop agree: both return, or both raise the same
    error. *)
Definition same_outcome {A B} (r : result A) (r' : result B) : Prop :=
  match r, r' with
  | Ok _, Ok _ => True
  | Raise x, Raise x' => x = x'
  | _, _ => False
  end.
End LoopVocabulary.

(** A store with a dangling parent below a newer commit: [y] has no
    parents, [m2] names the parent [gone], which the store does not
    have. *)
Module Dangling.
Definition y : Commit := Fixture.mk "y" [] "f" 70.
Definition m2 : Commit := Fixture.mk "m2" ["gone"] "f" 60.
Definition store : Store := <["y" := y]> (<["m2" := m2]> ∅).

(** The state of the queue after its next round, when that round returns
    normally. *)
Definition after_round (q : _CommitTimeQueue.t) : _CommitTimeQueue.t :=
  match round q with
  | Some (_, Ok f) => flow_state f
  | _ => q
  end.
End Dangling.

(** A chain of fourteen commits whose times straddle 10 in turn: [k14] is
    the tip, [k01] the root; the commits with an even number have time 5,
    the others time 20. *)
Module Zigzag.
Definition commits : list Commit :=
  [ Fixture.mk "k01" [] "f" 20;      Fixture.mk "k02" ["k01"] "f" 5;
    Fixture.mk "k03" ["k02"] "f" 20; Fixture.mk "k04" ["k03"] "f" 5;
    Fixture.mk "k05" ["k04"] "f" 20; Fixture.mk "k06" ["k05"] "f" 5;
    Fixture.mk "k07" ["k06"] "f" 20; Fixture.mk "k08" ["k07"] "f" 5;
    Fixture.mk "k09" ["k08"] "f" 20; Fixture.mk "k10" ["k09"] "f" 5;
    Fixture.mk "k11" ["k10"] "f" 20; Fixture.mk "k12" ["k11"] "f" 5;
    Fixture.mk "k13" ["k12"] "f" 20; Fixture.mk "k14" ["k13"] "f" 5 ].
Definition store : Store := list_to_map ((λ c, (id c, c)) <$> commits).
End Zigzag.

(** * Proofs *)

Lemma bind_inv_Ok {A B} (f : A → result B) m b :
  m ≫= f = Ok b → ∃ a, m = Ok a ∧ f a = Ok b.
Proof. destruct m; simpl; [eauto | done | done]. Qed.

Lemma bind_inv_Raise {A B} (f : A → result B) m e :
  m ≫= f = Raise e → m = Raise e ∨ ∃ a, m = Ok a ∧ f a = Raise e.
Proof. destruct m; simpl; [eauto | intros [= ->]; eauto | done]. Qed.

Lemma bind_inv_Diverge {A B} (f : A → result B) m :
  m ≫= f = Diverge → m = Diverge ∨ ∃ a, m = Ok a ∧ f a = Diverge.
Proof. destruct m; simpl; [eauto | done | eauto]. Qed.

Section QueueFacts.
Context `{DiffEngine} `{CommitOrder}.
Import _CommitTimeQueue.

Lemma heappush_perm heap item : heapq.heappush heap item ≡ₚ item :: heap.
Proof.
  induction heap as [|x heap IH]; simpl; [done|].
  destruct (heapq.item_lt item x); [done|].
  rewrite IH. apply Permutation_swap.
Qed.

Lemma heap_ids_heappush heap item :
  heap_ids (heapq.heappush heap item) ≡ₚ id item.2 :: heap_ids heap.
Proof. unfold heap_ids. by rewrite heappush_perm. Qed.

(** *** [_push] *)

Lemma push_inv q k q' :
  _push q k = Ok q' →
  ∃ c, _store q !! k = Some c ∧
    ((k ∈ _pq_set q ∪ _done q ∧ q' = q) ∨
     ((k ∉ _pq_set q) ∧ (k ∉ _done q) ∧
      q' = set_pq_set ({[k]} ∪ _pq_set q)
             (set_pq (heapq.heappush (_pq q) (- commit_time c, c)) q))).
Proof.
  unfold _push. destruct (_store q !! k) as [c|]; [|done].
  intros Hq. exists c. split; [done|].
  case_decide as Hk; simplify_eq.
  - right. naive_solver.
  - left. split; [|done].
    apply not_and_l in Hk as [Hk|Hk]; apply dec_stable in Hk; set_solver.
Qed.

Lemma push_missing q k :
  _store q !! k = None → _push q k = Raise (MissingCommitError k).
Proof. unfold _push. by intros ->. Qed.

Lemma push_not_Diverge q k : _push q k ≠ Diverge.
Proof.
  unfold _push. destruct (_store q !! k); [|done]. by case_decide.
Qed.

Lemma push_Raise q k e :
  _push q k = Raise e → e = MissingCommitError k ∧ _store q !! k = None.
Proof.
  unfold _push. destruct (_store q !! k); [by case_decide|].
  by intros [= <-].
Qed.


Lemma same_frame_refl q : same_frame q q.
Proof. by repeat split. Qed.

Lemma same_frame_trans q1 q2 q3 :
  same_frame q1 q2 → same_frame q2 q3 → same_frame q1 q3.
Proof.
  unfold same_frame. intros (?&?&?&?&?&?) (?&?&?&?&?&?).
  repeat split; congruence.
Qed.

Lemma push_frame q k q' : _push q k = Ok q' → same_frame q q'.
Proof.
  intros (c & _ & [[_ ->]|(_ & _ & ->)])%push_inv;
    [apply same_frame_refl | by repeat split].
Qed.

Lemma push_pq_set q k q' :
  _push q k = Ok q' →
  k ∈ dom (_store q) ∧
  (k ∈ _pq_set q' ∪ _done q') ∧ _pq_set q ⊆ _pq_set q' ∧
  _pq_set q' ⊆ {[k]} ∪ _pq_set q.
Proof.
  intros (c & Hc & [[? ->]|(? & ? & ->)])%push_inv; simpl;
    (split; [apply elem_of_dom; eauto|]); set_solver.
Qed.

Lemma push_qinv q k q' :
  store_wf (_store q) → qinv q → _push q k = Ok q' → qinv q'.
Proof.
  intros Hwf [Hnd Hset Hst Hdone]
    (c & Hc & [[_ ->]|(Hk1 & Hk2 & ->)])%push_inv; [done|].
  assert (id c = k) as Hid by (by apply (Hwf k c)).
  split; simpl.
  - rewrite heap_ids_heappush. simpl. rewrite Hid.
    apply NoDup_cons. split; [by rewrite Hset | done].
  - intros k'. rewrite heap_ids_heappush. simpl. rewrite Hid.
    rewrite elem_of_cons, Hset. set_solver.
  - intros x. rewrite heappush_perm, elem_of_cons.
    intros [->|Hx]; simpl; [by rewrite Hid | by apply Hst].
  - set_solver.
Qed.
End QueueFacts.

Section QueueLoop.
Context `{DiffEngine} `{CommitOrder}.
Import _CommitTimeQueue.

(** *** [push_each] *)

Lemma push_each_frame q ids q' : push_each q ids = Ok q' → same_frame q q'.
Proof.
  revert q. induction ids as [|k ids IH]; simpl; intros q.
  - intros [= ->]. apply same_frame_refl.
  - intros (q1 & Hq1 & Hq')%bind_inv_Ok.
    eapply same_frame_trans; [by eapply push_frame | by apply IH].
Qed.

Lemma push_each_pq_set q ids q' :
  push_each q ids = Ok q' →
  (∀ k, k ∈ ids → k ∈ dom (_store q) ∧ k ∈ _pq_set q' ∪ _done q') ∧
  _pq_set q ⊆ _pq_set q' ∧
  _pq_set q' ⊆ list_to_set ids ∪ _pq_set q.
Proof.
  revert q. induction ids as [|k ids IH]; simpl; intros q.
  - intros [= ->]. split; [by intros k ?%elem_of_nil | set_solver].
  - intros (q1 & Hq1 & Hq')%bind_inv_Ok.
    destruct (push_frame _ _ _ Hq1) as (Hst & _).
    destruct (push_pq_set _ _ _ Hq1) as (Hk & Hk' & Hsub & Hsup).
    destruct (IH _ Hq') as (Hall & Hsub' & Hsup').
    destruct (push_each_frame _ _ _ Hq') as (_ & _ & _ & Hd & _).
    split; [|clear -Hsub Hsup Hsub' Hsup'; set_solver].
    intros k' [->|Hk'']%elem_of_cons.
    + split; [done|]. rewrite Hd. clear -Hk' Hsub'. set_solver.
    + rewrite <-Hst. by apply Hall.
Qed.

Lemma push_each_qinv q ids q' :
  store_wf (_store q) → qinv q → push_each q ids = Ok q' → qinv q'.
Proof.
  revert q. induction ids as [|k ids IH]; simpl; intros q Hwf Hq.
  - by intros [= <-].
  - intros (q1 & Hq1 & Hq')%bind_inv_Ok.
    apply (IH q1); [|by eapply push_qinv|done].
    by destruct (push_frame _ _ _ Hq1) as (-> & _).
Qed.

Lemma push_each_not_Diverge q ids : push_each q ids ≠ Diverge.
Proof.
  revert q. induction ids as [|k ids IH]; simpl; intros q; [done|].
  intros [Hd|(q1 & _ & Hd)]%bind_inv_Diverge;
    [by apply push_not_Diverge in Hd | by apply IH in Hd].
Qed.

(** The first identifier the store does not have is the one reported. *)
Lemma push_each_missing q present k rest :
  (∀ k', k' ∈ present → is_Some (_store q !! k')) →
  _store q !! k = None →
  push_each q (present ++ k :: rest) = Raise (MissingCommitError k).
Proof.
  revert q. induction present as [|k' present IH]; simpl; intros q Hall Hk.
  - by rewrite push_missing.
  - destruct (_push q k') as [q1| |] eqn:Hq1; simpl.
    + destruct (push_frame _ _ _ Hq1) as (Hst & _).
      apply IH; rewrite Hst; [|done].
      intros k'' Hk''. apply Hall. set_solver.
    + apply push_Raise in Hq1 as [_ Hq1].
      destruct (Hall k') as [c Hc]; [set_solver|congruence].
    + by apply push_not_Diverge in Hq1.
Qed.

Lemma push_each_Raise q ids e :
  push_each q ids = Raise e →
  ∃ k, e = MissingCommitError k ∧ k ∈ ids ∧ _store q !! k = None.
Proof.
  revert q. induction ids as [|k ids IH]; simpl; intros q; [done|].
  intros [Hq1|(q1 & Hq1 & Hr)]%bind_inv_Raise.
  - apply push_Raise in Hq1 as [-> Hk]. exists k. set_solver.
  - destruct (push_frame _ _ _ Hq1) as (Hst & _).
    destruct (IH _ Hr) as (k' & -> & Hk' & Hnone).
    exists k'. rewrite <-Hst. set_solver.
Qed.

Lemma push_each_Ok q ids :
  (∀ k, k ∈ ids → is_Some (_store q !! k)) →
  ∃ q', push_each q ids = Ok q'.
Proof.
  intros Hall. destruct (push_each q ids) as [q'|e|] eqn:Hp; [by eauto| |].
  - apply push_each_Raise in Hp as (k & _ & Hk & Hnone).
    destruct (Hall k Hk) as [c Hc]. congruence.
  - by apply push_each_not_Diverge in Hp.
Qed.

(** *** The body of [next] *)


Lemma next_body_eq q c :
  id c ∈ _pq_set q → id c ∉ _done q →
  next_body q c =
    if (visited q c).2 then Ok (Break (visited q c).1)
    else
      q' ← push_each (visited q c).1 (parents c);
      if bool_decide (id c ∈ _excluded q) then Ok (Continue q')
      else Ok (Return (WalkEntry.__init__ (_store q') (_rename_detector q')
                         c) q').
Proof.
  intros Hin Hdone. unfold next_body, visited.
  rewrite decide_True by done. simpl.
  rewrite decide_False by done.
  destruct q as [st rd ex pq ps dn [T|] left]; simpl;
    destruct (bool_decide (id c ∈ ex)); simpl; try reflexivity;
    destruct (commit_time c <? T); simpl; try reflexivity;
    destruct (bool_decide (left - 1 = 0)); reflexivity.
Qed.

Lemma next_body_done q c :
  id c ∈ _pq_set q → id c ∈ _done q →
  next_body q c = Ok (Continue (set_pq_set (_pq_set q ∖ {[id c]}) q)).
Proof.
  intros Hin Hdone. unfold next_body.
  rewrite decide_True by done. simpl. by rewrite decide_True by done.
Qed.

Lemma next_body_KeyError q c :
  id c ∉ _pq_set q → next_body q c = Raise (KeyError (Some (id c))).
Proof. intros Hin. unfold next_body. by rewrite decide_False by done. Qed.
End QueueLoop.

Section QueueInvariant.
Context `{DiffEngine} `{CommitOrder}.
Import _CommitTimeQueue.

Lemma visited_frame q c :
  _store (visited q c).1 = _store q ∧
  _rename_detector (visited q c).1 = _rename_detector q ∧
  _pq (visited q c).1 = _pq q ∧
  _pq_set (visited q c).1 = _pq_set q ∖ {[id c]} ∧
  _done (visited q c).1 = {[id c]} ∪ _done q ∧
  _min_time (visited q c).1 = _min_time q.
Proof.
  unfold visited. destruct (_min_time q) as [T|];
    [destruct (commit_time c <? T)|]; done.
Qed.

Lemma remaining_visit (store : Store) (done : gset string) k :
  k ∈ dom store → k ∉ done →
  (size (dom store ∖ ({[k]} ∪ done)) < size (dom store ∖ done))%nat.
Proof. intros Hk Hd. apply subset_size. set_solver. Qed.

(** Popping the head of a consistent frontier: the commit is the store's,
    it is not done, and dealing with it restores consistency. *)
Lemma qinv_pop q time c pq' :
  qinv q → _pq q = (time, c) :: pq' →
  id c ∈ _pq_set q ∧ (id c ∉ _done q) ∧ _store q !! id c = Some c ∧
  qinv (visited (set_pq pq' q) c).1 ∧
  (remaining (visited (set_pq pq' q) c).1 < remaining q)%nat.
Proof.
  intros [Hnd Hset Hst Hdone] Hpq. rewrite Hpq in Hnd, Hset, Hst.
  simpl in Hnd, Hset. apply NoDup_cons in Hnd as [Hc Hnd].
  assert (id c ∈ _pq_set q) as Hin by (apply Hset; set_solver).
  assert (_store q !! id c = Some c) as Hlook
    by (apply (Hst (time, c)); set_solver).
  assert (id c ∉ _done q) as Hnot by set_solver.
  destruct (visited_frame (set_pq pq' q) c) as (E1 & _ & E3 & E4 & E5 & _).
  simpl in *. split_and!; try done.
  - constructor.
    + by rewrite E3.
    + rewrite E3, E4. simpl. intros k. specialize (Hset k).
      rewrite elem_of_cons in Hset. set_solver.
    + rewrite E3, E1. simpl. intros x Hx. apply Hst. set_solver.
    + rewrite E4, E5. set_solver.
  - unfold remaining. rewrite E1, E5. simpl.
    apply remaining_visit; [|done]. apply elem_of_dom. eauto.
Qed.

(** [next] on a consistent frontier: it comes back, the frontier stays
    consistent, and every round takes one commit of the store out of the
    ones that remain. *)
Lemma next_spec fuel q :
  store_wf (_store q) → qinv q → (remaining q < fuel)%nat →
  match next fuel q with
  | Ok (oe, q') =>
      qinv q' ∧ _store q' = _store q ∧
      (remaining q' ≤ remaining q)%nat ∧
      (is_Some oe → (remaining q' < remaining q)%nat)
  | Raise e => ∃ k, e = MissingCommitError k ∧ _store q !! k = None
  | Diverge => False
  end.
Proof.
  revert q. induction fuel as [|fuel IH]; intros q Hwf Hq Hfuel; [lia|].
  simpl. destruct (_pq q) as [|[time c] pq'] eqn:Hpq; simpl.
  { split_and!; [done|done|lia|by intros [? ?]]. }
  destruct (qinv_pop q time c pq' Hq Hpq) as (Hin & Hnot & Hlook & Hv & Hrem).
  rewrite next_body_eq by done.
  destruct (visited_frame (set_pq pq' q) c) as (E1 & _). simpl in E1.
  destruct (visited (set_pq pq' q) c) as [q1 stop]. simpl in *.
  destruct stop; simpl.
  { split_and!; [done|done|lia|by intros [? ?]]. }
  destruct (push_each q1 (parents c)) as [q2|e|] eqn:Hp; simpl.
  - assert (qinv q2) as Hq2
      by (eapply push_each_qinv; [by rewrite E1|done|done]).
    destruct (push_each_frame _ _ _ Hp) as (F1 & _ & _ & F4 & _).
    assert (remaining q2 = remaining q1) as Hr
      by (unfold remaining; by rewrite F1, F4).
    destruct (bool_decide (id c ∈ _excluded q)); simpl.
    + specialize (IH q2). rewrite F1, E1 in IH.
      specialize (IH Hwf Hq2). rewrite Hr in IH.
      destruct (next fuel q2) as [[oe q']| |]; [|by apply IH; lia..].
      destruct IH as (? & ? & ? & ?); [lia|].
      split_and!; [done|congruence|lia|lia].
    + split_and!; [done|congruence|lia|lia].
  - apply push_each_Raise in Hp as (k & -> & _ & Hk).
    exists k. by rewrite <-E1.
  - by apply push_each_not_Diverge in Hp.
Qed.

(** *** What [next] does to [_done], on any queue *)

Lemma next_done fuel q oe q' :
  next fuel q = Ok (oe, q') →
  _done q ⊆ _done q' ∧
  ∀ e, oe = Some e →
    (id (WalkEntry.commit e) ∉ _done q) ∧
    id (WalkEntry.commit e) ∈ _done q'.
Proof.
  revert q. induction fuel as [|fuel IH]; intros q; [done|].
  simpl. destruct (_pq q) as [|[time c] pq'] eqn:Hpq; simpl.
  { intros [= <- <-]. done. }
  destruct (decide (id c ∈ _pq_set q)) as [Hin|Hin];
    [|by rewrite next_body_KeyError].
  destruct (decide (id c ∈ _done q)) as [Hd|Hd].
  { rewrite next_body_done by done. simpl. intros Hn.
    by apply IH in Hn. }
  rewrite next_body_eq by done.
  destruct (visited_frame (set_pq pq' q) c) as (_ & _ & _ & _ & E5 & _).
  simpl in E5.
  destruct (visited (set_pq pq' q) c) as [q1 stop]. simpl in *.
  destruct stop; simpl.
  { intros [= <- <-]. split; [set_solver|done]. }
  destruct (push_each q1 (parents c)) as [q2|e|] eqn:Hp; simpl; [|done..].
  destruct (push_each_frame _ _ _ Hp) as (_ & _ & _ & F4 & _).
  destruct (bool_decide (id c ∈ _excluded q)); simpl.
  - intros Hn. apply IH in Hn as [Hsub Hn]. split; [set_solver|].
    intros e He. destruct (Hn e He). set_solver.
  - intros [= <- <-]. split; [set_solver|].
    intros e [= <-]. simpl. set_solver.
Qed.
End QueueInvariant.

Section WalkerFrame.
Context `{DiffEngine} `{CommitOrder}.
Import Walker.

(** *** Fields the acceptance filter does not read

    [f] changes the walker in fields that [_should_return] neither reads
    nor writes. *)
Variable f : t → t.
Hypothesis f_paths : ∀ w, paths (f w) = paths w.
Hypothesis f_follow : ∀ w, follow (f w) = follow w.
Hypothesis f_since : ∀ w, since (f w) = since w.
Hypothesis f_until : ∀ w, until (f w) = until w.
Hypothesis f_set_paths : ∀ v w, set_paths v (f w) = f (set_paths v w).

Lemma path_matches_frame w p : _path_matches (f w) p = _path_matches w p.
Proof. unfold _path_matches. by rewrite f_paths. Qed.

Lemma change_matches_frame w c :
  _change_matches (f w) c = (λ '(b, w'), (b, f w')) <$> _change_matches w c.
Proof.
  unfold _change_matches. rewrite !path_matches_frame, f_follow, f_paths.
  destruct (_path_matches w (path (new c))) as [[]| |]; simpl; try done.
  - destruct (follow w && _); [|done].
    destruct (paths w) as [ps|]; [|done].
    case_decide; [|done]. simpl. by rewrite f_set_paths.
  - by destruct (_path_matches w (path (old c))).
Qed.

Lemma any_change_matches_frame w cs :
  any_change_matches (f w) cs =
  (λ '(b, w'), (b, f w')) <$> any_change_matches w cs.
Proof.
  revert w. induction cs as [|c cs IH]; intros w; simpl; [done|].
  rewrite change_matches_frame.
  by destruct (_change_matches w c) as [[[] w']| |]; simpl.
Qed.

Lemma any_path_changes_match_frame w css :
  any_path_changes_match (f w) css =
  (λ '(b, w'), (b, f w')) <$> any_path_changes_match w css.
Proof.
  revert w. induction css as [|cs css IH]; intros w; simpl; [done|].
  rewrite any_change_matches_frame.
  by destruct (any_change_matches w cs) as [[[] w']| |]; simpl.
Qed.

Lemma should_return_frame w e :
  _should_return (f w) e =
  (λ '(b, e', w'), (b, e', f w')) <$> _should_return w e.
Proof.
  unfold _should_return. rewrite f_since, f_until, f_paths.
  destruct (match since w with Some _ => _ | None => _ end); [done|].
  destruct (match until w with Some _ => _ | None => _ end); [done|].
  destruct (paths w) as [ps|]; [|done].
  destruct (WalkEntry.changes e) as [[ch e']| |]; simpl; try done.
  destruct (1 <? _)%nat, ch as [cs|css]; try done.
  - rewrite any_path_changes_match_frame.
    by destruct (any_path_changes_match w css) as [[b w']| |].
  - rewrite any_change_matches_frame.
    by destruct (any_change_matches w cs) as [[b w']| |].
Qed.
End WalkerFrame.

Section WalkerFacts.
Context `{DiffEngine} `{CommitOrder}.
Import Walker.

(** *** The acceptance filter only ever writes [paths] *)

Lemma set_paths_id w : set_paths (paths w) w = w.
Proof. by destruct w. Qed.

Lemma path_matches_loop_not_Diverge p l : path_matches_loop p l ≠ Diverge.
Proof.
  induction l as [|[fp|] l IH]; simpl; [done| |by repeat case_decide].
  case_decide; [done|]. destruct (String.prefix fp p); [|done].
  destruct (String.get _ p); [|done]. by case_decide.
Qed.

Lemma path_matches_not_Diverge w p : _path_matches w p ≠ Diverge.
Proof.
  destruct p as [p|]; simpl; [|done].
  destruct (paths w); [apply path_matches_loop_not_Diverge|done].
Qed.

Lemma change_matches_inv w c :
  match _change_matches w c with
  | Ok (b, w') => ∃ ps, w' = set_paths ps w
  | Raise _ => True
  | Diverge => False
  end.
Proof.
  unfold _change_matches.
  destruct (_path_matches w (path (new c))) as [[]| |] eqn:Hn; simpl;
    [| |done|by apply path_matches_not_Diverge in Hn].
  - destruct (follow w && _).
    + destruct (paths w) as [ps|]; [|done]. case_decide; [eauto|done].
    + exists (paths w). by rewrite set_paths_id.
  - destruct (_path_matches w (path (old c))) as [b| |] eqn:Ho; simpl;
      [|done|by apply path_matches_not_Diverge in Ho].
    exists (paths w). by rewrite set_paths_id.
Qed.

Lemma any_change_matches_inv w cs :
  match any_change_matches w cs with
  | Ok (b, w') => ∃ ps, w' = set_paths ps w
  | Raise _ => True
  | Diverge => False
  end.
Proof.
  revert w. induction cs as [|c cs IH]; intros w; simpl.
  { exists (paths w). by rewrite set_paths_id. }
  pose proof (change_matches_inv w c) as Hc.
  destruct (_change_matches w c) as [[[] w']| |]; simpl; try done.
  destruct Hc as [ps ->]. specialize (IH (set_paths ps w)).
  destruct (any_change_matches _ cs) as [[b w']| |]; [|done..].
  destruct IH as [ps' ->]. by exists ps'.
Qed.

Lemma any_path_changes_match_inv w css :
  match any_path_changes_match w css with
  | Ok (b, w') => ∃ ps, w' = set_paths ps w
  | Raise _ => True
  | Diverge => False
  end.
Proof.
  revert w. induction css as [|cs css IH]; intros w; simpl.
  { exists (paths w). by rewrite set_paths_id. }
  pose proof (any_change_matches_inv w cs) as Hc.
  destruct (any_change_matches w cs) as [[[] w']| |]; simpl; try done.
  destruct Hc as [ps ->]. specialize (IH (set_paths ps w)).
  destruct (any_path_changes_match _ css) as [[b w']| |]; [|done..].
  destruct IH as [ps' ->]. by exists ps'.
Qed.

Lemma parent_trees_not_Diverge store ps :
  WalkEntry.parent_trees store ps ≠ Diverge.
Proof.
  induction ps as [|p ps IH]; simpl; [done|]. unfold getitem.
  destruct (store !! p); simpl; [|done].
  by destruct (WalkEntry.parent_trees store ps).
Qed.

Lemma changes_inv e :
  match WalkEntry.changes e with
  | Ok (ch, e') => WalkEntry.commit e' = WalkEntry.commit e
  | Raise _ => True
  | Diverge => False
  end.
Proof.
  unfold WalkEntry.changes. destruct (WalkEntry._changes e); [done|].
  destruct (parents (WalkEntry.commit e)) as [|p [|p' ps]]; simpl; [done| |].
  - unfold getitem. by destruct (_ !! p).
  - pose proof (parent_trees_not_Diverge (WalkEntry._store e)
                  (p :: p' :: ps)) as Hp.
    simpl in Hp.
    match type of Hp with ?X ≠ _ => by destruct X end.
Qed.

Lemma should_return_inv w e :
  match _should_return w e with
  | Ok (b, e', w') =>
      WalkEntry.commit e' = WalkEntry.commit e ∧ ∃ ps, w' = set_paths ps w
  | Raise _ => True
  | Diverge => False
  end.
Proof.
  assert (∃ ps, w = set_paths ps w) as Hid
    by (exists (paths w); by rewrite set_paths_id).
  unfold _should_return.
  destruct (match since w with Some _ => _ | None => _ end); [done|].
  destruct (match until w with Some _ => _ | None => _ end); [done|].
  destruct (paths w) as [ps|]; [|done].
  pose proof (changes_inv e) as He.
  destruct (WalkEntry.changes e) as [[ch e']| |]; simpl; try done.
  destruct (1 <? _)%nat, ch as [cs|css]; try done.
  - pose proof (any_path_changes_match_inv w css) as Hm.
    by destruct (any_path_changes_match w css) as [[b w']| |].
  - pose proof (any_change_matches_inv w cs) as Hm.
    by destruct (any_change_matches w cs) as [[b w']| |].
Qed.
End WalkerFacts.

Section WalkerLoop.
Context `{DiffEngine} `{CommitOrder}.
Import Walker.


Lemma _next_S fuel w :
  _next (S fuel) w =
    if capped w then Ok (None, w)
    else
      '(entry, queue) ← _CommitTimeQueue.next (S fuel) (_queue w);
      match entry with
      | None => Ok (None, set_queue queue w)
      | Some entry =>
          '(accept, entry, self) ← _should_return (set_queue queue w) entry;
          if accept : bool
          then Ok (Some entry,
                   set_num_entries (_num_entries self + 1) self)
          else _next fuel self
      end.
Proof. reflexivity. Qed.

Lemma iter_next_S fuel w :
  iter_next (S fuel) w =
    match _next (S fuel) w with
    | Ok (Some entry, self) =>
        let '(entries, r) := iter_next fuel self in (entry :: entries, r)
    | Ok (None, self) => ([], Ok self)
    | Raise e => ([], Raise e)
    | Diverge => ([], Diverge)
    end.
Proof. reflexivity. Qed.

(** One pass through the body of [Walker._next] that pulls an entry:
    recorded once, used by all the lemmas on the loop. *)
Lemma _next_cases fuel w :
  capped w = false →
  match _CommitTimeQueue.next (S fuel) (_queue w) with
  | Ok (None, q) => _next (S fuel) w = Ok (None, set_queue q w)
  | Ok (Some e, q) =>
      match _should_return (set_queue q w) e with
      | Ok (true, e', w') =>
          WalkEntry.commit e' = WalkEntry.commit e ∧
          (∃ ps, w' = set_paths ps (set_queue q w)) ∧
          _next (S fuel) w =
            Ok (Some e', set_num_entries (_num_entries w' + 1) w')
      | Ok (false, e', w') =>
          (∃ ps, w' = set_paths ps (set_queue q w)) ∧
          _next (S fuel) w = _next fuel w'
      | Raise x => _next (S fuel) w = Raise x
      | Diverge => False
      end
  | Raise x => _next (S fuel) w = Raise x
  | Diverge => _next (S fuel) w = Diverge
  end.
Proof.
  intros Hcap. rewrite _next_S, Hcap.
  destruct (_CommitTimeQueue.next (S fuel) (_queue w))
    as [[[e|] q]| |]; simpl; try done.
  pose proof (should_return_inv (set_queue q w) e) as Hs.
  destruct (_should_return (set_queue q w) e) as [[[[] e'] w']| |];
    simpl; naive_solver.
Qed.

(** *** Emitted commits are new to [_done] *)

Lemma _next_done fuel w oe w' :
  _next fuel w = Ok (oe, w') →
  _CommitTimeQueue._done (_queue w) ⊆ _CommitTimeQueue._done (_queue w') ∧
  ∀ e, oe = Some e →
    (id (WalkEntry.commit e) ∉ _CommitTimeQueue._done (_queue w)) ∧
    id (WalkEntry.commit e) ∈ _CommitTimeQueue._done (_queue w').
Proof.
  revert w. induction fuel as [|fuel IH]; intros w; [done|].
  destruct (capped w) eqn:Hcap.
  { rewrite _next_S, Hcap. by intros [= <- <-]. }
  pose proof (_next_cases fuel w Hcap) as Hc.
  destruct (_CommitTimeQueue.next (S fuel) (_queue w))
    as [[[e|] q]| |] eqn:Hn; [| |by rewrite Hc..].
  - apply next_done in Hn as [Hsub Hn]. destruct (Hn e eq_refl) as [Hn1 Hn2].
    destruct (_should_return (set_queue q w) e) as [[[[] e'] w1]| |];
      [| |by rewrite Hc|done].
    + destruct Hc as (He & [ps ->] & ->). intros [= <- <-]. simpl.
      split; [done|]. intros ? [= <-]. by rewrite He.
    + destruct Hc as ([ps ->] & ->). intros Hw'.
      apply IH in Hw' as [Hsub' Hw']. simpl in *. split; [set_solver|].
      intros e0 He0. destruct (Hw' e0 He0). set_solver.
  - rewrite Hc. intros [= <- <-]. simpl.
    by apply next_done in Hn as [Hsub _].
Qed.


Lemma iter_next_fresh fuel w :
  NoDup (entry_ids (iter_next fuel w).1) ∧
  ∀ k, k ∈ entry_ids (iter_next fuel w).1 →
       k ∉ _CommitTimeQueue._done (_queue w).
Proof.
  revert w. induction fuel as [|fuel IH]; intros w.
  { simpl. split; [constructor|]. by intros k ?%elem_of_nil. }
  rewrite iter_next_S.
  destruct (_next (S fuel) w) as [[[e|] w']| |] eqn:Hn; simpl;
    try (split; [constructor|]; by intros k ?%elem_of_nil).
  apply _next_done in Hn as [Hsub Hn]. destruct (Hn e eq_refl) as [Hn1 Hn2].
  destruct (IH w') as [IH1 IH2].
  destruct (iter_next fuel w') as [es r]. simpl in *. split.
  - apply NoDup_cons. split; [|done]. intros Hin. by apply IH2 in Hin.
  - intros k [->|Hk]%elem_of_cons; [done|]. apply IH2 in Hk. set_solver.
Qed.
End WalkerLoop.

Section Termination.
Context `{DiffEngine} `{CommitOrder}.
Import Walker.


Lemma _next_spec fuel w :
  winv w → (remaining (_queue w) < fuel)%nat →
  match _next fuel w with
  | Ok (oe, w') =>
      winv w' ∧
      (remaining (_queue w') ≤ remaining (_queue w))%nat ∧
      (is_Some oe → (remaining (_queue w') < remaining (_queue w))%nat)
  | Raise _ => True
  | Diverge => False
  end.
Proof.
  revert w. induction fuel as [|fuel IH]; intros w [Hwf Hq] Hfuel; [lia|].
  destruct (capped w) eqn:Hcap.
  { rewrite _next_S, Hcap. split_and!; [done|lia|by intros [? ?]]. }
  pose proof (_next_cases fuel w Hcap) as Hc.
  pose proof (next_spec (S fuel) (_queue w) Hwf Hq Hfuel) as Hn.
  destruct (_CommitTimeQueue.next (S fuel) (_queue w))
    as [[[e|] q]| |]; [| |by rewrite Hc|done].
  - destruct Hn as (Hq' & Hst & Hle & Hlt).
    specialize (Hlt (ltac:(eauto))).
    assert (winv (set_queue q w)) as Hw1
      by (split; simpl; [by rewrite Hst|done]).
    destruct (_should_return (set_queue q w) e) as [[[[] e'] w1]| |];
      [| |by rewrite Hc|done].
    + destruct Hc as (_ & [ps ->] & ->).
      split_and!; [exact Hw1|simpl; lia|simpl; lia].
    + destruct Hc as ([ps ->] & ->).
      specialize (IH (set_paths ps (set_queue q w)) Hw1). simpl in IH.
      destruct (_next fuel _) as [[oe w']| |]; [|done|].
      * destruct IH as (? & ? & ?); [lia|].
        split_and!; [done|lia|lia].
      * apply IH. lia.
  - rewrite Hc. destruct Hn as (Hq' & Hst & Hle & _).
    split_and!; [|simpl; lia|by intros [? ?]].
    split; simpl; [by rewrite Hst|done].
Qed.

Lemma iter_next_spec fuel w :
  winv w → (remaining (_queue w) < fuel)%nat →
  match (iter_next fuel w).2 with
  | Ok w' => winv w'
  | Raise _ => True
  | Diverge => False
  end.
Proof.
  revert w. induction fuel as [|fuel IH]; intros w Hw Hfuel; [lia|].
  rewrite iter_next_S.
  pose proof (_next_spec (S fuel) w Hw Hfuel) as Hn.
  destruct (_next (S fuel) w) as [[[e|] w']| |]; simpl; [| |done..].
  - destruct Hn as (Hw' & _ & Hlt). specialize (Hlt (ltac:(eauto))).
    specialize (IH w' Hw'). destruct (iter_next fuel w') as [es r].
    simpl in *. apply IH. lia.
  - by destruct Hn.
Qed.

Lemma remaining_le q : (remaining q ≤ size (_CommitTimeQueue._store q))%nat.
Proof.
  unfold remaining. rewrite <-size_dom.
  apply subseteq_size. set_solver.
Qed.

(** *** Construction *)

Lemma queue_init_spec store rename_detector include excluded since q :
  _CommitTimeQueue.__init__ store rename_detector include excluded since
    = Ok q →
  _CommitTimeQueue._store q = store ∧
  _CommitTimeQueue._rename_detector q = rename_detector ∧
  _CommitTimeQueue._excluded q = excluded ∧
  _CommitTimeQueue._done q = ∅ ∧
  _CommitTimeQueue._min_time q = since ∧
  _CommitTimeQueue._extra_commits_left q = _MAX_EXTRA_COMMITS ∧
  _CommitTimeQueue._pq_set q ⊆ list_to_set include ∪ excluded ∧
  (store_wf store → qinv q).
Proof.
  unfold _CommitTimeQueue.__init__. intros Hp.
  destruct (push_each_frame _ _ _ Hp) as (?&?&?&?&?&?).
  destruct (push_each_pq_set _ _ _ Hp) as (_ & _ & Hsup).
  split_and!; try done.
  - simpl in Hsup. rewrite list_to_set_app_L in Hsup.
    intros k Hk. apply Hsup in Hk. set_unfold. naive_solver.
  - intros Hwf. refine (push_each_qinv _ _ _ _ _ Hp); [exact Hwf|].
    split; simpl; [constructor|set_solver|set_solver|set_solver].
Qed.

Lemma walker_init_inv store include exclude order reverse max_entries
    paths rename_detector follow since until w :
  __init__ store include exclude order reverse max_entries paths
    rename_detector follow since until = Ok w →
  order = ORDER_DATE ∧
  Walker.store w = store ∧ Walker.include w = include ∧
  Walker.reverse w = reverse ∧ Walker.max_entries w = max_entries ∧
  Walker.follow w = follow ∧ Walker.since w = since ∧
  Walker.until w = until ∧ _num_entries w = 0 ∧
  _CommitTimeQueue.__init__ store (Walker.rename_detector w) include
    (list_to_set (default [] exclude)) since = Ok (_queue w).
Proof.
  unfold __init__. case_decide as Ho; [done|].
  intros (q & Hq & [= <-])%bind_inv_Ok. simpl.
  split_and!; try done.
  by apply list_elem_of_singleton in Ho.
Qed.

Lemma walker_init_winv store include exclude order reverse max_entries
    paths rename_detector follow since until w :
  store_wf store →
  __init__ store include exclude order reverse max_entries paths
    rename_detector follow since until = Ok w →
  winv w ∧ (remaining (_queue w) ≤ size store)%nat.
Proof.
  intros Hwf (_&_&_&_&_&_&_&_&_&Hq)%walker_init_inv.
  apply queue_init_spec in Hq as (Hst&_&_&_&_&_&_&Hq).
  split; [split; [by rewrite Hst | by apply Hq]|].
  rewrite <-Hst. apply remaining_le.
Qed.
End Termination.

Section Rounds.
Context `{DiffEngine} `{CommitOrder}.
Import _CommitTimeQueue.

Lemma round_Some q c r :
  round q = Some (c, r) →
  ∃ time pq', _pq q = (time, c) :: pq' ∧ r = next_body (set_pq pq' q) c.
Proof.
  unfold round. destruct (_pq q) as [|[time c'] pq']; simpl; [done|].
  intros [= -> <-]. eauto.
Qed.

Lemma next_S fuel q :
  next (S fuel) q =
    match round q with
    | None => Ok (None, q)
    | Some (_, r) =>
        f ← r;
        match f with
        | Continue q' => next fuel q'
        | Break q' => Ok (None, q')
        | Return e q' => Ok (Some e, q')
        end
    end.
Proof.
  simpl. unfold round. by destruct (_pq q) as [|[time c] pq'].
Qed.

(** One round on a consistent frontier. *)
Lemma round_spec q c r :
  store_wf (_store q) → qinv q → round q = Some (c, r) →
  id c ∈ _pq_set q ∧ (id c ∉ _done q) ∧ _store q !! id c = Some c ∧
  match r with
  | Ok f =>
      qinv (flow_state f) ∧ _store (flow_state f) = _store q ∧
      _done (flow_state f) = {[id c]} ∪ _done q ∧
      _min_time (flow_state f) = _min_time q
  | Raise e =>
      ∃ k, e = MissingCommitError k ∧ k ∈ parents c ∧ _store q !! k = None
  | Diverge => False
  end.
Proof.
  intros Hwf Hq (time & pq' & Hpq & ->)%round_Some.
  destruct (qinv_pop q time c pq' Hq Hpq) as (Hin & Hnot & Hlook & Hv & _).
  split_and!; [done..|].
  rewrite next_body_eq by done.
  destruct (visited_frame (set_pq pq' q) c) as (E1 & _ & _ & _ & E5 & E6).
  simpl in E1, E5, E6.
  destruct (visited (set_pq pq' q) c) as [q1 stop]. simpl in *.
  destruct stop; simpl; [done|].
  destruct (push_each q1 (parents c)) as [q2|e|] eqn:Hp; simpl.
  - assert (qinv q2) as Hq2
      by (eapply push_each_qinv; [by rewrite E1|done|done]).
    destruct (push_each_frame _ _ _ Hp) as (F1 & _ & _ & F4 & F5 & _).
    destruct (bool_decide (id c ∈ _excluded q)); simpl;
      split_and!; congruence.
  - apply push_each_Raise in Hp as (k & -> & Hk & Hnone).
    exists k. by rewrite <-E1.
  - by apply push_each_not_Diverge in Hp.
Qed.

Lemma rounds_qinv q cs q' :
  store_wf (_store q) → qinv q → rounds q cs q' →
  qinv q' ∧ _store q' = _store q ∧ _min_time q' = _min_time q.
Proof.
  intros Hwf Hq. induction 1 as [|cs q1 c f _ (IH1 & IH2 & IH3) Hr _];
    [done|].
  apply round_spec in Hr as (_ & _ & _ & (? & ? & _ & ?));
    [|by rewrite IH2|done].
  split_and!; congruence.
Qed.

Lemma rounds_cons q c f cs q' :
  round q = Some (c, Ok f) → is_break f = false →
  rounds (flow_state f) cs q' → rounds q (c :: cs) q'.
Proof.
  intros Hr Hb. induction 1 as [|cs q1 c' f' _ IH Hr' Hb'].
  - apply (rounds_snoc q [] q c f); [constructor|done..].
  - rewrite app_comm_cons. by eapply rounds_snoc.
Qed.

Lemma run_rounds_sound n q : rounds q (run_rounds n q).1 (run_rounds n q).2.
Proof.
  revert q. induction n as [|n IH]; intros q; simpl; [constructor|].
  destruct (round q) as [[c [f| |]]|] eqn:Hr; simpl; try constructor.
  destruct (is_break f) eqn:Hb; simpl; [constructor|].
  specialize (IH (flow_state f)).
  destruct (run_rounds n (flow_state f)) as [cs q']. simpl in *.
  by eapply rounds_cons.
Qed.

(** [next] runs rounds: it comes back when the heap is empty, when a round
    breaks, or when a round returns an entry. *)
Lemma next_rounds fuel q oe q' :
  next fuel q = Ok (oe, q') →
  ∃ cs q1, rounds q cs q1 ∧
    ((oe = None ∧ round q1 = None ∧ q' = q1) ∨
     (∃ c, oe = None ∧ round q1 = Some (c, Ok (Break q'))) ∨
     (∃ c e, oe = Some e ∧ round q1 = Some (c, Ok (Return e q')))).
Proof.
  revert q. induction fuel as [|fuel IH]; intros q; [done|].
  rewrite next_S. destruct (round q) as [[c [f| |]]|] eqn:Hr; simpl;
    [|done|done|].
  - destruct f as [q2|q2|e q2].
    + intros (cs & q1 & Hcs & Hend)%IH.
      exists (c :: cs), q1. split; [|done]. by eapply rounds_cons.
    + intros [= <- <-]. exists [], q. split; [constructor|]. eauto.
    + intros [= <- <-]. exists [], q. split; [constructor|]. eauto 10.
  - intros [= <- <-]. exists [], q. split; [constructor|]. eauto.
Qed.
End Rounds.

(** * The claims *)

Section Claim_C1.
Context `{DiffEngine} `{CommitOrder}.

Lemma entry_ids_rev es : entry_ids (rev es) = rev (entry_ids es).
Proof. apply map_rev. Qed.

Lemma iter_nodup fuel w : NoDup (entry_ids (Walker.__iter__ fuel w).1).
Proof.
  unfold Walker.__iter__.
  destruct (iter_next_fresh fuel w) as [Hnd _].
  destruct (Walker.reverse w); [|done].
  destruct (Walker.iter_next fuel w) as [es [w'| |]]; simpl in *;
    [|constructor..].
  rewrite entry_ids_rev. by apply NoDup_ListNoDup, NoDup_rev, NoDup_ListNoDup.
Qed.

Lemma iter_not_Diverge fuel w :
  winv w → (remaining (Walker._queue w) < fuel)%nat →
  (Walker.__iter__ fuel w).2 ≠ Diverge.
Proof.
  intros Hw Hfuel. pose proof (iter_next_spec fuel w Hw Hfuel) as Hi.
  unfold Walker.__iter__.
  destruct (Walker.iter_next fuel w) as [es [w'| |]]; simpl in *;
    by destruct (Walker.reverse w).
Qed.

(** C1.  Over a complete iteration of the walker no commit identifier is
    emitted more than once, whatever the store and the configuration
    (first conjunct: it holds of the entries handed out within any number
    of rounds, and on a content-addressed store [S (size store)] rounds
    complete the iteration).  [_push] leaves the queue as it is for an
    identifier that is enqueued or done; and in every state the loop of
    the queue goes through, no identifier is on the heap twice and no
    done identifier is on the heap. *)
Theorem C1_commit_emitted_at_most_once store include exclude order reverse
    max_entries paths rename_detector follow since until w fuel :
  Walker.__init__ store include exclude order reverse max_entries paths
    rename_detector follow since until = Ok w →
  NoDup (entry_ids (Walker.__iter__ fuel w).1) ∧
  (∀ q k,
     is_Some (_CommitTimeQueue._store q !! k) →
     k ∈ _CommitTimeQueue._pq_set q ∪ _CommitTimeQueue._done q →
     _CommitTimeQueue._push q k = Ok q) ∧
  (store_wf store →
     ((size store < fuel)%nat → (Walker.__iter__ fuel w).2 ≠ Diverge) ∧
     ∀ cs q, rounds (Walker._queue w) cs q →
       NoDup (heap_ids (_CommitTimeQueue._pq q)) ∧
       ∀ k, k ∈ heap_ids (_CommitTimeQueue._pq q) →
            k ∉ _CommitTimeQueue._done q).
Proof.
  intros Hinit. split_and!.
  - apply iter_nodup.
  - intros q k [c Hc] Hk. unfold _CommitTimeQueue._push. rewrite Hc.
    rewrite decide_False; [done|]. set_solver.
  - intros Hwf.
    destruct (walker_init_winv _ _ _ _ _ _ _ _ _ _ _ _ Hwf Hinit)
      as [[Hwf' Hq] Hrem].
    split.
    + intros Hfuel. apply iter_not_Diverge; [done|lia].
    + intros cs q Hcs.
      destruct (rounds_qinv _ _ _ Hwf' Hq Hcs) as ([Hnd Hset _ Hdis] & _).
      split; [done|]. intros k Hk%Hset. set_solver.
Qed.
End Claim_C1.

Lemma repo_wf : store_wf Fixture.repo.
Proof. apply (bool_decide_unpack _). by vm_compute. Defined.

Lemma C1_witness :
  let w := Fixture.built
             (Walker.__init__ Fixture.repo ["d"; "x"] None ORDER_DATE false
                None None None false None None) in
  NoDup (entry_ids (Walker.__iter__ Fixture.fuel w).1) ∧
  (Walker.__iter__ Fixture.fuel w).2 ≠ Diverge.
Proof.
  intros w.
  destruct (C1_commit_emitted_at_most_once
              Fixture.repo ["d"; "x"] None ORDER_DATE false None None
              None false None None w Fixture.fuel)
    as (Hnd & _ & Hwf); [vm_compute; reflexivity|].
  split; [exact Hnd|]. apply (Hwf repo_wf). vm_compute. lia.
Defined.

Section Exclusion.
Context `{DiffEngine} `{CommitOrder}.
Import _CommitTimeQueue.

Lemma visited_excluded q c :
  _excluded (visited q c).1 =
    if bool_decide (id c ∈ _excluded q)
    then _excluded q ∪ list_to_set (parents c)
    else _excluded q.
Proof.
  unfold visited. destruct (_min_time q) as [T|];
    [destruct (commit_time c <? T)|]; done.
Qed.



Lemma round_clean store include exclude q c f :
  cinv store include exclude q → round q = Some (c, Ok f) →
  cinv store include exclude (flow_state f) ∧
  ∀ e q', f = Return e q' →
    WalkEntry.commit e = c ∧ (id c ∉ _excluded q) ∧
    clean store include exclude (id c).
Proof.
  intros (Hwf & Hq & Hst & Hsub & Hclean) Hr.
  assert (store_wf (_store q)) as Hwf' by (by rewrite Hst).
  destruct (round_spec q c _ Hwf' Hq Hr) as (Hin & Hnot & Hlook & Hq' & Hst' & _).
  apply round_Some in Hr as (time & pq' & Hpq & Hr).
  rewrite next_body_eq in Hr by done.
  pose proof (visited_excluded (set_pq pq' q) c) as Ev.
  destruct (visited_frame (set_pq pq' q) c) as (_ & _ & _ & E4 & _).
  destruct (visited (set_pq pq' q) c) as [q1 stop]. simpl in *.
  assert (_excluded q ⊆ _excluded q1) as Hgrow
    by (rewrite Ev; case_bool_decide; set_solver).
  destruct stop; simpl in Hr.
  { injection Hr as ->. simpl in *. split; [|done].
    split_and!; [done|done|congruence|set_solver|].
    intros k Hk Hk'. apply Hclean; set_solver. }
  destruct (push_each q1 (parents c)) as [q2| |] eqn:Hp; simpl in Hr; [|done..].
  destruct (push_each_frame _ _ _ Hp) as (_ & _ & F3 & _).
  destruct (push_each_pq_set _ _ _ Hp) as (_ & _ & Hsup).
  assert (cinv store include exclude q2) as Hc2.
  { assert (qinv q2 ∧ _store q2 = store) as [? ?]
      by (destruct (bool_decide (id c ∈ _excluded q));
          injection Hr as ->; simpl in *; split; congruence).
    split_and!; [done|done|done|set_solver|].
    intros k Hk Hk'. apply Hsup in Hk. rewrite F3 in Hk'.
    apply elem_of_union in Hk as [Hk|Hk]; [|apply Hclean; set_solver].
    rewrite Ev in Hk'. case_bool_decide as Hex; [set_solver|].
    apply (clean_parent store include exclude (id c) c k);
      [apply Hclean; [done|done]|congruence|set_solver|set_solver]. }
  case_bool_decide as Hex; injection Hr as ->; simpl; (split; [done|]);
    [done|].
  intros e q' [= <- <-]. split_and!; [done|done|by apply Hclean].
Qed.

Lemma rounds_clean store include exclude q cs q' :
  cinv store include exclude q → rounds q cs q' →
  cinv store include exclude q'.
Proof.
  intros Hc. induction 1 as [|cs q1 c f _ IH Hr _]; [done|].
  by destruct (round_clean _ _ _ _ _ _ IH Hr).
Qed.

Lemma next_clean store include exclude fuel q oe q' :
  cinv store include exclude q → next fuel q = Ok (oe, q') →
  cinv store include exclude q' ∧
  ∀ e, oe = Some e → clean store include exclude (id (WalkEntry.commit e)).
Proof.
  intros Hc (cs & q1 & Hcs & Hend)%next_rounds.
  apply (rounds_clean _ _ _ _ _ _ Hc) in Hcs.
  destruct Hend as [(-> & _ & ->)|[(c & -> & Hr)|(c & e & -> & Hr)]];
    [done|by destruct (round_clean _ _ _ _ _ _ Hcs Hr)|].
  destruct (round_clean _ _ _ _ _ _ Hcs Hr) as [Hc' He].
  split; [done|]. intros ? [= <-].
  by destruct (He e q' eq_refl) as (-> & _ & ?).
Qed.
End Exclusion.

Section ExclusionWalker.
Context `{DiffEngine} `{CommitOrder}.
Import Walker.

Lemma _next_clean store include exclude fuel w oe w' :
  cinv store include exclude (_queue w) → _next fuel w = Ok (oe, w') →
  cinv store include exclude (_queue w') ∧
  ∀ e, oe = Some e → clean store include exclude (id (WalkEntry.commit e)).
Proof.
  revert w. induction fuel as [|fuel IH]; intros w Hc; [done|].
  destruct (capped w) eqn:Hcap.
  { rewrite _next_S, Hcap. by intros [= <- <-]. }
  pose proof (_next_cases fuel w Hcap) as Hn.
  destruct (_CommitTimeQueue.next (S fuel) (_queue w))
    as [[[e|] q]| |] eqn:Hq; [| |by rewrite Hn..].
  - apply (next_clean _ _ _ _ _ _ _ Hc) in Hq as [Hc' He].
    destruct (_should_return (set_queue q w) e) as [[[[] e'] w1]| |];
      [| |by rewrite Hn|done].
    + destruct Hn as (Hcommit & [ps ->] & ->). intros [= <- <-]. simpl.
      split; [done|]. intros ? [= <-]. rewrite Hcommit. by apply He.
    + destruct Hn as ([ps ->] & ->). by apply IH.
  - rewrite Hn. intros [= <- <-]. simpl.
    by apply (next_clean _ _ _ _ _ _ _ Hc) in Hq as [Hc' _].
Qed.

Lemma iter_next_clean store include exclude fuel w e :
  cinv store include exclude (_queue w) → e ∈ (iter_next fuel w).1 →
  clean store include exclude (id (WalkEntry.commit e)).
Proof.
  revert w. induction fuel as [|fuel IH]; intros w Hc.
  { simpl. by intros ?%elem_of_nil. }
  rewrite iter_next_S.
  destruct (_next (S fuel) w) as [[[e0|] w']| |] eqn:Hn; simpl;
    try by intros ?%elem_of_nil.
  apply (_next_clean _ _ _ _ _ _ _ Hc) in Hn as [Hc' He0].
  specialize (IH w' Hc'). destruct (iter_next fuel w') as [es r]. simpl in *.
  intros [->|He]%elem_of_cons; [by apply He0 | by apply IH].
Qed.


Lemma walker_init_cinv store include exclude order reverse max_entries
    paths rename_detector follow since until w :
  store_wf store →
  __init__ store include exclude order reverse max_entries paths
    rename_detector follow since until = Ok w →
  cinv store include (list_to_set (default [] exclude)) (_queue w).
Proof.
  intros Hwf (_&_&_&_&_&_&_&_&_&Hq)%walker_init_inv.
  apply queue_init_spec in Hq as (Hst&_&Hex&_&_&_&Hsub&Hq).
  split_and!; [done|by apply Hq|done|by rewrite Hex|].
  intros k Hk Hk'. rewrite Hex in Hk'. apply Hsub in Hk.
  apply clean_seed; set_solver.
Qed.

End ExclusionWalker.

Section Fuel.
Context `{DiffEngine} `{CommitOrder}.
Import Walker.

(** More fuel does not change what a call returns. *)
Lemma next_mono n m q :
  (n ≤ m)%nat → _CommitTimeQueue.next n q ≠ Diverge →
  _CommitTimeQueue.next m q = _CommitTimeQueue.next n q.
Proof.
  revert m q. induction n as [|n IH]; intros m q Hle Hnd; [done|].
  destruct m as [|m]; [lia|]. rewrite !next_S in *.
  destruct (round q) as [[c [f| |]]|]; simpl in *; try done.
  destruct f as [q1|q1|e q1]; try done. apply IH; [lia|done].
Qed.

Lemma _next_mono n m w :
  (n ≤ m)%nat → _next n w ≠ Diverge → _next m w = _next n w.
Proof.
  revert m w. induction n as [|n IH]; intros m w Hle Hnd; [done|].
  destruct m as [|m]; [lia|]. rewrite !_next_S in *.
  destruct (capped w); [done|].
  destruct (_CommitTimeQueue.next (S n) (_queue w)) as [[oe q]| |] eqn:Hn;
    simpl in Hnd; [|by rewrite (next_mono (S n) (S m)), Hn by (lia || by rewrite Hn)|done].
  rewrite (next_mono (S n) (S m)), Hn by (lia || by rewrite Hn). simpl.
  destruct oe as [e|]; [|done].
  destruct (_should_return (set_queue q w) e) as [[[[] e'] w1]| |];
    simpl in *; try done.
  apply IH; [lia|done].
Qed.

Lemma iter_next_mono n m w :
  (n ≤ m)%nat → (iter_next n w).2 ≠ Diverge → iter_next m w = iter_next n w.
Proof.
  revert m w. induction n as [|n IH]; intros m w Hle Hnd; [done|].
  destruct m as [|m]; [lia|]. rewrite !iter_next_S in *.
  destruct (_next (S n) w) as [[[e|] w1]| |] eqn:Hn; simpl in Hnd;
    rewrite ?(_next_mono (S n) (S m)), ?Hn by (lia || by rewrite Hn);
    try done.
  specialize (IH m w1). destruct (iter_next n w1) as [es r].
  simpl in *. rewrite IH; [done|lia|done].
Qed.
End Fuel.

Section Propagation.
Context `{DiffEngine} `{CommitOrder}.
Import Walker.

Lemma next_continues q cs q1 fuel :
  continues q cs q1 →
  _CommitTimeQueue.next (length cs + fuel) q = _CommitTimeQueue.next fuel q1.
Proof.
  induction 1 as [|q c q1 cs q2 Hr _ IH]; [done|].
  change (length (c :: cs) + fuel)%nat with (S (length cs + fuel)).
  by rewrite next_S, Hr.
Qed.

Lemma _next_rejected w w1 x :
  rtc rejected w w1 → pull_raises w1 x →
  ∃ n, ∀ fuel, (n ≤ fuel)%nat → _next fuel w = Raise x.
Proof.
  induction 1 as [w|w w0 w1 (Hcap & n1 & e & q & e' & Hn & Hs) _ IH].
  - intros [Hcap [[n Hn]|(n & e & q & Hn & Hs)]].
    + exists (S n). intros [|fuel] Hle; [lia|].
      rewrite _next_S, Hcap, (next_mono n (S fuel)), Hn by (lia || by rewrite Hn).
      done.
    + exists (S n). intros [|fuel] Hle; [lia|].
      rewrite _next_S, Hcap, (next_mono n (S fuel)), Hn by (lia || by rewrite Hn).
      simpl. by rewrite Hs.
  - intros Hx. destruct (IH Hx) as [n0 Hn0].
    exists (S (n1 + n0)). intros [|fuel] Hle; [lia|].
    rewrite _next_S, Hcap, (next_mono n1 (S fuel)), Hn by (lia || by rewrite Hn).
    simpl. rewrite Hs. simpl. apply Hn0. lia.
Qed.

Lemma iter_next_yields w es w1 x :
  yields w es w1 → (∃ n, _next n w1 = Raise x) →
  ∃ n, ∀ fuel, (n ≤ fuel)%nat → iter_next fuel w = (es, Raise x).
Proof.
  induction 1 as [w|w n1 e w1 es w2 Hn _ IH].
  - intros [n Hn]. exists (S n). intros [|fuel] Hle; [lia|].
    rewrite iter_next_S, (_next_mono n (S fuel)), Hn by (lia || by rewrite Hn).
    done.
  - intros Hx. destruct (IH Hx) as [n0 Hn0].
    exists (S (n1 + n0)). intros [|fuel] Hle; [lia|].
    rewrite iter_next_S, (_next_mono n1 (S fuel)), Hn by (lia || by rewrite Hn).
    by rewrite Hn0 by lia.
Qed.
End Propagation.

Section ExclusionGrows.
Context `{DiffEngine} `{CommitOrder}.
Import Walker.





End ExclusionGrows.

Section Claim_C2.
Context `{DiffEngine} `{CommitOrder}.

End Claim_C2.


Section Boundary.
Context `{DiffEngine} `{CommitOrder}.
Import _CommitTimeQueue.

Lemma overrun_snoc T cs c :
  overrun T (cs ++ [c]) =
    if commit_time c <? T then S (overrun T cs) else 0%nat.
Proof. unfold overrun. by rewrite rev_unit. Qed.

(** The counter in one round of a queue with a lower time bound. *)
Lemma round_counter q T c f :
  store_wf (_store q) → qinv q → _min_time q = Some T →
  round q = Some (c, Ok f) →
  if commit_time c <? T then
    _extra_commits_left (flow_state f) = _extra_commits_left q - 1 ∧
    (is_break f = true ↔ _extra_commits_left q - 1 = 0)
  else
    _extra_commits_left (flow_state f) = _MAX_EXTRA_COMMITS ∧
    is_break f = false.
Proof.
  intros Hwf Hq HT Hr.
  destruct (round_spec q c _ Hwf Hq Hr) as (Hin & Hnot & _).
  apply round_Some in Hr as (time & pq' & Hpq & Hr).
  rewrite next_body_eq in Hr by done.
  assert (_extra_commits_left (visited (set_pq pq' q) c).1 =
            (if commit_time c <? T then _extra_commits_left q - 1
             else _MAX_EXTRA_COMMITS) ∧
          (visited (set_pq pq' q) c).2 =
            (if commit_time c <? T
             then bool_decide (_extra_commits_left q - 1 = 0) else false))
    as [Ex Es].
  { unfold visited. simpl. rewrite HT. by destruct (commit_time c <? T). }
  destruct (visited (set_pq pq' q) c) as [q1 stop]. simpl in *.
  assert (stop = false →
          _extra_commits_left (flow_state f) = _extra_commits_left q1 ∧
          is_break f = false) as Hgo.
  { intros ->. simpl in Hr.
    destruct (push_each q1 (parents c)) as [q2| |] eqn:Hp; [|done..].
    destruct (push_each_frame _ _ _ Hp) as (_ & _ & _ & _ & _ & F6).
    simpl in Hr. by destruct (bool_decide (id c ∈ _excluded q));
      injection Hr as ->. }
  destruct (commit_time c <? T).
  - destruct stop.
    + injection Hr as ->. simpl. split; [done|].
      symmetry in Es. apply bool_decide_eq_true in Es. done.
    + destruct (Hgo eq_refl) as [-> ->]. split; [done|].
      symmetry in Es. apply bool_decide_eq_false in Es. done.
  - subst stop. by destruct (Hgo eq_refl) as [-> ->].
Qed.

(** While the walk goes on, the counter is [_MAX_EXTRA_COMMITS] less the
    number of commits popped since the last one that was not older than the
    bound, and that number stays below [_MAX_EXTRA_COMMITS]. *)
Lemma rounds_counter q0 T cs q :
  store_wf (_store q0) → qinv q0 → _min_time q0 = Some T →
  _extra_commits_left q0 = _MAX_EXTRA_COMMITS →
  rounds q0 cs q →
  (overrun T cs < Z.to_nat _MAX_EXTRA_COMMITS)%nat ∧
  _extra_commits_left q = _MAX_EXTRA_COMMITS - Z.of_nat (overrun T cs).
Proof.
  intros Hwf Hq HT H5. unfold _MAX_EXTRA_COMMITS in *.
  induction 1 as [|cs q1 c f Hcs [IH1 IH2] Hr Hb].
  { unfold overrun. simpl. split; lia. }
  destruct (rounds_qinv _ _ _ Hwf Hq Hcs) as (Hq1 & Hst & Hmt).
  pose proof (round_counter q1 T c f) as Hc.
  rewrite Hst, Hmt in Hc. specialize (Hc Hwf Hq1 HT Hr).
  rewrite overrun_snoc. unfold _MAX_EXTRA_COMMITS in *.
  destruct (commit_time c <? T).
  - destruct Hc as [-> Hbreak]. rewrite Hb in Hbreak.
    assert (_extra_commits_left q1 - 1 ≠ 0) by (intros ?%Hbreak; done).
    split; lia.
  - destruct Hc as [-> _]. split; lia.
Qed.
End Boundary.

Section Claim_C3.
Context `{DiffEngine} `{CommitOrder}.
Import _CommitTimeQueue.

Lemma round_break q T c r :
  store_wf (_store q) → qinv q → _min_time q = Some T →
  round q = Some (c, r) →
  commit_time c < T → _extra_commits_left q = 1 →
  ∃ q', r = Ok (Break q') ∧ _extra_commits_left q' = 0.
Proof.
  intros Hwf Hq HT Hr Hlt H1.
  destruct (round_spec q c _ Hwf Hq Hr) as (Hin & Hnot & _).
  apply round_Some in Hr as (time & pq' & Hpq & ->).
  rewrite next_body_eq by done. unfold visited. simpl. rewrite HT.
  apply Z.ltb_lt in Hlt. rewrite Hlt, H1. simpl. eauto.
Qed.

Lemma next_None_stops_walk fuel w q' :
  next (S fuel) (Walker._queue w) = Ok (None, q') →
  (Walker.iter_next (S fuel) w).1 = [].
Proof.
  intros Hn. rewrite iter_next_S.
  destruct (capped w) eqn:Hcap.
  { by rewrite _next_S, Hcap. }
  pose proof (_next_cases fuel w Hcap) as Hc. rewrite Hn in Hc.
  by rewrite Hc.
Qed.

(** C3.  With [since = T] the queue's counter starts at 5.  While the walk
    goes on the counter is 5 less the number of commits popped in a row
    with a time below [T], and that number stays below 5.  A popped commit
    with a time below [T] takes one off the counter; when that makes it
    zero (the fifth such commit in a row) the round breaks, [next] returns
    no entry and the walker hands out nothing more.  A popped commit with a
    time not below [T] sets the counter back to 5. *)
Theorem C3_since_overrun_is_bounded store include exclude order reverse
    max_entries paths rename_detector follow T until w :
  store_wf store →
  Walker.__init__ store include exclude order reverse max_entries paths
    rename_detector follow (Some T) until = Ok w →
  _extra_commits_left (Walker._queue w) = 5 ∧
  ∀ cs q, rounds (Walker._queue w) cs q →
    (overrun T cs < 5)%nat ∧
    _extra_commits_left q = 5 - Z.of_nat (overrun T cs) ∧
    ∀ c r, round q = Some (c, r) →
      (commit_time c < T → overrun T cs = 4%nat →
       ∃ q', r = Ok (Break q') ∧
         ∀ fuel,
           next (S fuel) q = Ok (None, q') ∧
           ∀ w1, Walker._queue w1 = q →
                 (Walker.iter_next (S fuel) w1).1 = []) ∧
      (commit_time c < T → (overrun T cs < 4)%nat →
       ∀ f, r = Ok f →
         is_break f = false ∧
         _extra_commits_left (flow_state f) = _extra_commits_left q - 1) ∧
      (T ≤ commit_time c →
       ∀ f, r = Ok f →
         is_break f = false ∧ _extra_commits_left (flow_state f) = 5).
Proof.
  intros Hwf (_&_&_&_&_&_&_&_&_&Hinit)%walker_init_inv.
  apply queue_init_spec in Hinit as (Hst&_&_&_&HT&H5&_&Hq).
  specialize (Hq Hwf). rewrite <-Hst in Hwf. split; [done|].
  intros cs q Hcs.
  destruct (rounds_counter _ T _ _ Hwf Hq HT H5 Hcs) as [Hlt Hextra].
  destruct (rounds_qinv _ _ _ Hwf Hq Hcs) as (Hq1 & Hst1 & Hmt1).
  rewrite <-Hst1 in Hwf. rewrite HT in Hmt1.
  unfold _MAX_EXTRA_COMMITS in *.
  split_and!; [lia|done|]. intros c r Hr. split_and!.
  - intros Hc H4.
    destruct (round_break q T c r Hwf Hq1 Hmt1 Hr Hc) as (q' & -> & _); [lia|].
    exists q'. split; [done|]. intros fuel.
    assert (next (S fuel) q = Ok (None, q')) as Hn
      by (by rewrite next_S, Hr).
    split; [done|]. intros w1 <-. by eapply next_None_stops_walk.
  - intros Hc%Z.ltb_lt H4 f ->.
    pose proof (round_counter q T c f Hwf Hq1 Hmt1 Hr) as Hrc.
    rewrite Hc in Hrc. destruct Hrc as [-> Hb]. split; [|done].
    destruct (is_break f); [|done]. destruct Hb as [Hb _].
    specialize (Hb eq_refl). lia.
  - intros Hc%Z.ltb_ge f ->.
    pose proof (round_counter q T c f Hwf Hq1 Hmt1 Hr) as Hrc.
    rewrite Hc in Hrc. by destruct Hrc as [-> ->].
Qed.
End Claim_C3.

Lemma C3_witness :
  let w := Fixture.built
             (Walker.__init__ Fixture.repo ["d"; "x"] None ORDER_DATE false
                None None None false (Some 100) None) in
  let r := run_rounds 4 (Walker._queue w) in
  r.1 = [Fixture.x; Fixture.d; Fixture.c; Fixture.b] ∧
  rounds (Walker._queue w) r.1 r.2 ∧
  ∃ q', round r.2 = Some (Fixture.a, Ok (_CommitTimeQueue.Break q')) ∧
        ∀ fuel, _CommitTimeQueue.next (S fuel) r.2 = Ok (None, q').
Proof.
  intros w r. split; [vm_compute; reflexivity|].
  pose proof (run_rounds_sound 4 (Walker._queue w)) as Hcs. fold r in Hcs.
  split; [exact Hcs|].
  destruct (C3_since_overrun_is_bounded
              Fixture.repo ["d"; "x"] None ORDER_DATE false None None None
              false 100 None w repo_wf ltac:(vm_compute; reflexivity))
    as [_ Hall].
  destruct (Hall _ _ Hcs) as (_ & _ & Hround).
  assert (fst <$> round r.2 = Some Fixture.a) as Hc
    by (vm_compute; reflexivity).
  destruct (round r.2) as [[c rr]|] eqn:Hr; [|done].
  injection Hc as ->.
  destruct (Hround _ _ eq_refl) as (Hbreak & _ & _).
  destruct Hbreak as (q' & -> & Hnext); [by vm_compute|by vm_compute|].
  exists q'. split; [done|]. intros fuel. apply Hnext.
Defined.

(** The claim as it stands fails on a chain whose times straddle the bound
    in turn: with [since = 10] the loop pops all fourteen commits, seven of
    them older than the bound, never stops at the boundary, and ends with
    the heap empty and the counter at 5. *)
Lemma C3_counterexample :
  let w := Fixture.built
             (Walker.__init__ Zigzag.store ["k14"] None ORDER_DATE false
                None None None false (Some 10) None) in
  let r := run_rounds 14 (Walker._queue w) in
  store_wf Zigzag.store ∧
  r.1 = rev Zigzag.commits ∧
  rounds (Walker._queue w) r.1 r.2 ∧
  (5 < length (filter (λ c, (commit_time c < 10)%Z) r.1))%nat ∧
  round r.2 = None ∧
  _CommitTimeQueue._extra_commits_left r.2 = 5 ∧
  entry_ids (Walker.__iter__ 15 w).1 =
    ["k13"; "k11"; "k09"; "k07"; "k05"; "k03"; "k01"] ∧
  (Walker.__iter__ 15 w).2 = Ok (Fixture.built (Walker.__iter__ 15 w).2).
Proof.
  intros w r.
  split; [apply (bool_decide_unpack _); by vm_compute|].
  split; [vm_compute; reflexivity|].
  split; [apply run_rounds_sound|].
  split; [apply (bool_decide_unpack _); by vm_compute|].
  split; [vm_compute; reflexivity|].
  split; [vm_compute; reflexivity|].
  split; vm_compute; reflexivity.
Qed.

Section Cap.
Context `{DiffEngine} `{CommitOrder}.
Import Walker.


Lemma should_return_max v w e :
  _should_return (set_max_entries v w) e =
  (λ '(b, e', w'), (b, e', set_max_entries v w')) <$> _should_return w e.
Proof. by apply should_return_frame. Qed.

Lemma init_max store include exclude order reverse max_entries max_entries'
    paths rename_detector follow since until w :
  __init__ store include exclude order reverse max_entries paths
    rename_detector follow since until = Ok w →
  __init__ store include exclude order reverse max_entries' paths
    rename_detector follow since until = Ok (set_max_entries max_entries' w).
Proof.
  unfold __init__. case_decide; [done|].
  intros (q & -> & [= <-])%bind_inv_Ok. done.
Qed.

Lemma _next_count fuel w oe w' :
  _next fuel w = Ok (oe, w') →
  max_entries w' = max_entries w ∧
  _num_entries w' =
    _num_entries w + match oe with Some _ => 1 | None => 0 end.
Proof.
  revert w. induction fuel as [|fuel IH]; intros w; [done|].
  destruct (capped w) eqn:Hcap.
  { rewrite _next_S, Hcap. intros [= <- <-]. split; [done|lia]. }
  pose proof (_next_cases fuel w Hcap) as Hn.
  destruct (_CommitTimeQueue.next (S fuel) (_queue w))
    as [[[e|] q]| |]; [| |by rewrite Hn..].
  - destruct (_should_return (set_queue q w) e) as [[[[] e'] w1]| |];
      [| |by rewrite Hn|done].
    + destruct Hn as (_ & [ps ->] & ->). by intros [= <- <-].
    + destruct Hn as ([ps ->] & ->). intros Hw'. by apply IH in Hw'.
  - rewrite Hn. intros [= <- <-]. simpl. split; [done|lia].
Qed.

Lemma iter_next_count fuel w w' :
  (iter_next fuel w).2 = Ok w' →
  _num_entries w' = _num_entries w + Z.of_nat (length (iter_next fuel w).1).
Proof.
  revert w. induction fuel as [|fuel IH]; intros w; [done|].
  rewrite iter_next_S.
  destruct (_next (S fuel) w) as [[[e|] w1]| |] eqn:Hn; simpl; [| |done..].
  - apply _next_count in Hn as [_ Hn]. specialize (IH w1).
    destruct (iter_next fuel w1) as [es r]. simpl in *.
    intros Hr. rewrite (IH Hr). lia.
  - apply _next_count in Hn as [_ Hn]. intros [= <-]. lia.
Qed.

(** Below the cap, [_next] goes the way it goes without a cap. *)
Lemma _next_below_cap fuel N w :
  max_entries w = None → (_num_entries w < N) →
  _next fuel (set_max_entries (Some N) w) =
  (λ '(oe, w'), (oe, set_max_entries (Some N) w')) <$> _next fuel w.
Proof.
  revert w. induction fuel as [|fuel IH]; intros w Hmax Hnum; [done|].
  rewrite !_next_S.
  change (capped (set_max_entries (Some N) w)) with (_num_entries w >=? N).
  assert (capped w = false) as -> by (unfold capped; by rewrite Hmax).
  change (_queue (set_max_entries (Some N) w)) with (_queue w).
  assert ((_num_entries w >=? N) = false) as -> by lia.
  destruct (_CommitTimeQueue.next (S fuel) (_queue w))
    as [[[e|] q]| |]; try done.
  unfold mbind at 1 3, result_bind. cbv beta iota.
  change (set_queue q (set_max_entries (Some N) w))
    with (set_max_entries (Some N) (set_queue q w)).
  rewrite should_return_max.
  pose proof (should_return_inv (set_queue q w) e) as Hs.
  destruct (_should_return (set_queue q w) e) as [[[[] e'] w1]| |];
    simpl; try done.
  destruct Hs as (_ & [ps ->]). by apply IH.
Qed.

Lemma iter_next_cap fuel N w :
  max_entries w = None →
  (iter_next fuel (set_max_entries (Some N) w)).1 =
    take (Z.to_nat (N - _num_entries w)) (iter_next fuel w).1 ∧
  ∀ w', (iter_next fuel w).2 = Ok w' →
        ∃ w'', (iter_next fuel (set_max_entries (Some N) w)).2 = Ok w''.
Proof.
  revert w. induction fuel as [|fuel IH]; intros w Hmax.
  { simpl. by rewrite take_nil. }
  destruct (decide (_num_entries w < N)) as [Hnum|Hnum].
  - rewrite !iter_next_S, _next_below_cap by done.
    destruct (_next (S fuel) w) as [[[e|] w1]| |] eqn:Hn; simpl;
      try (rewrite take_nil; by eauto).
    apply _next_count in Hn as [Hmax1 Hn]. rewrite Hmax in Hmax1.
    destruct (IH w1 Hmax1) as [IH1 IH2].
    destruct (iter_next fuel (set_max_entries (Some N) w1)) as [es' r'].
    destruct (iter_next fuel w1) as [es r]. simpl in *. split.
    + replace (Z.to_nat (N - _num_entries w))
        with (S (Z.to_nat (N - _num_entries w1))) by lia.
      simpl. by rewrite IH1.
    + done.
  - rewrite iter_next_S, _next_S. unfold capped. simpl.
    assert ((_num_entries w >=? N) = true) as -> by lia. simpl.
    replace (Z.to_nat (N - _num_entries w)) with 0%nat by lia.
    split; [by rewrite take_0 | by eauto].
Qed.
End Cap.

Section IterationOutcome.
Context `{DiffEngine} `{CommitOrder}.

Lemma iter_Ok fuel w w' :
  (Walker.__iter__ fuel w).2 = Ok w' ↔ (Walker.iter_next fuel w).2 = Ok w'.
Proof.
  unfold Walker.__iter__. destruct (Walker.reverse w); [|done].
  by destruct (Walker.iter_next fuel w) as [es [w1| |]].
Qed.

Lemma iter_Ok_length fuel w w' :
  (Walker.iter_next fuel w).2 = Ok w' →
  length (Walker.__iter__ fuel w).1 = length (Walker.iter_next fuel w).1.
Proof.
  unfold Walker.__iter__. destruct (Walker.reverse w); [|done].
  destruct (Walker.iter_next fuel w) as [es [w1| |]]; simpl; [|done..].
  intros _. apply length_rev.
Qed.
End IterationOutcome.

Section Passing.
Context `{DiffEngine} `{CommitOrder}.
Import Walker.

Lemma passing_S fuel w :
  passing (S fuel) w =
    match _CommitTimeQueue.next (S fuel) (_queue w) with
    | Ok (None, q) => ([], Ok (set_queue q w))
    | Ok (Some e, q) =>
        match _should_return (set_queue q w) e with
        | Ok (true, e', w') =>
            let '(es, r) := passing fuel w' in (e' :: es, r)
        | Ok (false, _, w') => passing fuel w'
        | Raise x => ([], Raise x)
        | Diverge => ([], Diverge)
        end
    | Raise x => ([], Raise x)
    | Diverge => ([], Diverge)
    end.
Proof. done. Qed.

(** The count of accepted entries is not read. *)
Lemma passing_num fuel n w :
  passing fuel (set_num_entries n w) =
    let '(es, r) := passing fuel w in (es, set_num_entries n <$> r).
Proof.
  revert w. induction fuel as [|fuel IH]; intros w; [done|].
  rewrite !passing_S.
  change (_queue (set_num_entries n w)) with (_queue w).
  destruct (_CommitTimeQueue.next (S fuel) (_queue w)) as [[[e|] q]| |];
    try done.
  change (set_queue q (set_num_entries n w))
    with (set_num_entries n (set_queue q w)).
  rewrite (should_return_frame (set_num_entries n)) by done.
  destruct (_should_return (set_queue q w) e) as [[[[] e'] w1]| |];
    simpl; try done.
  rewrite IH. by destruct (passing fuel w1).
Qed.

Lemma passing_not_Diverge fuel w :
  winv w → (remaining (_queue w) < fuel)%nat → (passing fuel w).2 ≠ Diverge.
Proof.
  revert w. induction fuel as [|fuel IH]; intros w [Hwf Hq] Hfuel; [lia|].
  rewrite passing_S.
  pose proof (next_spec (S fuel) (_queue w) Hwf Hq Hfuel) as Hn.
  destruct (_CommitTimeQueue.next (S fuel) (_queue w)) as [[[e|] q]| |];
    try done.
  destruct Hn as (Hq' & Hst & _ & Hlt). specialize (Hlt (ltac:(eauto))).
  pose proof (should_return_inv (set_queue q w) e) as Hs.
  destruct (_should_return (set_queue q w) e) as [[[b e'] w1]| |];
    try done.
  destruct Hs as (_ & ps & ->).
  assert ((passing fuel (set_paths ps (set_queue q w))).2 ≠ Diverge) as Hnd.
  { apply IH; [split; simpl; [by rewrite Hst|done]|simpl; lia]. }
  destruct b; [|done]. by destruct (passing fuel _).
Qed.

(** Without a cap the walker hands out the entries that pass the filter. *)
Lemma iter_next_passing fuel fuel' w :
  max_entries w = None → (fuel ≤ fuel')%nat →
  (passing fuel w).2 ≠ Diverge →
  (iter_next fuel' w).1 = (passing fuel w).1 ∧
  same_outcome (iter_next fuel' w).2 (passing fuel w).2.
Proof.
  revert fuel' w. induction fuel as [|fuel IH]; intros fuel' w Hmax Hle;
    [done|].
  destruct fuel' as [|fuel']; [lia|].
  assert (capped w = false) as Hcap by (unfold capped; by rewrite Hmax).
  rewrite passing_S, iter_next_S, _next_S, Hcap.
  destruct (_CommitTimeQueue.next (S fuel) (_queue w)) as [[oe q]| |] eqn:Hn;
    [|by rewrite (next_mono (S fuel) (S fuel')), Hn by (lia || by rewrite Hn)
     |done].
  rewrite (next_mono (S fuel) (S fuel')), Hn by (lia || by rewrite Hn).
  simpl. destruct oe as [e|]; [|done].
  pose proof (should_return_inv (set_queue q w) e) as Hs.
  destruct (_should_return (set_queue q w) e) as [[[[] e'] w1]| |];
    simpl; try done.
  - destruct Hs as (_ & ps & ->). intros Hnd.
    specialize (IH fuel' (set_num_entries
                            (_num_entries (set_paths ps (set_queue q w)) + 1)
                            (set_paths ps (set_queue q w)))).
    rewrite passing_num in IH.
    destruct (passing fuel (set_paths ps (set_queue q w))) as [es r].
    destruct (iter_next fuel' _) as [es' r']. simpl in *.
    destruct IH as [-> Hout]; [done|lia|by destruct r|].
    split; [done|]. by destruct r.
  - destruct Hs as (_ & ps & ->). intros Hnd.
    set (w1 := set_paths ps (set_queue q w)) in *.
    assert (max_entries w1 = None) as Hmax1 by done.
    destruct (IH fuel' w1 Hmax1 ltac:(lia) Hnd) as [_ Hout'].
    destruct (IH (S fuel') w1 Hmax1 ltac:(lia) Hnd) as [Hes Hout].
    assert (_next fuel' w1 ≠ Diverge) as Hnd1.
    { intros Hd. destruct fuel' as [|fuel'']; [by destruct (passing fuel w1).2|].
      rewrite iter_next_S, Hd in Hout'. simpl in Hout'.
      by destruct (passing fuel w1).2. }
    rewrite iter_next_S, (_next_mono fuel' (S fuel')) in Hes, Hout
      by (lia || done).
    done.
Qed.
Lemma iter_next_cap_returns fuel N w :
  max_entries w = None → (iter_next fuel w).2 ≠ Diverge →
  (iter_next fuel (set_max_entries (Some N) w)).2 ≠ Diverge.
Proof.
  revert w. induction fuel as [|fuel IH]; intros w Hmax Hnd; [done|].
  destruct (decide (_num_entries w < N)) as [Hnum|Hnum].
  - rewrite !iter_next_S, _next_below_cap in * by done.
    destruct (_next (S fuel) w) as [[[e|] w1]| |] eqn:Hn; simpl in Hnd;
      simpl; try done.
    apply _next_count in Hn as [Hmax1 Hn]. rewrite Hmax in Hmax1.
    specialize (IH w1 Hmax1).
    destruct (iter_next fuel (set_max_entries (Some N) w1)) as [es' r'].
    destruct (iter_next fuel w1) as [es r]. simpl in *. by apply IH.
  - rewrite iter_next_S, _next_S. unfold capped. simpl.
    assert ((_num_entries w >=? N) = true) as -> by lia. done.
Qed.
End Passing.

Section Claim_C4.
Context `{DiffEngine} `{CommitOrder}.
Import Walker.

(** C4, as amended.  With [max_entries = N] the walker hands out the first
    [N] of the entries that pass the acceptance filter, all of them when
    there are fewer, none when [N ≤ 0]: max (0, min (N, number of passing
    entries)) entries.  [passing] is the list of the entries that pass,
    drawn from the queue and put to [_should_return] without any cap or
    count.  Only an accepted entry adds to [_num_entries], which is the
    number of entries handed out; and once the cap is reached [_next]
    returns nothing and leaves the queue alone. *)
Theorem C4_max_entries_caps_accepted_entries store include exclude order
    reverse N paths rename_detector follow since until wN w :
  Walker.__init__ store include exclude order reverse (Some N) paths
    rename_detector follow since until = Ok wN →
  Walker.__init__ store include exclude order reverse None paths
    rename_detector follow since until = Ok w →
  (∀ fuel fuel',
     (fuel ≤ fuel')%nat → (passing fuel w).2 ≠ Diverge →
     (Walker.iter_next fuel' wN).1 =
       take (Z.to_nat N) (passing fuel w).1 ∧
     (Walker.iter_next fuel' wN).2 ≠ Diverge) ∧
  (∀ fuel fuel' w',
     (fuel ≤ fuel')%nat → (passing fuel w).2 = Ok w' →
     ∃ wN',
       (Walker.__iter__ fuel' wN).2 = Ok wN' ∧
       Z.of_nat (length (Walker.__iter__ fuel' wN).1) =
         Z.max 0 (Z.min N (Z.of_nat (length (passing fuel w).1))) ∧
       Walker._num_entries wN' =
         Z.of_nat (length (Walker.__iter__ fuel' wN).1)) ∧
  (∀ fuel w1 oe w2,
     Walker._next fuel w1 = Ok (oe, w2) →
     Walker._num_entries w2 =
       Walker._num_entries w1 + match oe with Some _ => 1 | None => 0 end) ∧
  (∀ fuel w1,
     capped w1 = true → Walker._next (S fuel) w1 = Ok (None, w1)) ∧
  (store_wf store → ∀ fuel,
     (size store < fuel)%nat → (passing fuel w).2 ≠ Diverge).
Proof.
  intros HwN Hw.
  pose proof (init_max _ _ _ _ _ _ (Some N) _ _ _ _ _ _ Hw) as HwN'.
  rewrite HwN in HwN'. injection HwN' as ->.
  pose proof Hw as (_&_&_&_&Hmax&_&_&_&Hnum&_)%walker_init_inv.
  assert (∀ fuel fuel',
            (fuel ≤ fuel')%nat → (passing fuel w).2 ≠ Diverge →
            (iter_next fuel' (set_max_entries (Some N) w)).1 =
              take (Z.to_nat N) (passing fuel w).1 ∧
            ∀ w', (passing fuel w).2 = Ok w' →
                  ∃ wN', (iter_next fuel' (set_max_entries (Some N) w)).2
                         = Ok wN') as Hmain.
  { intros fuel fuel' Hle Hnd.
    destruct (iter_next_passing fuel fuel' w Hmax Hle Hnd) as [Hes Hout].
    destruct (iter_next_cap fuel' N w Hmax) as [Htake Hok].
    rewrite Hnum, Z.sub_0_r, Hes in Htake. split; [done|].
    intros w' Hp. rewrite Hp in Hout.
    destruct (iter_next fuel' w).2 as [w1| |] eqn:Hi; [|done..].
    by apply (Hok w1). }
  split_and!.
  - intros fuel fuel' Hle Hnd.
    destruct (Hmain fuel fuel' Hle Hnd) as [Htake _]. split; [done|].
    destruct (iter_next_passing fuel fuel' w Hmax Hle Hnd) as [_ Hout].
    apply iter_next_cap_returns; [done|]. intros Hd.
    rewrite Hd in Hout. by destruct (passing fuel w).2.
  - intros fuel fuel' w' Hle Hp.
    destruct (Hmain fuel fuel' Hle) as [Htake Hok]; [by rewrite Hp|].
    destruct (Hok w' Hp) as [wN' HrN]. exists wN'.
    split; [by apply iter_Ok|].
    rewrite (iter_Ok_length _ _ _ HrN), Htake, length_take.
    split; [lia|]. rewrite (iter_next_count _ _ _ HrN), Htake, length_take.
    simpl. lia.
  - intros fuel w1 oe w2 Hn. by apply _next_count in Hn as [_ ?].
  - intros fuel w1 Hcap. by rewrite _next_S, Hcap.
  - intros Hwf fuel Hfuel.
    destruct (walker_init_winv _ _ _ _ _ _ _ _ _ _ _ _ Hwf Hw) as [Hinv Hrem].
    apply passing_not_Diverge; [done|lia].
Qed.
End Claim_C4.

Lemma C4_witness :
  let wN := Fixture.built
              (Walker.__init__ Fixture.repo ["d"; "x"] None ORDER_DATE false
                 (Some 2) None None false None (Some 35)) in
  let w := Fixture.built
             (Walker.__init__ Fixture.repo ["d"; "x"] None ORDER_DATE false
                None None None false None (Some 35)) in
  entry_ids (passing Fixture.fuel w).1 = ["c"; "b"; "a"] ∧
  entry_ids (Walker.iter_next Fixture.fuel wN).1 = ["c"; "b"] ∧
  (Walker.iter_next Fixture.fuel wN).1 = take 2 (passing Fixture.fuel w).1.
Proof.
  intros wN w. split; [vm_compute; reflexivity|].
  split; [vm_compute; reflexivity|].
  assert (Walker.__init__ Fixture.repo ["d"; "x"] None ORDER_DATE false
            (Some 2) None None false None (Some 35) = Ok wN) as HwN
    by (vm_compute; reflexivity).
  assert (Walker.__init__ Fixture.repo ["d"; "x"] None ORDER_DATE false
            None None None false None (Some 35) = Ok w) as Hw
    by (vm_compute; reflexivity).
  assert ((passing Fixture.fuel w).2 =
          Ok (Fixture.built (passing Fixture.fuel w).2)) as Hp
    by (vm_compute; reflexivity).
  destruct (C4_max_entries_caps_accepted_entries
              Fixture.repo ["d"; "x"] None ORDER_DATE false 2 None None false
              None (Some 35) wN w HwN Hw) as (Htake & _).
  apply (Htake Fixture.fuel Fixture.fuel (le_n _)).
  rewrite Hp. discriminate.
Defined.

(** The claim as it stands fails for a negative cap: the walker hands out
    no entry, not min (N, number of passing entries) of them. *)
Lemma C4_counterexample :
  let wN := Fixture.built
              (Walker.__init__ Fixture.repo ["d"; "x"] None ORDER_DATE false
                 (Some (-1)) None None false None None) in
  let w := Fixture.built
             (Walker.__init__ Fixture.repo ["d"; "x"] None ORDER_DATE false
                None None None false None None) in
  (Walker.__iter__ Fixture.fuel wN).1 = [] ∧
  length (passing Fixture.fuel w).1 = 5%nat ∧
  Z.of_nat (length (Walker.__iter__ Fixture.fuel wN).1) ≠
    Z.min (-1) (Z.of_nat (length (passing Fixture.fuel w).1)).
Proof.
  intros wN w.
  assert ((Walker.__iter__ Fixture.fuel wN).1 = []) as H0
    by (vm_compute; reflexivity).
  assert (length (passing Fixture.fuel w).1 = 5%nat) as H5
    by (vm_compute; reflexivity).
  split; [exact H0|]. split; [exact H5|]. rewrite H0, H5. simpl. lia.
Qed.

Section Reverse.
Context `{DiffEngine} `{CommitOrder}.
Import Walker.


Lemma init_reverse store include exclude order reverse reverse' max_entries
    paths rename_detector follow since until w :
  __init__ store include exclude order reverse max_entries paths
    rename_detector follow since until = Ok w →
  __init__ store include exclude order reverse' max_entries paths
    rename_detector follow since until = Ok (set_reverse reverse' w).
Proof.
  unfold __init__. case_decide; [done|].
  intros (q & -> & [= <-])%bind_inv_Ok. done.
Qed.

(** [_next] does not read the flag. *)
Lemma _next_reverse fuel v w :
  _next fuel (set_reverse v w) =
  (λ '(oe, w'), (oe, set_reverse v w')) <$> _next fuel w.
Proof.
  revert w. induction fuel as [|fuel IH]; intros w; [done|].
  rewrite !_next_S.
  change (capped (set_reverse v w)) with (capped w).
  destruct (capped w); [done|].
  change (_queue (set_reverse v w)) with (_queue w).
  destruct (_CommitTimeQueue.next (S fuel) (_queue w))
    as [[[e|] q]| |]; try done.
  unfold mbind at 1 3, result_bind. cbv beta iota.
  change (set_queue q (set_reverse v w)) with (set_reverse v (set_queue q w)).
  rewrite (should_return_frame (set_reverse v)) by done.
  destruct (_should_return (set_queue q w) e) as [[[[] e'] w1]| |];
    simpl; try done.
Qed.

Lemma iter_next_reverse fuel v w :
  iter_next fuel (set_reverse v w) =
  ((iter_next fuel w).1, set_reverse v <$> (iter_next fuel w).2).
Proof.
  revert w. induction fuel as [|fuel IH]; intros w; [done|].
  rewrite !iter_next_S, _next_reverse.
  destruct (_next (S fuel) w) as [[[e|] w1]| |]; simpl; try done.
  rewrite IH. by destruct (iter_next fuel w1).
Qed.
End Reverse.

Section Claim_C5.
Context `{DiffEngine} `{CommitOrder}.

(** C5.  The walker built with [reverse=True] hands out the entries of the
    walker built with [reverse=False] from the same arguments, in exactly
    the reverse order.  It runs the forward iteration to its end before it
    hands out anything: when the forward iteration raises after some
    entries, the reversed one raises the same error and has handed out
    none. *)
Theorem C5_reverse_is_exact_reverse store include exclude order max_entries
    paths rename_detector follow since until w_rev w_fwd fuel :
  Walker.__init__ store include exclude order true max_entries paths
    rename_detector follow since until = Ok w_rev →
  Walker.__init__ store include exclude order false max_entries paths
    rename_detector follow since until = Ok w_fwd →
  Walker.__iter__ fuel w_rev =
    match Walker.__iter__ fuel w_fwd with
    | (entries, Ok w') => (rev entries, Ok (set_reverse true w'))
    | (_, Raise e) => ([], Raise e)
    | (_, Diverge) => ([], Diverge)
    end ∧
  (store_wf store → (size store < fuel)%nat →
     (Walker.__iter__ fuel w_fwd).2 ≠ Diverge).
Proof.
  intros Hrev Hfwd.
  pose proof (init_reverse _ _ _ _ _ true _ _ _ _ _ _ _ Hfwd) as Hrev'.
  rewrite Hrev in Hrev'. injection Hrev' as ->.
  pose proof Hfwd as (_&_&_&Hflag&_)%walker_init_inv. split.
  - unfold Walker.__iter__. rewrite Hflag. simpl.
    rewrite iter_next_reverse.
    by destruct (Walker.iter_next fuel w_fwd) as [es [w'| |]].
  - intros Hwf Hfuel.
    destruct (walker_init_winv _ _ _ _ _ _ _ _ _ _ _ _ Hwf Hfwd) as [Hinv Hrem].
    apply iter_not_Diverge; [done|lia].
Qed.
End Claim_C5.

Lemma C5_witness :
  let w_rev := Fixture.built
                 (Walker.__init__ Fixture.repo ["d"; "x"] (Some ["b"])
                    ORDER_DATE true None None None false None None) in
  let w_fwd := Fixture.built
                 (Walker.__init__ Fixture.repo ["d"; "x"] (Some ["b"])
                    ORDER_DATE false None None None false None None) in
  entry_ids (Walker.__iter__ Fixture.fuel w_fwd).1 = ["x"; "d"; "c"] ∧
  Walker.__iter__ Fixture.fuel w_rev =
    match Walker.__iter__ Fixture.fuel w_fwd with
    | (entries, Ok w') => (rev entries, Ok (set_reverse true w'))
    | (_, Raise e) => ([], Raise e)
    | (_, Diverge) => ([], Diverge)
    end.
Proof.
  intros w_rev w_fwd. split; [vm_compute; reflexivity|].
  eapply (C5_reverse_is_exact_reverse
            Fixture.repo ["d"; "x"] (Some ["b"]) ORDER_DATE None None None
            false None None w_rev w_fwd Fixture.fuel);
    vm_compute; reflexivity.
Defined.

Section Claim_C6.
Context `{DiffEngine}.
Import WalkEntry.

Lemma parent_trees_Ok store ps pcs :
  Forall2 (λ p pc, store !! p = Some pc) ps pcs →
  parent_trees store ps = Ok (tree <$> pcs).
Proof.
  induction 1 as [|p pc ps pcs Hp _ IH]; simpl; [done|].
  unfold getitem. rewrite Hp. simpl. by rewrite IH.
Qed.


(** C6.  The first call of [changes] on an entry returns, and caches:
    for a commit without parents the flat diff of the empty tree against
    the commit's tree; for a commit with one parent the flat diff of that
    parent's tree against the commit's tree; for a commit with two or more
    parents one diff per parent, each of that parent's tree against the
    commit's tree, in the order of the parents.  A later call returns the
    cached value. *)
Theorem C6_changes_by_number_of_parents (self : t) :
  _changes self = None →
  let diff old_tree :=
    tree_changes (_store self) old_tree (tree (commit self))
      (_rename_detector self) in
  (parents (commit self) = [] →
     changes self = Ok (Flat (diff None), cached self (Flat (diff None)))) ∧
  (∀ p pc,
     parents (commit self) = [p] → _store self !! p = Some pc →
     changes self =
       Ok (Flat (diff (Some (tree pc))),
           cached self (Flat (diff (Some (tree pc)))))) ∧
  (∀ pcs,
     (2 ≤ length (parents (commit self)))%nat →
     Forall2 (λ p pc, _store self !! p = Some pc)
       (parents (commit self)) pcs →
     let per_parent := (λ pc, diff (Some (tree pc))) <$> pcs in
     changes self = Ok (Nested per_parent, cached self (Nested per_parent))) ∧
  (∀ ch self',
     changes self = Ok (ch, self') → changes self' = Ok (ch, self')).
Proof.
  intros Hnone diff. unfold changes. rewrite Hnone. split_and!.
  - by intros ->.
  - intros p pc -> Hp. unfold getitem. by rewrite Hp.
  - intros pcs Hlen Hall.
    destruct (parents (commit self)) as [|p [|p' ps]] eqn:Hps;
      [simpl in Hlen; lia..|].
    rewrite (parent_trees_Ok _ _ _ Hall). simpl.
    unfold tree_changes_for_merge. by rewrite <-list_fmap_compose.
  - intros ch self' (ch' & _ & [= <- <-])%bind_inv_Ok. done.
Qed.
End Claim_C6.

Lemma C6_witness :
  let self := WalkEntry.__init__ Fixture.repo (Some tt) Fixture.d in
  let diff old_tree := tree_changes Fixture.repo (Some old_tree) "new.txt"
                         (Some tt) in
  WalkEntry._changes self = None ∧
  (WalkEntry.changes self) =
    Ok (Nested [diff "old.txt"; diff "new.txt"],
        cached self (Nested [diff "old.txt"; diff "new.txt"])).
Proof.
  intros self diff. split; [reflexivity|].
  destruct (C6_changes_by_number_of_parents self eq_refl)
    as (_ & _ & Hmerge & _).
  apply (Hmerge [Fixture.b; Fixture.c]).
  - simpl. lia.
  - repeat constructor.
Defined.

Section PathMatching.
Context `{DiffEngine} `{CommitOrder}.
Import Walker.



Lemma append_cons a f rest : String a f +:+ rest = String a (f +:+ rest).
Proof. reflexivity. Qed.

Lemma append_empty_l rest : "" +:+ rest = rest.
Proof. reflexivity. Qed.

Lemma prefix_append f p :
  String.prefix f p = true ↔ ∃ rest, p = f +:+ rest.
Proof.
  revert p. induction f as [|a f IH]; intros [|b p]; simpl.
  - split; [by exists ""|done].
  - split; [by exists (String b p)|done].
  - split; [done|]. intros [rest Hr]. by rewrite append_cons in Hr.
  - destruct (Ascii.ascii_dec a b) as [->|Hab].
    + rewrite IH. split; intros [rest Hr]; exists rest;
        rewrite append_cons in *; congruence.
    + split; [done|]. intros [rest Hr]. rewrite append_cons in Hr. congruence.
Qed.

Lemma get_length_append f rest :
  String.get (String.length f) (f +:+ rest) = String.get 0 rest.
Proof.
  induction f as [|a f IH]; [done|]. rewrite append_cons. simpl. apply IH.
Qed.

Lemma append_inj f a b : f +:+ a = f +:+ b → a = b.
Proof.
  induction f as [|c f IH]; [done|]. rewrite !append_cons.
  intros [= ?]. by apply IH.
Qed.

Lemma append_empty_r f : f +:+ "" = f.
Proof.
  induction f as [|c f IH]; [done|]. by rewrite append_cons, IH.
Qed.

Lemma path_matches_loop_spec p l :
  None ∉ l →
  ∃ b, path_matches_loop p l = Ok b ∧
       (b = true ↔ ∃ f, Some f ∈ l ∧ path_under f p).
Proof.
  induction l as [|[f|] l IH]; simpl; intros Hl.
  - exists false. split; [done|]. split; [done|].
    by intros (f & ?%elem_of_nil & _).
  - destruct IH as (b & Hb & Hiff); [set_solver|].
    assert (¬ path_under f p → ∃ b', Ok b = Ok b' ∧
              (b' = true ↔ ∃ f', Some f' ∈ Some f :: l ∧ path_under f' p))
      as Hskip.
    { intros Hf. exists b. split; [done|]. rewrite Hiff.
      split; intros (f' & Hin & Hu); exists f'; [set_solver|].
      apply elem_of_cons in Hin as [[= ->]|Hin]; done. }
    case_decide as Heq.
    { exists true. split; [done|]. split; [|done]. intros _.
      exists f. split; [set_solver|]. left. congruence. }
    destruct (String.prefix f p) eqn:Hpre.
    + apply prefix_append in Hpre as [rest ->].
      rewrite get_length_append. destruct rest as [|c rest]; simpl.
      { by rewrite append_empty_r in Heq. }
      case_decide as Hc.
      * subst c. exists true. split; [done|]. split; [|done]. intros _.
        exists f. split; [set_solver|]. right. by exists rest.
      * rewrite Hb. apply Hskip.
        intros [Hu|[rest' Hu]]; [congruence|].
        by apply append_inj in Hu as [= ? ?].
    + rewrite Hb. apply Hskip. intros [->|[rest ->]].
      * assert (String.prefix f f = true) as Ht
          by (apply prefix_append; exists ""; by rewrite append_empty_r).
        congruence.
      * assert (String.prefix f (f +:+ "/" +:+ rest) = true) as Ht
          by (apply prefix_append; eauto).
        congruence.
  - set_solver.
Qed.

Lemma path_matches_spec w ps p :
  paths w = Some ps → None ∉ ps →
  ∃ b, _path_matches w p = Ok b ∧ (b = true ↔ side_matches ps p).
Proof.
  intros Hps Hnone. destruct p as [p|]; simpl.
  - rewrite Hps.
    destruct (path_matches_loop_spec p (elements ps)) as (b & Hb & Hiff);
      [by rewrite elem_of_elements|].
    exists b. split; [done|]. rewrite Hiff. unfold side_matches.
    setoid_rewrite elem_of_elements. naive_solver.
  - exists false. split; [done|]. split; [done|].
    by intros (? & ? & ? & _).
Qed.
End PathMatching.

Section Claim_C7.
Context `{DiffEngine} `{CommitOrder}.
Import Walker.

Lemma change_matches_spec w ps change b w' :
  paths w = Some ps → None ∉ ps →
  _change_matches w change = Ok (b, w') →
  b = true ↔
    side_matches ps (path (new change)) ∨ side_matches ps (path (old change)).
Proof.
  intros Hps Hnone. unfold _change_matches.
  destruct (path_matches_spec w ps (path (new change)) Hps Hnone)
    as (bn & -> & Hn).
  destruct (path_matches_spec w ps (path (old change)) Hps Hnone)
    as (bo & -> & Ho).
  simpl. destruct bn.
  - intros Hc. assert (b = true) as ->; [|naive_solver].
    destruct (follow w && bool_decide _); [|by injection Hc].
    rewrite Hps in Hc. case_decide; [by injection Hc|done].
  - simpl. intros [= <- _]. rewrite Ho. split; [by right|].
    intros [Hm|Hm]; [|done]. by apply Hn in Hm.
Qed.

(** C7.  A changed path matches exactly when it is a followed path or
    starts with a followed path and a [/] right after it; a side of a
    change without a path does not match; a change matches exactly when
    its new side or its old side does.  So [dir/file.txt] is matched by
    the followed path [dir] and not by [dir2], and [dirfile.txt] is not
    matched by [dir]. *)
Theorem C7_path_matches_on_separator_boundary w ps :
  paths w = Some ps → None ∉ ps →
  (∀ p, ∃ b,
     _path_matches w (Some p) = Ok b ∧
     (b = true ↔
      ∃ f, Some f ∈ ps ∧ (p = f ∨ ∃ rest, p = f +:+ "/" +:+ rest))) ∧
  _path_matches w None = Ok false ∧
  (∀ change b w',
     _change_matches w change = Ok (b, w') →
     b = true ↔
       side_matches ps (path (new change)) ∨
       side_matches ps (path (old change))) ∧
  (follow w = false → ∀ change, ∃ b, _change_matches w change = Ok (b, w)) ∧
  (ps = {[Some "dir"]} →
     _path_matches w (Some "dir/file.txt") = Ok true ∧
     _path_matches w (Some "dirfile.txt") = Ok false) ∧
  (ps = {[Some "dir2"]} → _path_matches w (Some "dir/file.txt") = Ok false).
Proof.
  intros Hps Hnone.
  assert (∀ p, ∃ b,
     _path_matches w (Some p) = Ok b ∧
     (b = true ↔
      ∃ f, Some f ∈ ps ∧ (p = f ∨ ∃ rest, p = f +:+ "/" +:+ rest)))
    as Hmatch.
  { intros p. destruct (path_matches_spec w ps (Some p) Hps Hnone)
      as (b & Hb & Hiff).
    exists b. split; [done|]. rewrite Hiff. unfold side_matches, path_under.
    naive_solver. }
  split_and!.
  - done.
  - done.
  - intros change b w'. by apply change_matches_spec.
  - intros Hfollow change. unfold _change_matches. rewrite Hfollow.
    destruct (path_matches_spec w ps (path (new change)) Hps Hnone)
      as ([] & -> & _); simpl; [by eauto|].
    destruct (path_matches_spec w ps (path (old change)) Hps Hnone)
      as (bo & -> & _). simpl. by eauto.
  - intros ->. split.
    + destruct (Hmatch "dir/file.txt") as (b & -> & Hiff). f_equal.
      apply Hiff. exists "dir". split; [set_solver|]. right.
      by exists "file.txt".
    + destruct (Hmatch "dirfile.txt") as ([] & -> & Hiff); [|done].
      destruct Hiff as [Hiff _].
      destruct (Hiff eq_refl) as (f & [= ->]%elem_of_singleton & [?|[? ?]]);
        done.
  - intros ->.
    destruct (Hmatch "dir/file.txt") as ([] & -> & Hiff); [|done].
    destruct Hiff as [Hiff _].
    destruct (Hiff eq_refl) as (f & [= ->]%elem_of_singleton & [?|[? ?]]);
      done.
Qed.
End Claim_C7.

Lemma C7_witness :
  let w := Fixture.built
             (Walker.__init__ Fixture.repo ["d"; "x"] None ORDER_DATE false
                None (Some ["dir"]) None false None None) in
  Walker._path_matches w (Some "dir/file.txt") = Ok true ∧
  Walker._path_matches w (Some "dirfile.txt") = Ok false.
Proof.
  intros w.
  destruct (C7_path_matches_on_separator_boundary w {[Some "dir"]})
    as (_ & _ & _ & _ & Hdir & _).
  - vm_compute; reflexivity.
  - apply (bool_decide_unpack _). by vm_compute.
  - by apply Hdir.
Defined.

Section Claim_C8.
Context `{DiffEngine} `{CommitOrder}.
Import Walker.

(** Follow mode, a rename or copy whose new path is itself a followed path:
    the change is accepted, its old path is followed from then on and its
    new path no longer. *)
Lemma change_matches_follow_exact w ps change new_path :
  follow w = true → paths w = Some ps → None ∉ ps →
  type change ∈ RENAME_CHANGE_TYPES →
  path (new change) = Some new_path → Some new_path ∈ ps →
  _change_matches w change =
    Ok (true,
        set_paths (Some (({[path (old change)]} ∪ ps) ∖ {[Some new_path]})) w).
Proof.
  intros Hfollow Hps Hnone Htype Hnew Hin. unfold _change_matches.
  destruct (path_matches_spec w ps (path (new change)) Hps Hnone)
    as (b & -> & Hb).
  assert (b = true) as ->.
  { apply Hb. exists new_path, new_path. split_and!; [done|done|by left]. }
  simpl. rewrite Hfollow, bool_decide_eq_true_2 by done. simpl.
  rewrite Hps, Hnew. rewrite decide_True by set_solver. done.
Qed.

(** C8 fails on the code.  In follow mode, a rename or copy whose new path
    lies below a followed directory (it matches, and is not itself in the
    followed-path set) is not accepted: [self.paths.remove(new_path)] raises
    [KeyError]. *)
Theorem C8_follow_rename_below_directory_raises w ps change new_path :
  follow w = true → paths w = Some ps → None ∉ ps →
  type change ∈ RENAME_CHANGE_TYPES →
  path (new change) = Some new_path →
  side_matches ps (Some new_path) →
  Some new_path ∉ ps → path (old change) ≠ Some new_path →
  _path_matches w (path (new change)) = Ok true ∧
  _change_matches w change = Raise (KeyError (Some new_path)).
Proof.
  intros Hfollow Hps Hnone Htype Hnew Hmatch Hin Hold.
  destruct (path_matches_spec w ps (path (new change)) Hps Hnone)
    as (b & Hb & Hiff).
  assert (b = true) as -> by (apply Hiff; by rewrite Hnew).
  split; [done|]. unfold _change_matches. rewrite Hb. simpl.
  rewrite Hfollow, bool_decide_eq_true_2 by done. simpl.
  rewrite Hps, Hnew. rewrite decide_False by set_solver. done.
Qed.
End Claim_C8.

Lemma C8_witness :
  let w := Fixture.built
             (Walker.__init__ Fixture.repo ["x"] None ORDER_DATE false None
                (Some ["dir"]) None true None None) in
  let change :=
    {| type := CHANGE_RENAME; old := Fixture.entry_at "old.txt";
       new := Fixture.entry_at "dir/file.txt" |} in
  Walker._path_matches w (Some "dir/file.txt") = Ok true ∧
  Walker._change_matches w change = Raise (KeyError (Some "dir/file.txt")) ∧
  Walker.__iter__ Fixture.fuel w = ([], Raise (KeyError (Some "dir/file.txt"))).
Proof.
  intros w change.
  destruct (C8_follow_rename_below_directory_raises
              w {[Some "dir"]} change "dir/file.txt")
    as [Hm Hc]; try (vm_compute; reflexivity).
  - apply (bool_decide_unpack _). by vm_compute.
  - apply (bool_decide_unpack _). by vm_compute.
  - exists "dir/file.txt", "dir". split_and!; [done|set_solver|].
    right. by exists "file.txt".
  - apply (bool_decide_unpack _). by vm_compute.
  - done.
  - split; [exact Hm|]. split; [exact Hc|]. vm_compute; reflexivity.
Defined.

Section Claim_C9.
Context `{DiffEngine} `{CommitOrder}.

Lemma iter_Raise fuel w es e :
  Walker.iter_next fuel w = (es, Raise e) →
  Walker.__iter__ fuel w = (if Walker.reverse w then [] else es, Raise e).
Proof.
  intros Hi. unfold Walker.__iter__. rewrite Hi.
  by destruct (Walker.reverse w).
Qed.

(** C9.  A commit identifier that the store does not have makes the walk
    raise [MissingCommitError] with that identifier: in [_push]; at
    construction, for the first such identifier among the include seeds
    followed by the exclude seeds; and in a round of the queue that gets to
    enqueue the parents of the popped commit, for the first such parent.
    Nothing catches the error.  [next] ends with the error of a round
    whatever number of excluded commits it has skipped before in the same
    call; [Walker._next] ends with the error of the queue, or of the
    filter, whatever number of entries it has rejected before in the same
    call; the iteration ends with the error of [Walker._next] after the
    entries it has handed out before (none of them when reversed). *)
Theorem C9_missing_commit_raises (store : Store) (include : list string)
    (exclude : option (list string)) reverse max_entries paths rename_detector
    follow since until :
  (∀ q k,
     _CommitTimeQueue._store q !! k = None →
     _CommitTimeQueue._push q k = Raise (MissingCommitError k)) ∧
  (∀ present k rest,
     (include ++ elements (list_to_set (default [] exclude) : gset string)
        = present ++ k :: rest)%list →
     (∀ k', k' ∈ present → is_Some (store !! k')) →
     store !! k = None →
     Walker.__init__ store include exclude ORDER_DATE reverse max_entries
       paths rename_detector follow since until
     = Raise (MissingCommitError k)) ∧
  (∀ q c present k rest,
     id c ∈ _CommitTimeQueue._pq_set q →
     id c ∉ _CommitTimeQueue._done q →
     (visited q c).2 = false →
     parents c = (present ++ k :: rest)%list →
     (∀ k', k' ∈ present → is_Some (_CommitTimeQueue._store q !! k')) →
     _CommitTimeQueue._store q !! k = None →
     _CommitTimeQueue.next_body q c = Raise (MissingCommitError k)) ∧
  (∀ fuel q cs q1 c e,
     continues q cs q1 →
     round q1 = Some (c, Raise e) →
     _CommitTimeQueue.next (length cs + S fuel) q = Raise e) ∧
  (∀ fuel w e,
     capped w = false →
     _CommitTimeQueue.next (S fuel) (Walker._queue w) = Raise e →
     Walker._next (S fuel) w = Raise e) ∧
  (∀ w w1 e,
     rtc rejected w w1 → pull_raises w1 e →
     ∃ n, ∀ fuel, (n ≤ fuel)%nat → Walker._next fuel w = Raise e) ∧
  (∀ fuel w e,
     Walker._next (S fuel) w = Raise e →
     Walker.iter_next (S fuel) w = ([], Raise e) ∧
     Walker.__iter__ (S fuel) w = ([], Raise e)) ∧
  (∀ w es w1 e,
     yields w es w1 → (∃ n, Walker._next n w1 = Raise e) →
     ∃ n, ∀ fuel, (n ≤ fuel)%nat →
       Walker.iter_next fuel w = (es, Raise e) ∧
       Walker.__iter__ fuel w =
         (if Walker.reverse w then [] else es, Raise e)).
Proof.
  split_and!.
  - apply push_missing.
  - intros present k rest Hseeds Hall Hk. unfold Walker.__init__.
    rewrite decide_False by (unfold ORDER_DATE; set_solver).
    unfold _CommitTimeQueue.__init__. rewrite Hseeds.
    by rewrite push_each_missing.
  - intros q c present k rest Hin Hnot Hstop Hps Hall Hk.
    rewrite next_body_eq, Hstop, Hps by done.
    destruct (visited_frame q c) as (E1 & _).
    rewrite push_each_missing; [done|by rewrite E1..].
  - intros fuel q cs q1 c e Hcs Hr.
    by rewrite (next_continues _ _ _ _ Hcs), next_S, Hr.
  - intros fuel w e Hcap Hn.
    pose proof (_next_cases fuel w Hcap) as Hc. by rewrite Hn in Hc.
  - apply _next_rejected.
  - intros fuel w e Hn.
    assert (Walker.iter_next (S fuel) w = ([], Raise e)) as Hi
      by (by rewrite iter_next_S, Hn).
    split; [done|]. rewrite (iter_Raise _ _ _ _ Hi).
    by destruct (Walker.reverse w).
  - intros w es w1 e Hy Hx.
    destruct (iter_next_yields _ _ _ _ Hy Hx) as [n Hn].
    exists n. intros fuel Hle. split; [by apply Hn|].
    apply iter_Raise. by apply Hn.
Qed.
End Claim_C9.

Lemma C9_witness :
  let w := Fixture.built
             (Walker.__init__ Dangling.store ["m2"] (Some ["y"]) ORDER_DATE
                false None None None false None None) in
  let w65 := Fixture.built
               (Walker.__init__ Dangling.store ["y"; "m2"] None ORDER_DATE
                  false None None None false None (Some 65)) in
  Walker.__init__ Fixture.repo ["d"; "gone"] (Some ["b"]) ORDER_DATE false None
    None None false None None = Raise (MissingCommitError "gone") ∧
  round (Walker._queue w) =
    Some (Dangling.y,
          Ok (_CommitTimeQueue.Continue
                (Dangling.after_round (Walker._queue w)))) ∧
  _CommitTimeQueue.next 2 (Walker._queue w) =
    Raise (MissingCommitError "gone") ∧
  Walker.__iter__ 3 w = ([], Raise (MissingCommitError "gone")) ∧
  ∃ n, ∀ fuel, (n ≤ fuel)%nat →
       Walker._next fuel w65 = Raise (MissingCommitError "gone").
Proof.
  intros w w65.
  destruct (C9_missing_commit_raises Fixture.repo ["d"; "gone"] (Some ["b"])
              false None None None false None None)
    as (_ & Hseed & _ & Hnext & Hwalker & Hrej & Hiter & _).
  assert (round (Walker._queue w) =
            Some (Dangling.y,
                  Ok (_CommitTimeQueue.Continue
                        (Dangling.after_round (Walker._queue w))))) as Hr
    by (vm_compute; reflexivity).
  assert (round (Dangling.after_round (Walker._queue w)) =
            Some (Dangling.m2, Raise (MissingCommitError "gone"))) as Hr2
    by (vm_compute; reflexivity).
  assert (_CommitTimeQueue.next 2 (Walker._queue w) =
            Raise (MissingCommitError "gone")) as Hn.
  { apply (Hnext 0%nat (Walker._queue w) [Dangling.y]
             (Dangling.after_round (Walker._queue w)) Dangling.m2
             (MissingCommitError "gone")); [|exact Hr2].
    eapply continues_cons; [exact Hr|constructor]. }
  split_and!.
  - apply (Hseed ["d"] "gone" ["b"]); [by vm_compute| |by vm_compute].
    intros k' ->%list_elem_of_singleton. by exists Fixture.d.
  - exact Hr.
  - exact Hn.
  - apply (Hiter 2%nat), (Hwalker 2%nat); [reflexivity|].
    assert (_CommitTimeQueue.next 3 (Walker._queue w) =
            _CommitTimeQueue.next 2 (Walker._queue w)) as ->
      by (vm_compute; reflexivity).
    exact Hn.
  - apply (Hrej w65 (Walker.set_queue
                       (Dangling.after_round (Walker._queue w65)) w65)).
    + apply rtc_once. split; [reflexivity|].
      exists 1%nat,
        (WalkEntry.__init__ Dangling.store None Dangling.y),
        (Dangling.after_round (Walker._queue w65)),
        (WalkEntry.__init__ Dangling.store None Dangling.y).
      split; vm_compute; reflexivity.
    + split; [reflexivity|]. left. exists 1%nat. vm_compute; reflexivity.
Defined.

Section Claim_C10.
Context `{DiffEngine} `{CommitOrder}.


(** C10.  A walker built with an empty list of paths is the walker built
    without paths: the two constructions give the same result, and the
    walker has no path filter ([paths] is [None]).  A walker without a path
    filter accepts every entry whose commit is within the time bounds, and
    leaves the entry and itself as they are: the changes are not
    computed. *)
Theorem C10_empty_paths_is_no_path_filter store include exclude order reverse
    max_entries rename_detector follow since until :
  Walker.__init__ store include exclude order reverse max_entries (Some [])
    rename_detector follow since until =
  Walker.__init__ store include exclude order reverse max_entries None
    rename_detector follow since until ∧
  (∀ w,
     Walker.__init__ store include exclude order reverse max_entries (Some [])
       rename_detector follow since until = Ok w →
     Walker.paths w = None) ∧
  (∀ w e,
     Walker.paths w = None → within_bounds w (WalkEntry.commit e) →
     Walker._should_return w e = Ok (true, e, w)).
Proof.
  split_and!.
  - done.
  - unfold Walker.__init__. intros w. case_decide; [done|].
    by intros (q & _ & [= <-])%bind_inv_Ok.
  - intros w e Hpaths [Hsince Huntil]. unfold Walker._should_return.
    rewrite Hpaths.
    destruct (Walker.since w) as [s|]; [specialize (Hsince s eq_refl)|];
      (destruct (Walker.until w) as [u|]; [specialize (Huntil u eq_refl)|]);
      repeat match goal with
             | |- context [?a <? ?b] =>
                 destruct (Z.ltb_spec a b); [lia|]
             | |- context [?a >? ?b] =>
                 rewrite (Z.gtb_ltb a b); destruct (Z.ltb_spec b a); [lia|]
             end; done.
Qed.
End Claim_C10.

Lemma C10_witness :
  let w := Fixture.built
             (Walker.__init__ Fixture.repo ["d"] None ORDER_DATE false None
                (Some []) None false (Some 20) (Some 40)) in
  let entry := WalkEntry.__init__ Fixture.repo None Fixture.c in
  Walker.paths w = None ∧
  Walker._should_return w entry = Ok (true, entry, w).
Proof.
  intros w entry.
  destruct (C10_empty_paths_is_no_path_filter Fixture.repo ["d"] None
              ORDER_DATE false None None false (Some 20) (Some 40))
    as (_ & Hpaths & Haccept).
  split.
  - apply Hpaths. vm_compute; reflexivity.
  - apply Haccept; [vm_compute; reflexivity|].
    split; intros ? [= <-]; by vm_compute.
Defined.

(** * End-to-end scenarios

    The walks of the linear history: from the tip everything is emitted,
    tip first; with [B] excluded only [D] and [C] are. *)

Example chain_walk :
  let w := Fixture.built
             (Walker.__init__ Fixture.chain ["D"] None ORDER_DATE false None
                None None false None None) in
  entry_ids (Walker.__iter__ 5 w).1 = ["D"; "C"; "B"; "A"].
Proof. vm_compute. reflexivity. Qed.

Example chain_walk_exclude :
  let w := Fixture.built
             (Walker.__init__ Fixture.chain ["D"] (Some ["B"]) ORDER_DATE
                false None None None false None None) in
  entry_ids (Walker.__iter__ 5 w).1 = ["D"; "C"].
Proof. vm_compute. reflexivity. Qed.

(** * Further properties of the walk *)

(* ---------- proofs ---------- *)
Section IterInvariant.
Context `{DiffEngine} `{CommitOrder}.

(** An invariant [I] of the walker and a property [P] of the entries it
    hands out, given what [next] and [_should_return] keep; [E] are the
    errors they may raise. *)
Variable I : Walker.t → Prop.
Variable Pq P : WalkEntry.t → Prop.
Variable E : exn → Prop.
Hypothesis I_num : ∀ n w, I w → I (Walker.set_num_entries n w).
Hypothesis H_next : ∀ fuel w,
  I w →
  match _CommitTimeQueue.next fuel (Walker._queue w) with
  | Ok (oe, q') => I (Walker.set_queue q' w) ∧ ∀ e, oe = Some e → Pq e
  | Raise x => E x
  | Diverge => True
  end.
Hypothesis H_accept : ∀ w e,
  I w → Pq e →
  match Walker._should_return w e with
  | Ok (b, e', w') => I w' ∧ (b = true → P e')
  | Raise x => E x
  | Diverge => True
  end.

Lemma _next_invariant fuel w :
  I w →
  match Walker._next fuel w with
  | Ok (oe, w') => I w' ∧ ∀ e, oe = Some e → P e
  | Raise x => E x
  | Diverge => True
  end.
Proof.
  revert w. induction fuel as [|fuel IH]; intros w Hw; [done|].
  destruct (capped w) eqn:Hcap.
  { rewrite _next_S, Hcap. done. }
  pose proof (_next_cases fuel w Hcap) as Hc.
  pose proof (H_next (S fuel) w Hw) as Hn.
  destruct (_CommitTimeQueue.next (S fuel) (Walker._queue w))
    as [[[e|] q]| |]; [| |by rewrite Hc..].
  - destruct Hn as [Hq He]. specialize (He e eq_refl).
    pose proof (H_accept _ e Hq He) as Hs.
    destruct (Walker._should_return (Walker.set_queue q w) e)
      as [[[[] e'] w1]| |]; [| |by rewrite Hc|done].
    + destruct Hc as (_ & _ & ->). destruct Hs as [Hw1 HP].
      split; [by apply I_num|]. intros ? [= <-]. by apply HP.
    + destruct Hc as (_ & ->). destruct Hs as [Hw1 _]. by apply IH.
  - rewrite Hc. by destruct Hn.
Qed.

Lemma iter_next_invariant fuel w :
  I w →
  Forall P (Walker.iter_next fuel w).1 ∧
  match (Walker.iter_next fuel w).2 with
  | Ok w' => I w'
  | Raise x => E x
  | Diverge => True
  end.
Proof.
  revert w. induction fuel as [|fuel IH]; intros w Hw; [done|].
  rewrite iter_next_S. pose proof (_next_invariant (S fuel) w Hw) as Hn.
  destruct (Walker._next (S fuel) w) as [[[e|] w']| |]; simpl;
    [|by split; [constructor|destruct Hn]|by split; [constructor|]..].
  destruct Hn as [Hw' He]. destruct (IH w' Hw') as [IH1 IH2].
  destruct (Walker.iter_next fuel w') as [es r]. simpl in *.
  split; [|done]. constructor; [by apply He|done].
Qed.

Lemma iter_invariant fuel w :
  I w →
  Forall P (Walker.__iter__ fuel w).1 ∧
  match (Walker.__iter__ fuel w).2 with
  | Ok w' => I w'
  | Raise x => E x
  | Diverge => True
  end.
Proof.
  intros Hw. destruct (iter_next_invariant fuel w Hw) as [HP Hr].
  unfold Walker.__iter__. destruct (Walker.reverse w); [|done].
  destruct (Walker.iter_next fuel w) as [es [w'| |]]; simpl in *; try done.
  split; [|done]. by apply Forall_rev.
Qed.
End IterInvariant.

Section QueueEntries.
Context `{DiffEngine} `{CommitOrder}.
Import _CommitTimeQueue.

(** A round that returns an entry: the entry wraps the popped commit, which
    is a commit of the store, is not excluded, and has all its parents in
    the store. *)
Lemma round_Return q c f :
  store_wf (_store q) → qinv q → round q = Some (c, Ok f) →
  _rename_detector (flow_state f) = _rename_detector q ∧
  ∀ e q', f = Return e q' →
    e = WalkEntry.__init__ (_store q) (_rename_detector q) c ∧
    (id c ∉ _excluded q) ∧
    _store q !! id c = Some c ∧
    ∀ p, p ∈ parents c → is_Some (_store q !! p).
Proof.
  intros Hwf Hq Hr.
  destruct (round_spec q c _ Hwf Hq Hr) as (Hin & Hnot & Hlook & _).
  apply round_Some in Hr as (time & pq' & Hpq & Hr).
  rewrite next_body_eq in Hr by done.
  destruct (visited_frame (set_pq pq' q) c) as (E1 & E2 & _).
  destruct (visited (set_pq pq' q) c) as [q1 stop]. simpl in *.
  destruct stop; simpl in Hr.
  { injection Hr as ->. by split. }
  destruct (push_each q1 (parents c)) as [q2| |] eqn:Hp; simpl in Hr; [|done..].
  destruct (push_each_frame _ _ _ Hp) as (F1 & F2 & _).
  destruct (push_each_pq_set _ _ _ Hp) as (Hall & _).
  case_bool_decide as Hex; injection Hr as ->; simpl;
    (split; [congruence|]); [done|].
  intros e q' [= <- <-]. split_and!; [congruence|done|done|].
  intros p Hp'. apply elem_of_dom. rewrite <-E1. by apply Hall.
Qed.

Lemma next_entry fuel q :
  store_wf (_store q) → qinv q →
  match next fuel q with
  | Ok (oe, q') =>
      qinv q' ∧ _store q' = _store q ∧
      _rename_detector q' = _rename_detector q ∧
      ∀ e, oe = Some e → queue_entry (_store q) (_rename_detector q) e
  | Raise x => dangling (_store q) x
  | Diverge => True
  end.
Proof.
  revert q. induction fuel as [|fuel IH]; intros q Hwf Hq; [done|].
  rewrite next_S. destruct (round q) as [[c r]|] eqn:Hr; [|done].
  pose proof (round_spec q c r Hwf Hq Hr) as (_ & _ & Hlook & Hspec).
  destruct r as [f|x|]; simpl; [| |done].
  - destruct Hspec as (Hq' & Hst & _).
    destruct (round_Return q c f Hwf Hq Hr) as [Hrd Hret].
    destruct f as [q1|q1|e q1]; simpl in *.
    + specialize (IH q1). rewrite Hst, Hrd in IH. specialize (IH Hwf Hq').
      destruct (next fuel q1) as [[oe q']| |]; [|done..].
      destruct IH as (? & ? & ? & ?). split_and!; try done; congruence.
    + done.
    + split_and!; try done. intros ? [= <-].
      destruct (Hret e q1 eq_refl) as (-> & _ & Hlook' & Hps). by split.
  - destruct Hspec as (k & -> & Hin & Hk). by exists (id c), c, k.
Qed.
End QueueEntries.

Section AcceptedEntries.
Context `{DiffEngine} `{CommitOrder}.

(** The entry [changes] hands back is the entry itself, or the entry with
    the computed changes cached. *)
Lemma changes_shape e ch e' :
  WalkEntry.changes e = Ok (ch, e') →
  (WalkEntry._changes e = Some ch ∧ e' = e) ∨
  (WalkEntry._changes e = None ∧ e' = cached e ch).
Proof.
  unfold WalkEntry.changes. destruct (WalkEntry._changes e) as [ch0|].
  - intros [= <- <-]. by left.
  - intros (ch' & _ & [= <- <-])%bind_inv_Ok. by right.
Qed.

Lemma should_return_shape w e b e' w' :
  Walker._should_return w e = Ok (b, e', w') →
  (e' = e ∧ (Walker.paths w = None ∨ b = false)) ∨
  (is_Some (Walker.paths w) ∧ ∃ ch, WalkEntry.changes e = Ok (ch, e')).
Proof.
  unfold Walker._should_return.
  destruct (match Walker.since w with Some _ => _ | None => _ end);
    [intros [= <- <- <-]; left; eauto|].
  destruct (match Walker.until w with Some _ => _ | None => _ end);
    [intros [= <- <- <-]; left; eauto|].
  destruct (Walker.paths w) as [ps|]; [|intros [= <- <- <-]; left; eauto].
  destruct (WalkEntry.changes e) as [[ch e1]| |]; simpl; [|done..].
  intros Hr. right. split; [done|]. exists ch. f_equal. f_equal.
  destruct (1 <? _)%nat, ch as [cs|css]; try done.
  - by destruct (Walker.any_path_changes_match w css) as [[b1 w1]| |];
      simplify_eq/=.
  - by destruct (Walker.any_change_matches w cs) as [[b1 w1]| |];
      simplify_eq/=.
Qed.

Lemma should_return_true_bounds w e e' w' :
  Walker._should_return w e = Ok (true, e', w') →
  within_bounds w (WalkEntry.commit e).
Proof.
  unfold Walker._should_return, within_bounds.
  destruct (Walker.since w) as [s|], (Walker.until w) as [u|];
    repeat match goal with
           | |- context [?a <? ?b] => destruct (Z.ltb_spec a b); [done|]
           | |- context [?a >? ?b] =>
               rewrite (Z.gtb_ltb a b); destruct (Z.ltb_spec b a); [done|]
           end;
    intros _; split; intros ? [= <-]; lia.
Qed.

(** X1.  Every entry the walker hands out has a commit time within the
    bounds [since] and [until] of the walker, both inclusive. *)
Theorem emitted_entries_within_time_bounds w fuel :
  Forall (λ e, within_bounds w (WalkEntry.commit e))
    (Walker.__iter__ fuel w).1.
Proof.
  refine (proj1 (iter_invariant
    (λ w1, Walker.since w1 = Walker.since w ∧
           Walker.until w1 = Walker.until w)
    (λ _, True) _ (λ _, True) _ _ _ fuel w _)); try done.
  - intros fuel' w1 [Hs Hu].
    by destruct (_CommitTimeQueue.next fuel' (Walker._queue w1))
      as [[oe q']| |].
  - intros w1 e [Hs Hu] _.
    pose proof (should_return_inv w1 e) as Hi.
    destruct (Walker._should_return w1 e) as [[[b e'] w']| |] eqn:Hr;
      [|done..].
    destruct Hi as (Hc & ps & ->). split; [done|]. intros ->.
    apply should_return_true_bounds in Hr. rewrite Hc.
    unfold within_bounds in *. simpl in Hr. by rewrite <-Hs, <-Hu.
Qed.
End AcceptedEntries.

Section PathFilter.
Context `{DiffEngine} `{CommitOrder}.
Import Walker.

Lemma change_matches_nofollow w ps c :
  follow w = false → paths w = Some ps → None ∉ ps →
  ∃ b, _change_matches w c = Ok (b, w) ∧ (b = true ↔ change_hits ps c).
Proof.
  intros Hf Hps Hnone. unfold _change_matches, change_hits. rewrite Hf.
  destruct (path_matches_spec w ps (path (new c)) Hps Hnone)
    as ([] & -> & Hn); simpl.
  - exists true. naive_solver.
  - destruct (path_matches_spec w ps (path (old c)) Hps Hnone)
      as (bo & -> & Ho). simpl. exists bo. split; [done|].
    rewrite Ho. split; [by right|]. intros [Hm|Hm]; [|done].
    by apply Hn in Hm.
Qed.

Lemma any_change_matches_nofollow w ps cs :
  follow w = false → paths w = Some ps → None ∉ ps →
  ∃ b, any_change_matches w cs = Ok (b, w) ∧
       (b = true ↔ Exists (change_hits ps) cs).
Proof.
  intros Hf Hps Hnone. induction cs as [|c cs (b & IH & Hb)]; simpl.
  { exists false. split; [done|]. split; [done|]. by intros ?%Exists_nil. }
  destruct (change_matches_nofollow w ps c Hf Hps Hnone) as ([] & -> & Hc);
    simpl.
  - exists true. split; [done|]. split; [|done]. intros _.
    apply Exists_cons_hd. by apply Hc.
  - exists b. split; [done|]. rewrite Hb, Exists_cons. split; [by right|].
    intros [Hhit|?]; [|done]. by apply Hc in Hhit.
Qed.

Lemma any_path_changes_match_nofollow w ps css :
  follow w = false → paths w = Some ps → None ∉ ps →
  ∃ b, any_path_changes_match w css = Ok (b, w) ∧
       (b = true ↔ Exists (change_hits ps) (concat css)).
Proof.
  intros Hf Hps Hnone. induction css as [|cs css (b & IH & Hb)]; simpl.
  { exists false. split; [done|]. split; [done|]. by intros ?%Exists_nil. }
  destruct (any_change_matches_nofollow w ps cs Hf Hps Hnone)
    as ([] & -> & Hc); simpl.
  - exists true. split; [done|]. split; [|done]. intros _.
    apply Exists_app. left. by apply Hc.
  - exists b. split; [done|]. rewrite Hb, Exists_app. split; [by right|].
    intros [Hhit|?]; [|done]. by apply Hc in Hhit.
Qed.

(** A first call of [changes]: a list of lists exactly for a merge. *)
Lemma changes_tag e ch e' :
  WalkEntry._changes e = None → WalkEntry.changes e = Ok (ch, e') →
  if (1 <? length (parents (WalkEntry.commit e)))%nat
  then ∃ css, ch = Nested css
  else ∃ cs, ch = Flat cs.
Proof.
  unfold WalkEntry.changes. intros ->.
  destruct (parents (WalkEntry.commit e)) as [|p [|p' ps]]; simpl.
  - intros [= <- _]. eauto.
  - destruct (getitem _ p); simpl; [|done..]. intros [= <- _]. eauto.
  - intros (ch' & (ts & _ & [= <-])%bind_inv_Ok & [= <- _])%bind_inv_Ok.
    eauto.
Qed.

Lemma bounds_tests w c :
  within_bounds w c →
  match since w with Some s => commit_time c <? s | None => false end = false ∧
  match until w with Some u => commit_time c >? u | None => false end = false.
Proof.
  intros [Hs Hu]. split.
  - destruct (since w) as [s|]; [|done]. specialize (Hs s eq_refl). lia.
  - destruct (until w) as [u|]; [|done]. specialize (Hu u eq_refl). lia.
Qed.

(** X2.  Without follow mode, under a path filter: an entry within the time
    bounds is accepted exactly when one of its change records hits a
    followed path on its new or its old side (for a merge: a record of any
    of its lists); the walker itself is left as it is. *)
Theorem path_filter_accepts_iff_some_change_hits w ps e ch e' :
  follow w = false → paths w = Some ps → None ∉ ps →
  within_bounds w (WalkEntry.commit e) →
  WalkEntry._changes e = None →
  WalkEntry.changes e = Ok (ch, e') →
  ∃ b, _should_return w e = Ok (b, e', w) ∧
       (b = true ↔ Exists (change_hits ps) (all_changes ch)).
Proof.
  intros Hf Hps Hnone [Hs Hu]%bounds_tests Hfresh Hch.
  pose proof (changes_tag e ch e' Hfresh Hch) as Htag.
  unfold _should_return. rewrite Hs, Hu, Hps, Hch. simpl.
  destruct (1 <? _)%nat.
  - destruct Htag as [css ->].
    destruct (any_path_changes_match_nofollow w ps css Hf Hps Hnone)
      as (b & -> & Hb). by exists b.
  - destruct Htag as [cs ->].
    destruct (any_change_matches_nofollow w ps cs Hf Hps Hnone)
      as (b & -> & Hb). by exists b.
Qed.
End PathFilter.

Lemma path_filter_accepts_iff_some_change_hits_witness :
  let w := Fixture.built
             (Walker.__init__ Fixture.repo ["d"; "x"] None ORDER_DATE false
                None (Some ["new.txt"]) None false None None) in
  let e := WalkEntry.__init__ Fixture.repo None Fixture.c in
  ∃ e', Walker._should_return w e = Ok (true, e', w).
Proof.
  intros w e.
  set (ch := Flat [ {| type := CHANGE_DELETE;
                       old := Fixture.entry_at "old.txt";
                       new := Fixture.no_entry |};
                    {| type := CHANGE_ADD; old := Fixture.no_entry;
                       new := Fixture.entry_at "new.txt" |} ]).
  assert (Walker.follow w = false) as H1 by (vm_compute; reflexivity).
  assert (Walker.paths w = Some {[Some "new.txt"]}) as H2
    by (vm_compute; reflexivity).
  assert (None ∉ ({[Some "new.txt"]} : gset (option string))) as H3
    by (apply (bool_decide_unpack _); by vm_compute).
  assert (Walker.since w = None) as Hs by (vm_compute; reflexivity).
  assert (Walker.until w = None) as Hu by (vm_compute; reflexivity).
  assert (within_bounds w (WalkEntry.commit e)) as H4
    by (split; intros t Ht; [rewrite Hs in Ht|rewrite Hu in Ht];
        discriminate Ht).
  assert (WalkEntry.changes e = Ok (ch, cached e ch)) as H5
    by (vm_compute; reflexivity).
  destruct (path_filter_accepts_iff_some_change_hits
              w {[Some "new.txt"]} e ch (cached e ch) H1 H2 H3 H4 eq_refl H5)
    as (b & Hb & Hiff).
  exists (cached e ch). rewrite Hb. do 3 f_equal. apply Hiff.
  apply Exists_cons_tl, Exists_cons_hd. left.
  exists "new.txt", "new.txt". split; [reflexivity|].
  split; [|by left]. by apply elem_of_singleton.
Defined.

Section StoreEntries.
Context `{DiffEngine} `{CommitOrder}.
Import Walker.

Lemma parent_trees_total store ps :
  (∀ p, p ∈ ps → is_Some (store !! p)) →
  ∃ ts, WalkEntry.parent_trees store ps = Ok ts.
Proof.
  induction ps as [|p ps IH]; simpl; intros Hall; [by eauto|].
  destruct (Hall p) as [c Hc]; [set_solver|].
  destruct IH as [ts Hts]; [intros p' Hp'; apply Hall; set_solver|].
  unfold getitem. rewrite Hc. simpl. rewrite Hts. simpl. eauto.
Qed.

(** [changes] does not fail on an entry the queue returns. *)
Lemma changes_queue_entry store rd e :
  queue_entry store rd e → ∃ ch, WalkEntry.changes e = Ok (ch, cached e ch).
Proof.
  destruct e as [c st chg rd0]. intros (He & _ & Hps). simpl in *.
  injection He as -> -> ->. unfold WalkEntry.changes, cached. simpl.
  destruct (parents c) as [|p [|p' ps]] eqn:Hpar; simpl.
  - by eexists.
  - destruct (Hps p) as [c' Hc]; [set_solver|]. unfold getitem. rewrite Hc.
    simpl. by eexists.
  - destruct (parent_trees_total store (p :: p' :: ps) Hps) as [ts Hts].
    simpl in Hts. rewrite Hts. simpl. by eexists.
Qed.
End StoreEntries.

Section StoreWalk.
Context `{DiffEngine} `{CommitOrder}.
Import Walker.

Lemma wframe_init store include exclude order reverse max_entries paths
    rename_detector follow since until w :
  store_wf store →
  __init__ store include exclude order reverse max_entries paths
    rename_detector follow since until = Ok w →
  wframe store (Walker.rename_detector w) w.
Proof.
  intros Hwf (_&_&_&_&_&_&_&_&_&Hq)%walker_init_inv.
  apply queue_init_spec in Hq as (Hst&Hrd&_&_&_&_&_&Hq).
  split_and!; [done|by apply Hq|done|done].
Qed.

Lemma wframe_next store rd fuel w :
  wframe store rd w →
  match _CommitTimeQueue.next fuel (_queue w) with
  | Ok (oe, q') =>
      wframe store rd (set_queue q' w) ∧
      ∀ e, oe = Some e → queue_entry store rd e
  | Raise x => dangling store x
  | Diverge => True
  end.
Proof.
  intros (Hwf & Hq & Hst & Hrd).
  pose proof (next_entry fuel (_queue w)) as Hn. rewrite Hst, Hrd in Hn.
  specialize (Hn Hwf Hq).
  destruct (_CommitTimeQueue.next fuel (_queue w)) as [[oe q']| |];
    [|done..].
  destruct Hn as (? & ? & ? & ?). by split_and!.
Qed.

Lemma queue_entry_store_entry store rd e :
  queue_entry store rd e → store_entry store rd e.
Proof. intros (-> & ? & ?). by split_and!. Qed.

Lemma store_entry_cached store rd e ch :
  store_entry store rd e → store_entry store rd (cached e ch).
Proof. done. Qed.

(** X3.  Over a content-addressed store, every entry the walker hands out
    wraps a commit of the store whose parents are all in the store, and
    refers to the walker's store and rename detector; the walker hands out
    at most as many entries as the store has commits. *)
Theorem emitted_entries_are_store_commits store include exclude order reverse
    max_entries paths rename_detector follow since until w fuel :
  store_wf store →
  __init__ store include exclude order reverse max_entries paths
    rename_detector follow since until = Ok w →
  Forall (store_entry store (Walker.rename_detector w))
    (__iter__ fuel w).1 ∧
  (length (__iter__ fuel w).1 ≤ size store)%nat.
Proof.
  intros Hwf Hinit. pose proof (wframe_init _ _ _ _ _ _ _ _ _ _ _ _ Hwf Hinit)
    as Hw.
  assert (Forall (store_entry store (Walker.rename_detector w))
            (__iter__ fuel w).1) as Hall.
  { refine (proj1 (iter_invariant
      (wframe store (Walker.rename_detector w))
      (queue_entry store (Walker.rename_detector w)) _ (λ _, True)
      _ _ _ fuel w Hw)); try done.
    - intros fuel' w1 Hw1. pose proof (wframe_next _ _ fuel' w1 Hw1) as Hn.
      by destruct (_CommitTimeQueue.next fuel' (_queue w1)) as [[oe q']| |].
    - intros w1 e Hw1 He.
      pose proof (should_return_inv w1 e) as Hi.
      destruct (_should_return w1 e) as [[[b e'] w']| |] eqn:Hr; [|done..].
      destruct Hi as (_ & ps & ->). split; [done|]. intros _.
      apply queue_entry_store_entry in He.
      apply should_return_shape in Hr as [[-> _]|[_ [ch Hch]]]; [done|].
      by apply changes_shape in Hch as [[_ ->]|[_ ->]]. }
  split; [done|].
  rewrite <-size_dom. unfold size, set_size. simpl.
  rewrite <-(length_fmap (λ e, id (WalkEntry.commit e))).
  apply submseteq_length, NoDup_submseteq; [apply iter_nodup|].
  intros k (e & -> & He)%list_elem_of_fmap.
  rewrite Forall_forall in Hall. destruct (Hall e He) as (Hlook & _).
  apply elem_of_elements, elem_of_dom. eauto.
Qed.
End StoreWalk.

Lemma emitted_entries_are_store_commits_witness :
  let w := Fixture.built
             (Walker.__init__ Fixture.repo ["d"; "x"] None ORDER_DATE false
                None None None false None None) in
  Forall (store_entry Fixture.repo (Walker.rename_detector w))
    (Walker.__iter__ Fixture.fuel w).1 ∧
  (length (Walker.__iter__ Fixture.fuel w).1 ≤ size Fixture.repo)%nat.
Proof.
  intros w.
  exact (emitted_entries_are_store_commits
           Fixture.repo ["d"; "x"] None ORDER_DATE false None None None
           false None None w Fixture.fuel repo_wf
           ltac:(vm_compute; reflexivity)).
Defined.

Section Errors.
Context `{DiffEngine} `{CommitOrder}.
Import Walker.

(** X4.  Over a content-addressed store, a walk without a path filter
    ends within [S (size store)] rounds, and the only error it can end
    with is [MissingCommitError] for a parent that a commit of the store
    names and the store does not have.  When the store has every parent
    its commits name, the walk completes.  (Without a path filter the walk
    never asks for the changes of an entry.) *)
Theorem walk_without_path_filter_fails_only_on_missing_parent store include
    exclude order rv max_entries paths rename_detector follow since until w
    fuel :
  store_wf store →
  __init__ store include exclude order rv max_entries paths
    rename_detector follow since until = Ok w →
  Walker.paths w = None →
  (size store < fuel)%nat →
  match (__iter__ fuel w).2 with
  | Ok _ => True
  | Raise x => dangling store x
  | Diverge => False
  end ∧
  (closed store → ∃ w', (__iter__ fuel w).2 = Ok w').
Proof.
  intros Hwf Hinit Hps Hfuel.
  pose proof (wframe_init _ _ _ _ _ _ _ _ _ _ _ _ Hwf Hinit) as Hw.
  destruct (walker_init_winv _ _ _ _ _ _ _ _ _ _ _ _ Hwf Hinit) as [Hinv Hrem].
  pose proof (iter_not_Diverge fuel w Hinv ltac:(lia)) as Hnd.
  assert (match (__iter__ fuel w).2 with
          | Ok _ => True | Raise x => dangling store x | Diverge => False
          end) as Hres.
  { set (I := λ w1, wframe store (Walker.rename_detector w) w1 ∧
                    Walker.paths w1 = None).
    assert (∀ n w1, I w1 → I (set_num_entries n w1)) as H1
      by (by intros n w1 (Hw1 & ?)).
    assert (∀ fuel' w1, I w1 →
              match _CommitTimeQueue.next fuel' (_queue w1) with
              | Ok (oe, q') =>
                  I (set_queue q' w1) ∧ ∀ e, oe = Some e → True
              | Raise x => dangling store x
              | Diverge => True
              end) as H2.
    { intros fuel' w1 (Hw1 & ?).
      pose proof (wframe_next _ _ fuel' w1 Hw1) as Hn.
      destruct (_CommitTimeQueue.next fuel' (_queue w1)) as [[oe q']| |];
        [|done..].
      destruct Hn. by split_and!. }
    assert (∀ w1 e, I w1 → True →
              match _should_return w1 e with
              | Ok (b, e', w') => I w' ∧ (b = true → True)
              | Raise x => dangling store x
              | Diverge => True
              end) as H3.
    { intros w1 e (Hw1 & Hps1) _. unfold _should_return. rewrite Hps1.
      destruct (match Walker.since w1 with Some _ => _ | None => _ end);
        [done|].
      by destruct (match Walker.until w1 with Some _ => _ | None => _ end). }
    assert (I w) as HIw by done.
    pose proof (iter_invariant I _ _ _ H1 H2 H3 fuel w HIw) as [_ Hr].
    destruct ((__iter__ fuel w).2); done. }
  split; [done|]. intros Hclosed.
  destruct ((__iter__ fuel w).2) as [w'|x|]; [by eauto| |done].
  destruct Hres as (k & c & p & Hk & Hp & Hnone & _).
  destruct (Hclosed k c p Hk Hp) as [? ?]. congruence.
Qed.
End Errors.

Lemma walk_without_path_filter_fails_only_on_missing_parent_witness :
  let w := Fixture.built
             (Walker.__init__ Fixture.repo ["m"] None ORDER_DATE false
                None None None true None None) in
  match (Walker.__iter__ Fixture.fuel w).2 with
  | Ok _ => True
  | Raise x => dangling Fixture.repo x
  | Diverge => False
  end.
Proof.
  intros w.
  exact (proj1 (walk_without_path_filter_fails_only_on_missing_parent
                  Fixture.repo ["m"] None ORDER_DATE false None None None
                  true None None w Fixture.fuel repo_wf
                  ltac:(vm_compute; reflexivity) eq_refl
                  ltac:(unfold Fixture.fuel; lia))).
Defined.

Section LazyChanges.
Context `{DiffEngine} `{CommitOrder}.
Import Walker.

(** The entries [next] returns are fresh: no changes computed. *)
Lemma next_fresh fuel q e q' :
  _CommitTimeQueue.next fuel q = Ok (Some e, q') →
  WalkEntry._changes e = None.
Proof.
  revert q. induction fuel as [|fuel IH]; intros q; [done|].
  rewrite next_S. destruct (round q) as [[c r]|] eqn:Hr; [|done].
  apply round_Some in Hr as (time & pq' & _ & ->).
  unfold _CommitTimeQueue.next_body.
  case_decide; [|done]. simpl. case_decide; [by apply IH|].
  match goal with
  | |- context [let '(a, b) := ?X in _] => destruct X as [q1 []]
  end; simpl; [done|].
  destruct (_CommitTimeQueue.push_each q1 (parents c)) as [q2| |]; simpl;
    [|done..].
  destruct (bool_decide _); simpl; [by apply IH|]. by intros [= <- _].
Qed.

(** A path filter stays a path filter, and no path filter stays none. *)
Lemma change_matches_keeps_filter w c b w' :
  _change_matches w c = Ok (b, w') →
  w' = w ∨ (is_Some (paths w) ∧ is_Some (paths w')).
Proof.
  unfold _change_matches.
  destruct (_path_matches w (path (new c))) as [[]| |]; simpl; [| |done..].
  - destruct (follow w && _); [|intros [= _ <-]; by left].
    destruct (paths w) as [ps|]; [|done].
    case_decide; [|done]. intros [= _ <-]. right. by split.
  - destruct (_path_matches w (path (old c))); simpl; [|done..].
    intros [= _ <-]. by left.
Qed.

Lemma any_change_matches_keeps_filter w cs b w' :
  any_change_matches w cs = Ok (b, w') →
  w' = w ∨ (is_Some (paths w) ∧ is_Some (paths w')).
Proof.
  revert w. induction cs as [|c cs IH]; simpl; intros w.
  { intros [= _ <-]. by left. }
  destruct (_change_matches w c) as [[[] w1]| |] eqn:Hc; simpl; [| |done..].
  - intros [= _ <-]. by eapply change_matches_keeps_filter.
  - intros Hr%IH. apply change_matches_keeps_filter in Hc. naive_solver.
Qed.

Lemma any_path_changes_match_keeps_filter w css b w' :
  any_path_changes_match w css = Ok (b, w') →
  w' = w ∨ (is_Some (paths w) ∧ is_Some (paths w')).
Proof.
  revert w. induction css as [|cs css IH]; simpl; intros w.
  { intros [= _ <-]. by left. }
  destruct (any_change_matches w cs) as [[[] w1]| |] eqn:Hc; simpl;
    [| |done..].
  - intros [= _ <-]. by eapply any_change_matches_keeps_filter.
  - intros Hr%IH. apply any_change_matches_keeps_filter in Hc. naive_solver.
Qed.

Lemma should_return_keeps_filter w e b e' w' :
  _should_return w e = Ok (b, e', w') →
  w' = w ∨ (is_Some (paths w) ∧ is_Some (paths w')).
Proof.
  unfold _should_return.
  destruct (match since w with Some _ => _ | None => _ end);
    [intros [= _ _ <-]; by left|].
  destruct (match until w with Some _ => _ | None => _ end);
    [intros [= _ _ <-]; by left|].
  destruct (paths w) as [ps|] eqn:Hps; [|intros [= _ _ <-]; by left].
  destruct (WalkEntry.changes e) as [[ch e1]| |]; simpl; [|done..].
  destruct (1 <? _)%nat, ch as [cs|css]; try done.
  - destruct (any_path_changes_match w css) as [[b1 w1]| |] eqn:Hm;
      simpl; [|done..].
    intros [= _ _ <-]. apply any_path_changes_match_keeps_filter in Hm.
    rewrite Hps in Hm. naive_solver.
  - destruct (any_change_matches w cs) as [[b1 w1]| |] eqn:Hm;
      simpl; [|done..].
    intros [= _ _ <-]. apply any_change_matches_keeps_filter in Hm.
    rewrite Hps in Hm. naive_solver.
Qed.

(** X5.  Changes are computed only when the path filter needs them: a walker
    without a path filter hands out entries with no changes computed, a
    walker with a path filter hands out entries with their changes
    cached. *)
Theorem changes_computed_only_for_path_filter w fuel :
  Forall (λ e, is_Some (WalkEntry._changes e) ↔ is_Some (paths w))
    (__iter__ fuel w).1.
Proof.
  set (I := λ w1, is_Some (paths w1) ↔ is_Some (paths w)).
  assert (∀ n w1, I w1 → I (set_num_entries n w1)) as H1 by done.
  assert (∀ fuel' w1, I w1 →
            match _CommitTimeQueue.next fuel' (_queue w1) with
            | Ok (oe, q') =>
                I (set_queue q' w1) ∧
                ∀ e, oe = Some e → WalkEntry._changes e = None
            | Raise x => True
            | Diverge => True
            end) as H2.
  { intros fuel' w1 Hw1.
    destruct (_CommitTimeQueue.next fuel' (_queue w1)) as [[oe q']| |] eqn:Hn;
      [|done..].
    split; [done|]. intros e ->. by eapply next_fresh. }
  assert (∀ w1 e, I w1 → WalkEntry._changes e = None →
            match _should_return w1 e with
            | Ok (b, e', w') =>
                I w' ∧
                (b = true →
                 is_Some (WalkEntry._changes e') ↔ is_Some (paths w))
            | Raise x => True
            | Diverge => True
            end) as H3.
  { intros w1 e Hw1 He.
    destruct (_should_return w1 e) as [[[b e'] w']| |] eqn:Hr; [|done..].
    split.
    - apply should_return_keeps_filter in Hr as [->|[? ?]]; [done|].
      unfold I in *. naive_solver.
    - intros ->. unfold I in Hw1. rewrite <-Hw1.
      apply should_return_shape in Hr as [[-> [Hp|?]]|[Hp [ch Hch]]];
        [|done|].
      + rewrite He, Hp. split; by intros [? ?].
      + apply changes_shape in Hch as [[? _]|[_ ->]]; [congruence|].
        simpl. split; eauto. }
  by destruct (iter_invariant I _ _ (λ _, True) H1 H2 H3 fuel w) as [? _].
Qed.
End LazyChanges.

Section Construction.
Context `{DiffEngine} `{CommitOrder}.
Import Walker.


End Construction.

Section ChangesErrors.
Context `{DiffEngine}.
Import WalkEntry.

Lemma parent_trees_outcome store ps :
  match parent_trees store ps with
  | Ok ts => ∀ p, p ∈ ps → is_Some (store !! p)
  | Raise x =>
      ∃ present p rest,
        ps = (present ++ p :: rest)%list ∧
        (∀ p', p' ∈ present → is_Some (store !! p')) ∧
        store !! p = None ∧ x = KeyError (Some p)
  | Diverge => False
  end.
Proof.
  induction ps as [|p ps IH]; simpl; [by intros p ?%elem_of_nil|].
  unfold getitem. destruct (store !! p) as [c|] eqn:Hp; simpl.
  - destruct (parent_trees store ps) as [ts|x|]; simpl; [| |done].
    + intros p' [->|Hp']%elem_of_cons; [by eauto|by apply IH].
    + destruct IH as (present & p0 & rest & -> & Hall & Hnone & ->).
      exists (p :: present), p0, rest. split_and!; try done.
      intros p' [->|Hp']%elem_of_cons; [by eauto|by apply Hall].
  - exists [], p, ps. split_and!; try done. by intros p' ?%elem_of_nil.
Qed.

Lemma first_missing_unique (store : Store) present p rest present' p' rest' :
  (present ++ p :: rest = present' ++ p' :: rest')%list →
  (∀ k, k ∈ present → is_Some (store !! k)) → store !! p = None →
  (∀ k, k ∈ present' → is_Some (store !! k)) → store !! p' = None →
  p = p'.
Proof.
  revert present'. induction present as [|a present IH];
    intros [|a' present']; simpl; intros [= ? Heq] Hall Hp Hall' Hp'.
  - done.
  - subst a'. destruct (Hall' p) as [? ?]; [set_solver|congruence].
  - subst a. destruct (Hall p') as [? ?]; [set_solver|congruence].
  - apply (IH present' Heq); try done.
    + intros k Hk. apply Hall. set_solver.
    + intros k Hk. apply Hall'. set_solver.
Qed.

(** X7.  The first call of [changes] on an entry looks up every parent of
    the commit in the entry's store before anything else: a parent that is
    not there makes the call raise [KeyError] for the first such parent,
    and a call that returns has found every parent and hands back the entry
    with the changes cached. *)
Theorem changes_fails_on_first_missing_parent (self : t) :
  _changes self = None →
  (∀ present p rest,
     parents (commit self) = (present ++ p :: rest)%list →
     (∀ p', p' ∈ present → is_Some (_store self !! p')) →
     _store self !! p = None →
     changes self = Raise (KeyError (Some p))) ∧
  (∀ ch self',
     changes self = Ok (ch, self') →
     self' = cached self ch ∧
     ∀ p, p ∈ parents (commit self) → is_Some (_store self !! p)).
Proof.
  intros Hfresh.
  assert (match changes self with
          | Ok (ch, self') =>
              self' = cached self ch ∧
              ∀ p, p ∈ parents (commit self) → is_Some (_store self !! p)
          | Raise x =>
              ∃ present p rest,
                parents (commit self) = (present ++ p :: rest)%list ∧
                (∀ p', p' ∈ present → is_Some (_store self !! p')) ∧
                _store self !! p = None ∧ x = KeyError (Some p)
          | Diverge => False
          end) as Hc.
  { unfold changes. rewrite Hfresh.
    pose proof (parent_trees_outcome (_store self) (parents (commit self)))
      as Hpt.
    destruct (parents (commit self)) as [|p [|p' ps]]; simpl in *.
    - split; [done|]. by intros p ?%elem_of_nil.
    - unfold getitem in *. destruct (_store self !! p); simpl in *; done.
    - match type of Hpt with match ?X with _ => _ end => destruct X end;
        simpl; done. }
  split.
  - intros present p rest Hps Hall Hp.
    destruct (changes self) as [[ch self']|x|]; [| |done].
    + destruct Hc as [_ Hc]. destruct (Hc p) as [? ?]; [|congruence].
      rewrite Hps. set_solver.
    + destruct Hc as (present' & p' & rest' & Hps' & Hall' & Hp' & ->).
      rewrite Hps in Hps'.
      by rewrite (first_missing_unique _ _ _ _ _ _ _ Hps' Hall Hp Hall' Hp').
  - intros ch self' Heq. by rewrite Heq in Hc.
Qed.
End ChangesErrors.

Lemma changes_fails_on_first_missing_parent_witness :
  let self := WalkEntry.__init__ Fixture.repo None Fixture.m in
  WalkEntry._changes self = None ∧
  WalkEntry.changes self = Raise (KeyError (Some "gone")).
Proof.
  intros self. split; [reflexivity|].
  apply (proj1 (changes_fails_on_first_missing_parent self eq_refl)
           ["a"] "gone" []).
  - reflexivity.
  - intros p' ->%list_elem_of_singleton. by exists Fixture.a.
  - reflexivity.
Defined.

Section DateOrder.
Context `{DiffEngine} `{CommitOrder}.
Import _CommitTimeQueue.

Lemma item_lt_le a b : heapq.item_lt a b = true → a.1 ≤ b.1.
Proof. unfold heapq.item_lt. lia. Qed.

Lemma item_lt_ge a b : heapq.item_lt a b = false → b.1 ≤ a.1.
Proof. unfold heapq.item_lt. lia. Qed.

Lemma heappush_sorted heap item :
  StronglySorted (λ a b : Z * Commit, a.1 ≤ b.1) heap →
  StronglySorted (λ a b : Z * Commit, a.1 ≤ b.1) (heapq.heappush heap item).
Proof.
  induction 1 as [|x heap Hs IH Hx]; simpl.
  { repeat constructor. }
  destruct (heapq.item_lt item x) eqn:Hlt.
  - apply item_lt_le in Hlt. constructor; [by constructor|].
    constructor; [done|]. eapply Forall_impl; [exact Hx|].
    intros y Hy. simpl in *. lia.
  - apply item_lt_ge in Hlt. constructor; [done|].
    rewrite heappush_perm. by constructor.
Qed.

Lemma push_hinv q k q' : hinv q → _push q k = Ok q' → hinv q'.
Proof.
  intros [Hs Hk] (c & Hc & [[_ ->]|(_ & _ & ->)])%push_inv; [done|].
  split; simpl.
  - by apply heappush_sorted.
  - intros x. rewrite heappush_perm, elem_of_cons.
    intros [->|Hx]; [done|by apply Hk].
Qed.

Lemma push_items q k q' :
  _push q k = Ok q' →
  ∀ x, x ∈ _pq q' → x ∈ _pq q ∨ _store q !! k = Some x.2.
Proof.
  intros (c & Hc & [[_ ->]|(_ & _ & ->)])%push_inv x; [by left|].
  simpl. rewrite heappush_perm, elem_of_cons. intros [->|Hx]; by eauto.
Qed.

Lemma push_each_hinv q ids q' : hinv q → push_each q ids = Ok q' → hinv q'.
Proof.
  revert q. induction ids as [|k ids IH]; simpl; intros q Hq.
  - by intros [= <-].
  - intros (q1 & Hq1 & Hq')%bind_inv_Ok.
    apply (IH q1); [by eapply push_hinv|done].
Qed.

Lemma push_each_items q ids q' :
  push_each q ids = Ok q' →
  ∀ x, x ∈ _pq q' → x ∈ _pq q ∨ ∃ k, k ∈ ids ∧ _store q !! k = Some x.2.
Proof.
  revert q. induction ids as [|k ids IH]; simpl; intros q.
  - intros [= <-] x ?. by left.
  - intros (q1 & Hq1 & Hq')%bind_inv_Ok x Hx.
    destruct (push_frame _ _ _ Hq1) as (Hst & _).
    destruct (IH _ Hq' x Hx) as [Hx1|(k' & Hk' & Hlook)].
    + destruct (push_items _ _ _ Hq1 x Hx1) as [?|?]; [by left|].
      right. exists k. split; [set_solver|done].
    + right. exists k'. split; [set_solver|]. by rewrite <-Hst.
Qed.

(** One round on a heap in order: the popped commit is the most recent of
    the heap; the heap stays in order; and when no commit is older than a
    parent, nothing on the heap afterwards is more recent than the popped
    commit. *)
Lemma round_order q c f :
  store_wf (_store q) → qinv q → hinv q → round q = Some (c, Ok f) →
  hbound q (commit_time c) ∧ hinv (flow_state f) ∧
  (monotone (_store q) → hbound (flow_state f) (commit_time c)).
Proof.
  intros Hwf Hq [Hs Hk] Hr.
  destruct (round_spec q c _ Hwf Hq Hr) as (Hin & Hnot & Hlook & _).
  apply round_Some in Hr as (time & pq' & Hpq & Hr).
  rewrite Hpq in Hs, Hk. apply StronglySorted_inv in Hs as [Hs Hhd].
  assert (∀ x, x ∈ pq' → commit_time x.2 ≤ commit_time c) as Htl.
  { intros x Hx. rewrite Forall_forall in Hhd. specialize (Hhd x Hx).
    rewrite (Hk x), (Hk (time, c)) in Hhd by set_solver. simpl in Hhd. lia. }
  assert (hbound q (commit_time c)) as Hb.
  { intros x. rewrite Hpq. intros [->|Hx]%elem_of_cons; [simpl; lia|].
    by apply Htl. }
  split; [done|].
  rewrite next_body_eq in Hr by done.
  destruct (visited_frame (set_pq pq' q) c) as (E1 & _ & E3 & _).
  destruct (visited (set_pq pq' q) c) as [q1 stop]. simpl in *.
  assert (hinv q1) as Hq1
    by (split; rewrite E3; [done|intros x Hx; apply Hk; set_solver]).
  destruct stop; simpl in Hr.
  { injection Hr as ->. simpl. split; [done|]. intros _ x. rewrite E3.
    apply Htl. }
  destruct (push_each q1 (parents c)) as [q2| |] eqn:Hp; simpl in Hr; [|done..].
  assert (flow_state f = q2) as ->
    by (by destruct (bool_decide _); injection Hr as ->).
  split; [by eapply push_each_hinv|]. intros Hmono x Hx.
  destruct (push_each_items _ _ _ Hp x Hx) as [Hx1|(k & Hk' & Hlook')].
  - rewrite E3 in Hx1. by apply Htl.
  - rewrite E1 in Hlook'. by eapply Hmono.
Qed.
End DateOrder.

Section DateOrderWalk.
Context `{DiffEngine} `{CommitOrder}.
Import Walker.

Lemma round_oinv store q c f :
  oinv store q → round q = Some (c, Ok f) →
  oinv store (flow_state f) ∧ hbound q (commit_time c) ∧
  (monotone store → hbound (flow_state f) (commit_time c)) ∧
  ∀ e q', f = _CommitTimeQueue.Return e q' → WalkEntry.commit e = c.
Proof.
  intros (Hwf & Hq & Hh & Hst) Hr. rewrite <-Hst in Hwf.
  destruct (round_spec q c _ Hwf Hq Hr) as (_ & _ & _ & Hq' & Hst' & _).
  destruct (round_order q c f Hwf Hq Hh Hr) as (Hb & Hh' & Hb').
  destruct (round_Return q c f Hwf Hq Hr) as [_ Hret].
  rewrite Hst in *. split_and!; try done.
  intros e q' ->. by destruct (Hret e q' eq_refl) as (-> & _).
Qed.

Lemma next_order store fuel q bound :
  oinv store q → monotone store → hbound q bound →
  match _CommitTimeQueue.next fuel q with
  | Ok (Some e, q') =>
      oinv store q' ∧ commit_time (WalkEntry.commit e) ≤ bound ∧
      hbound q' (commit_time (WalkEntry.commit e))
  | _ => True
  end.
Proof.
  intros Hq Hmono. revert q bound Hq.
  induction fuel as [|fuel IH]; intros q bound Hq Hb; [done|].
  rewrite next_S. destruct (round q) as [[c [f| |]]|] eqn:Hr; simpl; try done.
  destruct (round_oinv store q c f Hq Hr) as (Hq' & Hbc & Hb' & Hret).
  assert (commit_time c ≤ bound) as Hc.
  { apply round_Some in Hr as (time & pq' & Hpq & _).
    apply (Hb (time, c)). rewrite Hpq. set_solver. }
  destruct f as [q1|q1|e q1]; simpl in *; [|done|].
  - specialize (IH q1 (commit_time c) Hq' (Hb' Hmono)).
    destruct (_CommitTimeQueue.next fuel q1) as [[[e|] q']| |]; try done.
    destruct IH as (? & ? & ?). split_and!; [done|lia|done].
  - rewrite (Hret e q1 eq_refl). split_and!; [done|lia|by apply Hb'].
Qed.

Lemma _next_order store fuel w bound :
  oinv store (_queue w) → monotone store → hbound (_queue w) bound →
  match _next fuel w with
  | Ok (Some e, w') =>
      oinv store (_queue w') ∧ commit_time (WalkEntry.commit e) ≤ bound ∧
      hbound (_queue w') (commit_time (WalkEntry.commit e))
  | _ => True
  end.
Proof.
  intros Hq Hmono. revert w bound Hq.
  induction fuel as [|fuel IH]; intros w bound Hq Hb; [done|].
  destruct (capped w) eqn:Hcap.
  { by rewrite _next_S, Hcap. }
  pose proof (_next_cases fuel w Hcap) as Hc.
  pose proof (next_order store (S fuel) (_queue w) bound Hq Hmono Hb) as Hn.
  destruct (_CommitTimeQueue.next (S fuel) (_queue w))
    as [[[e|] q]| |]; [| |by rewrite Hc..].
  - destruct Hn as (Hq' & He & Hb').
    destruct (_should_return (set_queue q w) e) as [[[[] e'] w1]| |];
      [| |by rewrite Hc|done].
    + destruct Hc as (Hcommit & [ps ->] & ->). simpl. by rewrite Hcommit.
    + destruct Hc as ([ps ->] & ->).
      specialize (IH (set_paths ps (set_queue q w))
                    (commit_time (WalkEntry.commit e)) Hq' Hb').
      destruct (_next fuel _) as [[[e1|] w']| |]; try done.
      destruct IH as (? & ? & ?). split_and!; [done|lia|done].
  - by rewrite Hc.
Qed.

Lemma iter_next_order store fuel w bound :
  oinv store (_queue w) → monotone store → hbound (_queue w) bound →
  newest_first (iter_next fuel w).1 ∧
  Forall (λ e, commit_time (WalkEntry.commit e) ≤ bound) (iter_next fuel w).1.
Proof.
  intros Hq Hmono. revert w bound Hq.
  induction fuel as [|fuel IH]; intros w bound Hq Hb.
  { simpl. split; constructor. }
  rewrite iter_next_S.
  pose proof (_next_order store (S fuel) w bound Hq Hmono Hb) as Hn.
  destruct (_next (S fuel) w) as [[[e|] w']| |]; simpl;
    try (split; constructor).
  destruct Hn as (Hq' & He & Hb').
  destruct (IH w' _ Hq' Hb') as [IH1 IH2].
  destruct (iter_next fuel w') as [es r]. simpl in *. split.
  - by constructor.
  - constructor; [done|]. eapply Forall_impl; [exact IH2|].
    intros e1 He1. simpl in *. lia.
Qed.

Lemma hbound_exists q : ∃ bound, hbound q bound.
Proof.
  unfold hbound. induction (_CommitTimeQueue._pq q) as [|x pq [b IH]].
  - exists 0. by intros x ?%elem_of_nil.
  - exists (Z.max b (commit_time x.2)).
    intros y [->|Hy]%elem_of_cons; [lia|]. specialize (IH y Hy). lia.
Qed.

Lemma oinv_init store rd include excluded since q :
  store_wf store →
  _CommitTimeQueue.__init__ store rd include excluded since = Ok q →
  oinv store q.
Proof.
  intros Hwf Hinit.
  pose proof Hinit as (Hst&_&_&_&_&_&_&Hq)%queue_init_spec.
  split_and!; [done|by apply Hq| |done].
  unfold _CommitTimeQueue.__init__ in Hinit.
  refine (push_each_hinv _ _ _ _ Hinit). split; simpl; [constructor|].
  by intros x ?%elem_of_nil.
Qed.

Lemma rounds_oinv store q cs q' :
  oinv store q → rounds q cs q' → oinv store q'.
Proof.
  intros Hq. induction 1 as [|cs q1 c f _ IH Hr _]; [done|].
  by destruct (round_oinv store q1 c f IH Hr).
Qed.

(** X8.  Over a content-addressed store the queue pops by commit time: in
    every state the loop goes through, the commit it pops next is one with
    the greatest commit time on the heap.  When no commit of the store is
    older than one of its parents, the walker hands out its entries in
    order of commit time: most recent first without [reverse], oldest
    first with it. *)
Theorem walk_is_in_date_order store include exclude order rv max_entries
    paths rename_detector follow since until w fuel :
  store_wf store →
  __init__ store include exclude order rv max_entries paths
    rename_detector follow since until = Ok w →
  (∀ cs q c r,
     rounds (_queue w) cs q → round q = Some (c, r) →
     ∀ x, x ∈ _CommitTimeQueue._pq q → commit_time x.2 ≤ commit_time c) ∧
  (monotone store →
   if rv then newest_first (rev (__iter__ fuel w).1)
   else newest_first (__iter__ fuel w).1).
Proof.
  intros Hwf Hw.
  pose proof Hw as (_&_&_&Hrv&_&_&_&_&_&Hinit)%walker_init_inv.
  pose proof (oinv_init _ _ _ _ _ _ Hwf Hinit) as Hq. split.
  - intros cs q c r Hcs Hr x Hx.
    pose proof (rounds_oinv _ _ _ _ Hq Hcs) as (_ & _ & [Hs Hk] & _).
    apply round_Some in Hr as (time & pq' & Hpq & _).
    rewrite Hpq in Hs, Hk, Hx. apply StronglySorted_inv in Hs as [_ Hhd].
    apply elem_of_cons in Hx as [->|Hx]; [simpl; lia|].
    rewrite Forall_forall in Hhd. specialize (Hhd x Hx).
    rewrite (Hk x), (Hk (time, c)) in Hhd by set_solver. simpl in Hhd. lia.
  - intros Hmono. destruct (hbound_exists (_queue w)) as [bound Hb].
    destruct (iter_next_order store fuel w bound Hq Hmono Hb) as [Hord _].
    unfold __iter__. rewrite Hrv.
    destruct rv; [|done].
    destruct (iter_next fuel w) as [es [w1| |]]; simpl in *;
      [by rewrite rev_involutive|constructor..].
Qed.
End DateOrderWalk.

Lemma walk_is_in_date_order_witness :
  let w := Fixture.built
             (Walker.__init__ Fixture.repo ["d"; "x"] None ORDER_DATE true
                None None None false None None) in
  fst <$> round (Walker._queue w) = Some Fixture.x ∧
  Forall (λ item : Z * Commit, commit_time item.2 ≤ 50)
    (_CommitTimeQueue._pq (Walker._queue w)) ∧
  entry_ids (Walker.__iter__ Fixture.fuel w).1 = ["a"; "b"; "c"; "d"; "x"].
Proof.
  intros w. split; [vm_compute; reflexivity|].
  split; [|vm_compute; reflexivity].
  pose proof (proj1 (walk_is_in_date_order
                       Fixture.repo ["d"; "x"] None ORDER_DATE true None
                       None None false None None w Fixture.fuel repo_wf
                       ltac:(vm_compute; reflexivity))) as Hord.
  set (q := Walker._queue w) in *.
  assert (fst <$> round q = Some Fixture.x) as Hk
    by (vm_compute; reflexivity).
  clearbody q. clearbody w.
  destruct (round q) as [[c r]|] eqn:Hr; [|discriminate Hk].
  injection Hk as ->.
  apply Forall_forall. intros item Hitem.
  exact (Hord [] q Fixture.x r (rounds_nil q) Hr item Hitem).
Defined.

Section Completeness.
Context `{DiffEngine} `{CommitOrder}.
Import Walker.

Lemma round_unfiltered store include q c r :
  kinv store include q → round q = Some (c, r) →
  match r with
  | Ok f =>
      ∃ e, f = _CommitTimeQueue.Return e (flow_state f) ∧
           WalkEntry.commit e = c ∧
           kinv store include (flow_state f) ∧
           _CommitTimeQueue._done (flow_state f) =
             {[id c]} ∪ _CommitTimeQueue._done q
  | _ => True
  end.
Proof.
  intros (Hwf & Hq & Hst & Hex & Hmt & Hseed & Hpar) Hr.
  destruct r as [f| |]; [|done..].
  assert (store_wf (_CommitTimeQueue._store q)) as Hwf' by (by rewrite Hst).
  destruct (round_spec q c _ Hwf' Hq Hr)
    as (Hin & Hnot & Hlook & Hq' & Hst' & Hdone' & Hmt').
  apply round_Some in Hr as (time & pq' & Hpq & Hr).
  rewrite next_body_eq in Hr by done.
  pose proof (visited_excluded (_CommitTimeQueue.set_pq pq' q) c) as Ev.
  destruct (visited_frame (_CommitTimeQueue.set_pq pq' q) c)
    as (_ & _ & _ & E4 & E5 & _).
  assert ((visited (_CommitTimeQueue.set_pq pq' q) c).2 = false) as Hstop
    by (unfold visited; simpl; by rewrite Hmt).
  destruct (visited (_CommitTimeQueue.set_pq pq' q) c) as [q1 stop].
  simpl in *. subst stop. rewrite Hex in Ev, Hr.
  rewrite bool_decide_eq_false_2 in Ev, Hr by set_solver.
  destruct (_CommitTimeQueue.push_each q1 (parents c)) as [q2| |] eqn:Hp;
    simpl in Hr; [|done..].
  injection Hr as ->. simpl in *.
  destruct (push_each_frame _ _ _ Hp) as (_ & _ & F3 & F4 & _).
  destruct (push_each_pq_set _ _ _ Hp) as (Hall & Hsub & _).
  eexists. split; [done|]. split; [done|]. split; [|done].
  assert (∀ k, k ∈ _CommitTimeQueue._pq_set q ∪ _CommitTimeQueue._done q →
               k ∈ _CommitTimeQueue._pq_set q2 ∪ _CommitTimeQueue._done q2)
    as Hkeep.
  { intros k Hk. rewrite Hdone'. destruct (decide (k = id c)) as [->|Hne];
      [set_solver|].
    apply elem_of_union in Hk as [Hk|Hk]; [|set_solver].
    apply elem_of_union_l, Hsub. rewrite E4. set_solver. }
  split_and!; [done|done|congruence|congruence|congruence| |].
  - intros k Hk. by apply Hkeep, Hseed.
  - intros k c' p. rewrite Hdone'.
    intros [->%elem_of_singleton|Hk]%elem_of_union Hc' Hp'.
    + rewrite Hst in Hlook. assert (c' = c) as -> by congruence.
      rewrite <-Hdone'. by apply Hall.
    + rewrite <-Hdone'. apply Hkeep. by eapply Hpar.
Qed.

Lemma next_unfiltered store include fuel q :
  kinv store include q →
  match _CommitTimeQueue.next (S fuel) q with
  | Ok (Some e, q') =>
      kinv store include q' ∧
      _CommitTimeQueue._done q' =
        {[id (WalkEntry.commit e)]} ∪ _CommitTimeQueue._done q
  | Ok (None, q') => q' = q ∧ _CommitTimeQueue._pq q = []
  | _ => True
  end.
Proof.
  intros Hk. rewrite next_S. destruct (round q) as [[c r]|] eqn:Hr.
  - pose proof (round_unfiltered store include q c r Hk Hr) as Hu.
    destruct r as [f| |]; simpl; [|done..].
    destruct Hu as (e & -> & <- & Hk' & Hd). done.
  - split; [done|]. unfold round in Hr.
    by destruct (_CommitTimeQueue._pq q) as [|[]].
Qed.

Lemma should_return_unfiltered w e :
  unfiltered w → _should_return w e = Ok (true, e, w).
Proof.
  intros (_ & Hp & Hs & Hu). unfold _should_return. by rewrite Hs, Hu, Hp.
Qed.

Lemma iter_next_unfiltered store include fuel w w' :
  unfiltered w → kinv store include (_queue w) →
  (iter_next fuel w).2 = Ok w' →
  kinv store include (_queue w') ∧ _CommitTimeQueue._pq (_queue w') = [] ∧
  _CommitTimeQueue._done (_queue w') =
    _CommitTimeQueue._done (_queue w) ∪
    list_to_set (entry_ids (iter_next fuel w).1).
Proof.
  revert w. induction fuel as [|fuel IH]; intros w Hu Hk; [done|].
  rewrite iter_next_S, _next_S.
  assert (capped w = false) as ->
    by (unfold capped; by destruct Hu as (-> & _)).
  pose proof (next_unfiltered store include fuel (_queue w) Hk) as Hn.
  destruct (_CommitTimeQueue.next (S fuel) (_queue w)) as [[[e|] q]| |];
    simpl; [| |done..].
  - rewrite should_return_unfiltered by done. simpl.
    destruct Hn as [Hk' Hd].
    specialize (IH (set_num_entries (_num_entries w + 1) (set_queue q w))).
    destruct (iter_next fuel _) as [es r]. simpl in *. intros Hr.
    destruct (IH Hu Hk' Hr) as (? & ? & ->). split_and!; [done..|].
    rewrite Hd. set_solver.
  - destruct Hn as [-> Hpq]. intros [= <-]. simpl.
    split_and!; [done..|]. set_solver.
Qed.

Lemma kinv_init store include exclude order reverse max_entries paths
    rename_detector follow until w :
  store_wf store → default [] exclude = [] →
  __init__ store include exclude order reverse max_entries paths
    rename_detector follow None until = Ok w →
  kinv store include (_queue w) ∧ _CommitTimeQueue._done (_queue w) = ∅.
Proof.
  intros Hwf Hex (_&_&_&_&_&_&_&_&_&Hq)%walker_init_inv.
  rewrite Hex in Hq.
  pose proof Hq as (Hst&_&Hexq&Hdone&Hmt&_&_&Hinv)%queue_init_spec.
  unfold _CommitTimeQueue.__init__ in Hq.
  destruct (push_each_pq_set _ _ _ Hq) as (Hall & _).
  split; [|done]. split_and!; try done; [by apply Hinv| |].
  - intros k Hk. apply Hall. set_solver.
  - intros k c p. rewrite Hdone. set_solver.
Qed.

(** X9.  A walk that nothing filters (no exclusions, no cap, no path filter,
    no time bounds) and that completes hands out exactly the commits that
    are reached from the include seeds along parent edges: each of them,
    and nothing else. *)
Theorem unfiltered_walk_emits_all_ancestors store include exclude order
    reverse rename_detector follow w fuel w' :
  store_wf store → default [] exclude = [] →
  __init__ store include exclude order reverse None None rename_detector
    follow None None = Ok w →
  (__iter__ fuel w).2 = Ok w' →
  ∀ k, k ∈ entry_ids (__iter__ fuel w).1 ↔ clean store include ∅ k.
Proof.
  intros Hwf Hex Hinit Hr k.
  assert (k ∈ entry_ids (__iter__ fuel w).1 ↔
          k ∈ entry_ids (iter_next fuel w).1) as ->.
  { unfold __iter__ in *. destruct (Walker.reverse w); [|done].
    destruct (iter_next fuel w) as [es [w1| |]]; simpl in *; try done.
    unfold entry_ids. rewrite !list_elem_of_fmap.
    by setoid_rewrite list_elem_of_In; setoid_rewrite <-in_rev. }
  apply iter_Ok in Hr. split.
  - intros (e & -> & He)%list_elem_of_fmap.
    pose proof (walker_init_cinv _ _ _ _ _ _ _ _ _ _ _ _ Hwf Hinit) as Hc.
    rewrite Hex in Hc. by eapply iter_next_clean.
  - destruct (kinv_init _ _ _ _ _ _ _ _ _ _ _ Hwf Hex Hinit) as [Hk Hd0].
    assert (unfiltered w) as Hu.
    { pose proof Hinit as (_&_&_&_&?&_&?&?&_)%walker_init_inv.
      split_and!; try done.
      revert Hinit. unfold __init__. case_decide; [done|].
      by intros (q & _ & [= <-])%bind_inv_Ok. }
    destruct (iter_next_unfiltered store include fuel w w' Hu Hk Hr)
      as ((_ & Hq & _ & _ & _ & Hseed & Hpar) & Hpq & Hd).
    rewrite Hd0, (left_id_L ∅ (∪)) in Hd.
    assert (_CommitTimeQueue._pq_set (_queue w') = ∅) as Hempty.
    { apply set_eq. intros k'. rewrite <-(qinv_pq_set _ Hq), Hpq.
      set_solver. }
    rewrite Hempty in Hseed, Hpar.
    rewrite <-(elem_of_list_to_set (C := gset string)), <-Hd.
    induction 1 as [k Hk' _|p c k _ IH Hp Hk' _]; [set_solver|].
    specialize (Hpar p c k IH Hp Hk'). set_solver.
Qed.
End Completeness.

Lemma unfiltered_walk_emits_all_ancestors_witness :
  let w := Fixture.built
             (Walker.__init__ Fixture.repo ["d"; "x"] None ORDER_DATE false
                None None None false None None) in
  "a" ∈ entry_ids (Walker.__iter__ Fixture.fuel w).1 ∧
  clean Fixture.repo ["d"; "x"] ∅ "a".
Proof.
  intros w.
  assert ("a" ∈ entry_ids (Walker.__iter__ Fixture.fuel w).1) as Hin
    by (apply (bool_decide_unpack _); by vm_compute).
  split; [exact Hin|].
  exact (proj1 (unfiltered_walk_emits_all_ancestors
                  Fixture.repo ["d"; "x"] None ORDER_DATE false None false w
                  Fixture.fuel
                  (Fixture.built (Walker.__iter__ Fixture.fuel w).2)
                  repo_wf eq_refl ltac:(vm_compute; reflexivity)
                  ltac:(vm_compute; reflexivity) "a") Hin).
Defined.

Section WalkEnd.
Context `{DiffEngine} `{CommitOrder}.
Import Walker.

Lemma round_Break q c q' :
  store_wf (_CommitTimeQueue._store q) → qinv q →
  round q = Some (c, Ok (_CommitTimeQueue.Break q')) →
  is_Some (_CommitTimeQueue._min_time q) ∧
  _CommitTimeQueue._extra_commits_left q' = 0.
Proof.
  intros Hwf Hq Hr.
  destruct (_CommitTimeQueue._min_time q) as [T|] eqn:HT.
  - pose proof (round_counter q T c _ Hwf Hq HT Hr) as Hc. simpl in Hc.
    split; [done|]. destruct (commit_time c <? T); [|by destruct Hc].
    destruct Hc as [-> Hb]. by apply Hb.
  - exfalso. destruct (round_spec q c _ Hwf Hq Hr) as (Hin & Hnot & _).
    apply round_Some in Hr as (time & pq' & Hpq & Hr).
    rewrite next_body_eq in Hr by done. unfold visited in Hr. simpl in Hr.
    rewrite HT in Hr. simpl in Hr.
    destruct (_CommitTimeQueue.push_each _ _); simpl in Hr; [|done..].
    by destruct (bool_decide _).
Qed.

Lemma next_frame fuel q oe q' :
  store_wf (_CommitTimeQueue._store q) → qinv q →
  _CommitTimeQueue.next fuel q = Ok (oe, q') →
  qinv q' ∧ _CommitTimeQueue._store q' = _CommitTimeQueue._store q ∧
  _CommitTimeQueue._min_time q' = _CommitTimeQueue._min_time q ∧
  (oe = None →
   _CommitTimeQueue._pq q' = [] ∨
   (is_Some (_CommitTimeQueue._min_time q) ∧
    _CommitTimeQueue._extra_commits_left q' = 0)).
Proof.
  intros Hwf Hq (cs & q1 & Hcs & Hend)%next_rounds.
  destruct (rounds_qinv _ _ _ Hwf Hq Hcs) as (Hq1 & Hst1 & Hmt1).
  assert (store_wf (_CommitTimeQueue._store q1)) as Hwf1 by (by rewrite Hst1).
  destruct Hend as [(-> & Hr & ->)|[(c & -> & Hr)|(c & e & -> & Hr)]].
  - split_and!; [done..|]. intros _. left. unfold round in Hr.
    by destruct (_CommitTimeQueue._pq q1) as [|[]].
  - destruct (round_spec _ _ _ Hwf1 Hq1 Hr) as (_ & _ & _ & ? & ? & _ & ?).
    simpl in *. split_and!; [done|congruence|congruence|].
    intros _. right. rewrite <-Hmt1. by eapply round_Break.
  - destruct (round_spec _ _ _ Hwf1 Hq1 Hr) as (_ & _ & _ & ? & ? & _ & ?).
    simpl in *. split_and!; [done|congruence|congruence|done].
Qed.

Lemma _next_end fuel w oe w' :
  winv w → _next fuel w = Ok (oe, w') →
  winv w' ∧
  _CommitTimeQueue._min_time (_queue w') =
    _CommitTimeQueue._min_time (_queue w) ∧
  (oe = None → stopped w').
Proof.
  revert w. induction fuel as [|fuel IH]; intros w [Hwf Hq]; [done|].
  destruct (capped w) eqn:Hcap.
  { rewrite _next_S, Hcap. intros [= <- <-]. split_and!; [done..|by left]. }
  pose proof (_next_cases fuel w Hcap) as Hc.
  pose proof (next_frame (S fuel) (_queue w)) as Hn.
  destruct (_CommitTimeQueue.next (S fuel) (_queue w))
    as [[[e|] q]| |]; [| |by rewrite Hc..].
  - destruct (Hn _ _ Hwf Hq eq_refl) as (Hq' & Hst & Hmt & _).
    destruct (_should_return (set_queue q w) e)
      as [[[[] e'] w1]| |]; [| |by rewrite Hc|done].
    + destruct Hc as (_ & (ps & ->) & ->). intros [= <- <-].
      split_and!; [split; simpl; [by rewrite Hst|done]|done|done].
    + destruct Hc as ((ps & ->) & ->). intros Hr.
      destruct (IH (set_paths ps (set_queue q w))) as (? & ? & ?);
        [split; simpl; [by rewrite Hst|done]|done|].
      split_and!; [done| |done]. simpl in *. congruence.
  - rewrite Hc. intros [= <- <-].
    destruct (Hn _ _ Hwf Hq eq_refl) as (Hq' & Hst & Hmt & Hend).
    split_and!; [split; simpl; [by rewrite Hst|done]|done|].
    intros _. right. simpl. rewrite Hmt.
    by destruct (Hend eq_refl); [left|right].
Qed.

Lemma iter_next_end fuel w w' :
  winv w → (iter_next fuel w).2 = Ok w' →
  _CommitTimeQueue._min_time (_queue w') =
    _CommitTimeQueue._min_time (_queue w) ∧
  stopped w'.
Proof.
  revert w. induction fuel as [|fuel IH]; intros w Hw; [done|].
  rewrite iter_next_S.
  destruct (_next (S fuel) w) as [[[e|] w1]| |] eqn:Hn; simpl; [| |done..].
  - destruct (_next_end (S fuel) w _ _ Hw Hn) as (Hw1 & Hmt & _).
    specialize (IH w1 Hw1). destruct (iter_next fuel w1) as [es r].
    simpl in *. intros Hr. destruct (IH Hr). split; [congruence|done].
  - intros [= <-]. destruct (_next_end _ _ _ _ Hw Hn) as (_ & ? & ?).
    split; [done|]. eauto.
Qed.

(** X10.  A walk over a content-addressed store that completes has ended for
    one of three reasons only: the cap on accepted entries is reached, the
    frontier is empty, or, with a lower time bound, the queue's counter of
    commits past the bound has run to zero. *)
Theorem walk_ends_at_cap_exhaustion_or_boundary store include exclude order
    rv max_entries paths rename_detector follow since until w fuel w' :
  store_wf store →
  __init__ store include exclude order rv max_entries paths rename_detector
    follow since until = Ok w →
  (__iter__ fuel w).2 = Ok w' →
  capped w' = true ∨ _CommitTimeQueue._pq (_queue w') = [] ∨
  (is_Some since ∧ _CommitTimeQueue._extra_commits_left (_queue w') = 0).
Proof.
  intros Hwf Hinit Hr%iter_Ok.
  pose proof (walker_init_winv _ _ _ _ _ _ _ _ _ _ _ _ Hwf Hinit) as [Hw _].
  pose proof Hinit as (_&_&_&_&_&_&_&_&_&Hq)%walker_init_inv.
  pose proof Hq as (_&_&_&_&Hmt&_)%queue_init_spec.
  destruct (iter_next_end fuel w w' Hw Hr) as [Hmt' Hs].
  unfold stopped in Hs. by rewrite Hmt', Hmt in Hs.
Qed.
End WalkEnd.

Lemma walk_ends_at_cap_exhaustion_or_boundary_witness :
  let w := Fixture.built
             (Walker.__init__ Fixture.repo ["d"; "x"] None ORDER_DATE false
                (Some 2) None None false (Some 100) None) in
  let w' := Fixture.built (Walker.__iter__ Fixture.fuel w).2 in
  capped w' = true ∨
  _CommitTimeQueue._pq (Walker._queue w') = [] ∨
  (is_Some (Some 100) ∧
   _CommitTimeQueue._extra_commits_left (Walker._queue w') = 0).
Proof.
  intros w w'.
  exact (walk_ends_at_cap_exhaustion_or_boundary
           Fixture.repo ["d"; "x"] None ORDER_DATE false (Some 2) None None
           false (Some 100) None w Fixture.fuel w' repo_wf
           ltac:(vm_compute; reflexivity) ltac:(vm_compute; reflexivity)).
Defined.

Section Configuration.
Context `{DiffEngine} `{CommitOrder}.
Import Walker.

Lemma change_matches_fixed w c b w' :
  follow w = false → _change_matches w c = Ok (b, w') → w' = w.
Proof.
  intros Hf. unfold _change_matches. rewrite Hf.
  destruct (_path_matches w (path (new c))) as [[]| |]; simpl;
    [by intros [= _ <-]| |done..].
  destruct (_path_matches w (path (old c))); simpl; [|done..].
  by intros [= _ <-].
Qed.

Lemma any_change_matches_fixed w cs b w' :
  follow w = false → any_change_matches w cs = Ok (b, w') → w' = w.
Proof.
  intros Hf. induction cs as [|c cs IH]; simpl; [by intros [= _ <-]|].
  destruct (_change_matches w c) as [[[] w1]| |] eqn:Hc; simpl; [| |done..].
  - apply change_matches_fixed in Hc as ->; [|done]. by intros [= _ <-].
  - apply change_matches_fixed in Hc as ->; done.
Qed.

Lemma any_path_changes_match_fixed w css b w' :
  follow w = false → any_path_changes_match w css = Ok (b, w') → w' = w.
Proof.
  intros Hf. induction css as [|cs css IH]; simpl; [by intros [= _ <-]|].
  destruct (any_change_matches w cs) as [[[] w1]| |] eqn:Hc; simpl;
    [| |done..].
  - apply any_change_matches_fixed in Hc as ->; [|done]. by intros [= _ <-].
  - apply any_change_matches_fixed in Hc as ->; done.
Qed.

Lemma should_return_fixed w e b e' w' :
  follow w = false → _should_return w e = Ok (b, e', w') → w' = w.
Proof.
  intros Hf. unfold _should_return.
  destruct (match since w with Some _ => _ | None => _ end);
    [by intros [= _ _ <-]|].
  destruct (match until w with Some _ => _ | None => _ end);
    [by intros [= _ _ <-]|].
  destruct (paths w) as [ps|]; [|by intros [= _ _ <-]].
  destruct (WalkEntry.changes e) as [[ch e1]| |]; simpl; [|done..].
  destruct (1 <? _)%nat, ch as [cs|css]; try done.
  - destruct (any_path_changes_match w css) as [[b1 w1]| |] eqn:Hm; simpl;
      [|done..].
    apply any_path_changes_match_fixed in Hm as ->; [|done].
    by intros [= _ _ <-].
  - destruct (any_change_matches w cs) as [[b1 w1]| |] eqn:Hm; simpl;
      [|done..].
    apply any_change_matches_fixed in Hm as ->; [|done].
    by intros [= _ _ <-].
Qed.

Lemma _next_config fuel w oe w' :
  _next fuel w = Ok (oe, w') →
  same_config w w' ∧ (follow w = false → paths w' = paths w).
Proof.
  revert w. induction fuel as [|fuel IH]; intros w; [done|].
  destruct (capped w) eqn:Hcap.
  { rewrite _next_S, Hcap. by intros [= _ <-]. }
  pose proof (_next_cases fuel w Hcap) as Hc.
  destruct (_CommitTimeQueue.next (S fuel) (_queue w))
    as [[[e|] q]| |]; [| |by rewrite Hc..].
  - destruct (_should_return (set_queue q w) e)
      as [[[[] e'] w1]| |] eqn:Hs; [| |by rewrite Hc|done].
    + destruct Hc as (_ & (ps & ->) & ->). intros [= _ <-].
      split; [done|]. intros Hf.
      by apply should_return_fixed in Hs as [= ->].
    + destruct Hc as ((ps & ->) & ->). intros [Hcfg Hps]%IH.
      split; [done|]. intros Hf. rewrite (Hps Hf). simpl.
      by apply should_return_fixed in Hs as [= ->].
  - rewrite Hc. by intros [= _ <-].
Qed.

(** X11.  A walk that completes leaves the walker's configuration as it was:
    store, include seeds, order, reverse flag, cap, rename detector, follow
    flag and time bounds.  Without follow mode the followed paths stay as
    they were, too; only the count of accepted entries and the queue have
    moved. *)
Theorem walk_keeps_configuration w fuel w' :
  (__iter__ fuel w).2 = Ok w' →
  same_config w w' ∧ (follow w = false → paths w' = paths w).
Proof.
  rewrite iter_Ok. revert w. induction fuel as [|fuel IH]; intros w; [done|].
  rewrite iter_next_S.
  destruct (_next (S fuel) w) as [[[e|] w1]| |] eqn:Hn; simpl; [| |done..].
  - apply _next_config in Hn as [Hcfg Hps]. specialize (IH w1).
    destruct (iter_next fuel w1) as [es r]. simpl in *.
    intros [Hcfg' Hps']%IH.
    destruct Hcfg as (?&?&?&?&?&?&Hf1&?&?).
    destruct Hcfg' as (?&?&?&?&?&?&?&?&?).
    split; [split_and!; congruence|].
    intros Hf. rewrite Hps', Hps; [done..|]. by rewrite Hf1.
  - apply _next_config in Hn. by intros [= <-].
Qed.
End Configuration.

Lemma walk_keeps_configuration_witness :
  let w := Fixture.built
             (Walker.__init__ Fixture.repo ["d"; "x"] None ORDER_DATE false
                None (Some ["new.txt"]) None false None None) in
  let w' := Fixture.built (Walker.__iter__ Fixture.fuel w).2 in
  same_config w w' ∧ Walker.paths w' = Walker.paths w.
Proof.
  intros w w'.
  destruct (walk_keeps_configuration w Fixture.fuel w') as [Hcfg Hps].
  - vm_compute; reflexivity.
  - split; [exact Hcfg|]. apply Hps. reflexivity.
Defined.

Section CachedChanges.
Context `{DiffEngine}.
Import WalkEntry.

(** X12.  [changes] computes once: after a call that returns, a further call
    on the returned entry gives the same changes and the same entry, and
    the entry still wraps the same commit, store and rename detector. *)
Theorem changes_answers_from_cache_afterwards (self : t) ch self' :
  changes self = Ok (ch, self') →
  changes self' = Ok (ch, self') ∧ _changes self' = Some ch ∧
  commit self' = commit self ∧ _store self' = _store self ∧
  _rename_detector self' = _rename_detector self.
Proof.
  unfold changes at 1. destruct (_changes self) as [ch0|] eqn:Hc.
  - intros [= <- <-]. unfold changes. by rewrite Hc.
  - intros (ch1 & _ & [= <- <-])%bind_inv_Ok. done.
Qed.
End CachedChanges.

Lemma changes_answers_from_cache_afterwards_witness :
  let self := WalkEntry.__init__ Fixture.repo None Fixture.d in
  let r := WalkEntry.changes self in
  ∃ ch self', r = Ok (ch, self') ∧ WalkEntry.changes self' = r.
Proof.
  intros self r.
  destruct r as [[ch self']| |] eqn:Hr; [|by vm_compute in Hr..].
  exists ch, self'. split; [done|].
  by destruct (changes_answers_from_cache_afterwards self ch self' Hr)
    as [-> _].
Defined.

Section BoundaryAgain.
Context `{DiffEngine} `{CommitOrder}.
Import _CommitTimeQueue.

(** X13.  The stop at the lower time bound is not remembered.  Once the
    counter of commits past the bound is at zero or below, no round stops
    the loop: a commit older than the bound takes the counter further
    down, a commit that is not older sets it back to 5, and either way the
    loop goes on. *)
Theorem boundary_stop_is_not_repeated q T c f :
  store_wf (_store q) → qinv q → _min_time q = Some T →
  _extra_commits_left q ≤ 0 →
  round q = Some (c, Ok f) →
  is_break f = false ∧
  _extra_commits_left (flow_state f) =
    if commit_time c <? T then _extra_commits_left q - 1
    else _MAX_EXTRA_COMMITS.
Proof.
  intros Hwf Hq HT Hle Hr.
  pose proof (round_counter q T c f Hwf Hq HT Hr) as Hc.
  destruct (commit_time c <? T); [|by destruct Hc].
  destruct Hc as [-> Hb]. split; [|done].
  destruct (is_break f); [|done]. pose proof (proj1 Hb eq_refl). lia.
Qed.
End BoundaryAgain.

Lemma roots_wf : store_wf Roots.store.
Proof. apply (bool_decide_unpack _). by vm_compute. Defined.

Lemma boundary_stop_is_not_repeated_witness :
  let w := Fixture.built
             (Walker.__init__ Roots.store Roots.include None ORDER_DATE false
                None None None false (Some 100) None) in
  let q := Walker._queue (Fixture.built (Walker.iter_next 8 w).2) in
  _CommitTimeQueue._extra_commits_left q = 0 ∧
  ∃ c f, round q = Some (c, Ok f) ∧ is_break f = false ∧
         _CommitTimeQueue._extra_commits_left (flow_state f) = -1.
Proof.
  intros w q. split; [vm_compute; reflexivity|].
  assert (Walker.__init__ Roots.store Roots.include None ORDER_DATE false
                None None None false (Some 100) None = Ok w) as Hinit by (vm_compute; reflexivity).
  destruct (walker_init_winv Roots.store Roots.include None ORDER_DATE false
              None None None false (Some 100) None w roots_wf Hinit) as [Hw Hrem].
  pose proof (iter_next_spec 8 w Hw) as Hs.
  assert ((Walker.iter_next 8 w).2 =
          Ok (Fixture.built (Walker.iter_next 8 w).2)) as Heq
    by (vm_compute; reflexivity).
  rewrite Heq in Hs.
  assert (size Roots.store = 7%nat) as E by (vm_compute; reflexivity).
  rewrite E in Hrem.
  destruct Hs as [Hwf Hq]; [lia|].
  fold q in Hwf, Hq.
  assert (option_map (λ r, (commit_time r.1,
                            match r.2 with Ok _ => true | _ => false end))
            (round q) = Some (2, true)) as Hk by (vm_compute; reflexivity).
  assert (_CommitTimeQueue._min_time q = Some 100) as HT by (vm_compute; reflexivity).
  assert (_CommitTimeQueue._extra_commits_left q = 0) as H0 by (vm_compute; reflexivity).
  clearbody q. clear Heq Hw Hrem Hinit. clearbody w.
  destruct (round q) as [[c [f| |]]|] eqn:Hr; try discriminate Hk.
  injection Hk as Hc.
  destruct (boundary_stop_is_not_repeated q 100 c f Hwf Hq HT ltac:(rewrite H0; lia) Hr) as [Hb Hx].
  exists c, f. split; [reflexivity|]. split; [exact Hb|].
  rewrite Hx, Hc, H0. reflexivity.
Defined.

Section FollowRename.
Context `{DiffEngine} `{CommitOrder}.
Import Walker.

(** X14.  Follow mode, a rename or copy whose new path is itself a followed
    path and differs from its old path: the change is accepted, and from
    then on the walker follows the old path in place of the new one, so
    that the old path matches. *)
Theorem follow_rename_retargets w ps change old_path new_path :
  follow w = true → paths w = Some ps → None ∉ ps →
  type change ∈ RENAME_CHANGE_TYPES →
  path (old change) = Some old_path → path (new change) = Some new_path →
  Some new_path ∈ ps → old_path ≠ new_path →
  ∃ w', _change_matches w change = Ok (true, w') ∧
        w' = set_paths
               (Some ({[Some old_path]} ∪ ps ∖ {[Some new_path]})) w ∧
        _path_matches w' (Some old_path) = Ok true.
Proof.
  intros Hfollow Hps Hnone Htype Hold Hnew Hin Hne.
  eexists. split; [|split; [reflexivity|]].
  - unfold _change_matches.
    destruct (path_matches_spec w ps (path (new change)) Hps Hnone)
      as (b & -> & Hb).
    assert (b = true) as ->.
    { apply Hb. exists new_path, new_path. split_and!; [done|done|by left]. }
    simpl. rewrite Hfollow, bool_decide_eq_true_2 by done. simpl.
    rewrite Hps, Hnew, Hold. rewrite decide_True by set_solver.
    do 3 f_equal. f_equal. apply set_eq. intros k.
    rewrite !elem_of_union, !elem_of_difference, !elem_of_union,
      !elem_of_singleton.
    naive_solver.
  - match goal with |- _path_matches ?w' _ = _ =>
      destruct (path_matches_spec w' ({[Some old_path]} ∪ ps ∖ {[Some new_path]})
                  (Some old_path) eq_refl) as (b & -> & Hb)
    end.
    + set_solver.
    + f_equal. apply Hb. exists old_path, old_path.
      split_and!; [done|set_solver|by left].
Qed.
End FollowRename.

Lemma follow_rename_retargets_witness :
  let w := Fixture.built
             (Walker.__init__ Fixture.repo ["c"] None ORDER_DATE false None
                (Some ["new.txt"]) None true None None) in
  let change :=
    {| type := CHANGE_RENAME; old := Fixture.entry_at "old.txt";
       new := Fixture.entry_at "new.txt" |} in
  ∃ w', Walker._change_matches w change = Ok (true, w') ∧
        Walker._path_matches w' (Some "old.txt") = Ok true.
Proof.
  intros w change.
  pose proof (follow_rename_retargets w {[Some "new.txt"]} change
              "old.txt" "new.txt") as Hx.
  assert (Walker.follow w = true) as H1 by (vm_compute; reflexivity).
  assert (Walker.paths w = Some {[Some "new.txt"]}) as H2 by (vm_compute; reflexivity).
  assert (None ∉ ({[Some "new.txt"]} : gset (option string))) as H3 by (apply (bool_decide_unpack _); by vm_compute).
  assert (type change ∈ RENAME_CHANGE_TYPES) as H4 by (apply (bool_decide_unpack _); by vm_compute).
  assert (Some "new.txt" ∈ ({[Some "new.txt"]} : gset (option string))) as H5 by (apply (bool_decide_unpack _); by vm_compute).
  assert ("old.txt" ≠ "new.txt") as H6 by discriminate.
  destruct (Hx H1 H2 H3 H4 eq_refl eq_refl H5 H6) as (w' & Hc & _ & Hm).
  exists w'.
  split; [exact Hc|exact Hm].
Defined.
